(** * Shopee return tool: crawler, matcher and address extractor

    A shallow embedding of the four script modules
    ([ShopeeUtils], [OrderCrawler], [SNMatcher], [AddressExtractor])
    and the properties of their record filter, key index, key parser,
    matcher, warehouse classifier, page loop and per-order extraction.

    The first part of the file holds the embedding, the second part the
    lemmas and theorems. *)

From Stdlib Require Import String Ascii.
From Stdlib Require Import List ZArith NArith PArith Bool Arith Lia Permutation.
From Stdlib Require Import SpecFloat.
Import ListNotations.

Set Implicit Arguments.

(* ================================================================== *)
(** * Part I. The embedding                                            *)
(* ================================================================== *)

(** ** JavaScript strings: sequences of UTF-16 code units *)

Definition code_unit := N.
Definition jsstring := list code_unit.

(** ASCII literals of the source, as code units. *)
Definition lit (s : string) : jsstring :=
  map N_of_ascii (list_ascii_of_string s).

Fixpoint jsstring_eqb (s t : jsstring) : bool :=
  match s, t with
  | [], [] => true
  | a :: s', b :: t' => N.eqb a b && jsstring_eqb s' t'
  | _, _ => false
  end.

(** [s.startsWith(pat)], the step of the substring search. *)
Fixpoint starts_with (pat s : jsstring) : bool :=
  match pat, s with
  | [], _ => true
  | p :: pat', c :: s' => N.eqb p c && starts_with pat' s'
  | _ :: _, [] => false
  end.

(** [String.prototype.includes]: some position of [s] starts with [pat]. *)
Fixpoint str_includes (pat s : jsstring) : bool :=
  starts_with pat s ||
  match s with
  | [] => false
  | _ :: s' => str_includes pat s'
  end.

(** [pat] occurs in [s] as a contiguous run of code units. *)
Definition occurs_in (pat s : jsstring) : Prop :=
  exists before after, s = before ++ pat ++ after.

(** White space and line terminators, the code units [trim] strips. *)
Definition is_js_space (c : code_unit) : bool :=
  existsb (N.eqb c)
    [9; 10; 11; 12; 13; 32; 160; 5760; 8232; 8233; 8239; 8287; 12288; 65279]%N
  || (N.leb 8192 c && N.leb c 8202).

Fixpoint trim_start (s : jsstring) : jsstring :=
  match s with
  | c :: s' => if is_js_space c then trim_start s' else s
  | [] => []
  end.

Definition trim_end (s : jsstring) : jsstring := rev (trim_start (rev s)).

(** [String.prototype.trim] *)
Definition trim (s : jsstring) : jsstring := trim_end (trim_start s).

(** [s.split(sep)] for a one-unit separator: always at least one piece. *)
Fixpoint split_on (sep : code_unit) (s : jsstring) : list jsstring :=
  match s with
  | [] => [[]]
  | c :: s' =>
      if N.eqb c sep then [] :: split_on sep s'
      else match split_on sep s' with
           | piece :: rest => (c :: piece) :: rest
           | [] => [[c]]
           end
  end.

Definition LF : code_unit := 10%N.

(** [l.join(sep)] *)
Fixpoint join_with (sep : jsstring) (l : list jsstring) : jsstring :=
  match l with
  | [] => []
  | x :: rest =>
      match rest with
      | [] => x
      | _ :: _ => x ++ sep ++ join_with sep rest
      end
  end.

(** ** Cutting and trimming, in words

    The pieces of a text cut at a separator: there is at least one, joined
    by the separator they give the text back, and none holds the
    separator.  The core of a line that is trimmed: the line is the core
    between two runs of white space, and the core neither begins nor ends
    with white space. *)

Definition free_of (sep : code_unit) (s : jsstring) : bool :=
  forallb (fun c => negb (N.eqb c sep)) s.

Definition cut_at (sep : code_unit) (s : jsstring) (pieces : list jsstring) : Prop :=
  pieces <> [] /\
  join_with [sep] pieces = s /\
  Forall (fun p => free_of sep p = true) pieces.

Definition solid_ends (core : jsstring) : bool :=
  match core with
  | [] => true
  | c :: _ => negb (is_js_space c)
  end &&
  match rev core with
  | [] => true
  | c :: _ => negb (is_js_space c)
  end.

Definition trimmed_of (line core : jsstring) : Prop :=
  exists before after,
    line = before ++ core ++ after /\
    forallb is_js_space before = true /\
    forallb is_js_space after = true /\
    solid_ends core = true.

(** ** JavaScript numbers: IEEE 754 binary64 *)

Definition number := spec_float.
Definition prec : Z := 53.
Definition emax : Z := 1024.

Definition num_of_Z (z : Z) : number := binary_normalize prec emax z 0 false.
Definition num_of_nat (n : nat) : number := num_of_Z (Z.of_nat n).
Definition num_div : number -> number -> number := SFdiv prec emax.
Definition num_mul : number -> number -> number := SFmul prec emax.

(** [x === y] on numbers: IEEE equality, so NaN differs from itself and
    the two zeros are equal. *)
Definition num_strict_eq : number -> number -> bool := SFeqb.

(** SameValueZero on numbers, the key equality of [Map] and [Set]. *)
Definition num_same_value_zero (x y : number) : bool :=
  match x, y with
  | S754_nan, S754_nan => true
  | S754_zero _, S754_zero _ => true
  | S754_infinity s, S754_infinity s' => Bool.eqb s s'
  | S754_finite s m e, S754_finite s' m' e' =>
      Bool.eqb s s' && Pos.eqb m m' && Z.eqb e e'
  | _, _ => false
  end.

Definition num_is_nan (x : number) : bool :=
  match x with S754_nan => true | _ => false end.

Definition num_is_zero (x : number) : bool :=
  match x with S754_zero _ => true | _ => false end.

(** ** JavaScript values

    Arrays and objects carry the identity of their reference, which is
    what [===] and the key equality of [Map] compare. *)

#[local] Set Warnings "-register-all".

Inductive value : Type :=
| VUndefined
| VNull
| VBool (b : bool)
| VNum (x : number)
| VStr (s : jsstring)
| VArr (ref : nat) (elems : list value)
| VObj (ref : nat) (props : list (jsstring * value)).

(** The property list of an object, each name once. *)
Definition object := list (jsstring * value).

Fixpoint lookup (o : object) (name : jsstring) : value :=
  match o with
  | [] => VUndefined
  | (k, v) :: o' => if jsstring_eqb k name then v else lookup o' name
  end.

(** [v.name] for a [v] that is neither null nor undefined and a [name]
    that no prototype defines: own properties of objects, and undefined on
    primitives and arrays. *)
Definition prop (v : value) (name : jsstring) : value :=
  match v with
  | VObj _ o => lookup o name
  | _ => VUndefined
  end.

(** ToBoolean *)
Definition truthy (v : value) : bool :=
  match v with
  | VUndefined | VNull => false
  | VBool b => b
  | VNum x => negb (num_is_zero x || num_is_nan x)
  | VStr s => match s with [] => false | _ => true end
  | VArr _ _ | VObj _ _ => true
  end.

(** [a === b] *)
Definition strict_eq (a b : value) : bool :=
  match a, b with
  | VUndefined, VUndefined => true
  | VNull, VNull => true
  | VBool x, VBool y => Bool.eqb x y
  | VNum x, VNum y => num_strict_eq x y
  | VStr s, VStr t => jsstring_eqb s t
  | VArr r _, VArr r' _ => Nat.eqb r r'
  | VObj r _, VObj r' _ => Nat.eqb r r'
  | _, _ => false
  end.

(** SameValueZero *)
Definition same_value_zero (a b : value) : bool :=
  match a, b with
  | VUndefined, VUndefined => true
  | VNull, VNull => true
  | VBool x, VBool y => Bool.eqb x y
  | VNum x, VNum y => num_same_value_zero x y
  | VStr s, VStr t => jsstring_eqb s t
  | VArr r _, VArr r' _ => Nat.eqb r r'
  | VObj r _, VObj r' _ => Nat.eqb r r'
  | _, _ => false
  end.

(** [a || b] *)
Definition js_or (a b : value) : value := if truthy a then a else b.

Definition is_array (v : value) : bool :=
  match v with VArr _ _ => true | _ => false end.

Definition zero : value := VNum (S754_zero false).
Definition empty_str : value := VStr [].

(** A field that is present, not empty and not zero. *)
Definition usable (v : value) : Prop :=
  v <> VNull /\ v <> VUndefined /\ v <> VStr [] /\
  forall sign, v <> VNum (S754_zero sign).

(** ** [Map]: insertion-ordered, keys compared by SameValueZero *)

Module JsMap.

Section Entries.

Variable V : Type.

Definition t := list (value * V).

Definition empty : t := [].

Fixpoint has (m : t) (k : value) : bool :=
  match m with
  | [] => false
  | (k', _) :: m' => same_value_zero k' k || has m' k
  end.

Fixpoint find (m : t) (k : value) : option V :=
  match m with
  | [] => None
  | (k', v) :: m' => if same_value_zero k' k then Some v else find m' k
  end.

(** [m.set(k, v)]: an existing key keeps its place, a new one goes last. *)
Fixpoint set (m : t) (k : value) (v : V) : t :=
  match m with
  | [] => [(k, v)]
  | (k', v') :: m' =>
      if same_value_zero k' k then (k', v) :: m' else (k', v') :: set m' k v
  end.

Definition size (m : t) : nat := length m.

Definition clear (m : t) : t := [].

Definition keys (m : t) : list value := map fst m.

End Entries.

(** [m.get(k)] on a map of values: undefined for a missing key. *)
Definition get (m : t value) (k : value) : value :=
  match find m k with
  | Some v => v
  | None => VUndefined
  end.

End JsMap.

(** Keys no two of which the map identifies. *)
Inductive pairwise_distinct : list value -> Prop :=
| pd_nil : pairwise_distinct []
| pd_cons k l :
    existsb (same_value_zero k) l = false ->
    pairwise_distinct l -> pairwise_distinct (k :: l).

(** ** [Set] of values *)

Module JsSet.

Definition t := list value.

Definition empty : t := [].

Definition has (s : t) (k : value) : bool := existsb (fun k' => same_value_zero k' k) s.

Definition add (s : t) (k : value) : t := if has s k then s else s ++ [k].

Definition delete (s : t) (k : value) : t :=
  filter (fun k' => negb (same_value_zero k' k)) s.

Definition clear (s : t) : t := [].

End JsSet.

(** ** Decimal text of a number

    What [x.toFixed(1)] returns and [parseFloat] reads back.  The digits
    are kept as the integer number of tenths; [TxtShortest x] is the
    shortest text that reads back as [x], which [toFixed] falls back to
    from 10^21 on. *)

Inductive num_text :=
| TxtNaN
| TxtInfinity (neg : bool)
| TxtFixed1 (neg : bool) (tenths : Z)
| TxtShortest (x : number).

(** The exact value [m * 2^e] of a finite number as a fraction whose
    denominator is a power of two. *)
Definition exact_fraction (m : positive) (e : Z) : Z * Z :=
  match e with
  | Zneg k => (Zpos m, 2 ^ Zpos k)%Z
  | _ => (Zpos m * 2 ^ e, 1)%Z
  end.

(** [Number.prototype.toFixed] with one fraction digit: the integer [n]
    with [n / 10] nearest to the magnitude of [x], the larger one on a
    tie; the sign is kept apart. *)
Definition toFixed1 (x : number) : num_text :=
  match x with
  | S754_nan => TxtNaN
  | S754_infinity s => TxtInfinity s
  | S754_zero _ => TxtFixed1 false 0
  | S754_finite s m e =>
      let '(num, den) := exact_fraction m e in
      if (10 ^ 21 * den <=? num)%Z then TxtShortest x
      else TxtFixed1 s ((2 * (10 * num) + den) / (2 * den))%Z
  end.

(** [n / 10] is nearest to [num / den], and the larger of the two nearest
    on a tie. *)
Definition nearest_tenths (num den n : Z) : Prop :=
  forall j : Z,
    (Z.abs (n * den - 10 * num) <= Z.abs (j * den - 10 * num))%Z /\
    (Z.abs (j * den - 10 * num) = Z.abs (n * den - 10 * num) -> j <= n)%Z.

(** What rounding to one decimal place asks of the text of [x]. *)
Definition rounds_to_one_decimal (x : number) (t : num_text) : Prop :=
  match x with
  | S754_nan => t = TxtNaN
  | S754_infinity s => t = TxtInfinity s
  | S754_zero _ => t = TxtFixed1 false 0
  | S754_finite s m e =>
      let '(num, den) := exact_fraction m e in
      if (10 ^ 21 * den <=? num)%Z then t = TxtShortest x
      else exists n, t = TxtFixed1 s n /\ nearest_tenths num den n
  end.

(** [parseFloat] on such a text: the binary64 number nearest to the
    decimal, ties to even. *)
Definition parseFloat (t : num_text) : number :=
  match t with
  | TxtNaN => S754_nan
  | TxtInfinity s => S754_infinity s
  | TxtFixed1 s Z0 => S754_zero s
  | TxtFixed1 s (Zpos n) => SFdiv prec emax (S754_finite s n 0) (S754_finite false 10 0)
  | TxtFixed1 _ (Zneg _) => S754_nan
  | TxtShortest x => x
  end.

(** ** What the modules tell the user

    [ShopeeUtils.log], [addLogToUI] and [showError] (which logs, writes to
    the panel and raises an alert).  A notice stands for the text of the
    source message with the values it interpolates. *)

Inductive level := Info | Success | Error | Warning.

Inductive notice :=
| MsgEnterValidSn                          (* parseUserInput: no usable input *)
| MsgInvalidIgnored (count : nat)
| MsgInvalidList (sns : list jsstring)
| MsgNoValidSn                             (* parseUserInput: nothing valid *)
| MsgParsed (count : nat)
| MsgNothingToMatch                        (* matchReturnSns: no keys *)
| MsgNoOrderData                           (* matchReturnSns: crawl first *)
| MsgMatchStart
| MsgMatchHit (sn id : value)
| MsgMatchMiss (sn : value)
| MsgMatchDone
| MsgMatchedCount (count : nat)
| MsgUnmatchedCount (count : nat)
| MsgMatchRate (rate : num_text)
| MsgUnmatchedList (sns : list value) (ellipsis : bool)
| MsgMatchCacheCleared
| MsgFilteredOut (count : nat).            (* filterValidData *)

Inductive effect :=
| Log (n : notice) (l : level)
| AddLogToUI (n : notice) (l : level)
| Alert (n : notice).

Definition showError (n : notice) : list effect :=
  [Log n Error; AddLogToUI n Error; Alert n].

Definition is_alert (e : effect) : bool :=
  match e with Alert _ => true | _ => false end.

(** ** ShopeeUtils *)

Module ShopeeUtils.

(** The character class [[A-Z0-9]]. *)
Definition upper_alnum (c : code_unit) : bool :=
  (N.leb 65 c && N.leb c 90) || (N.leb 48 c && N.leb c 57).

(** A class repeated exactly [n] times, then the rest of the pattern. *)
Fixpoint rep_exact (cls : code_unit -> bool) (n : nat)
         (k : jsstring -> bool) (s : jsstring) : bool :=
  match n with
  | O => k s
  | S n' => match s with
            | c :: s' => cls c && rep_exact cls n' k s'
            | [] => false
            end
  end.

(** A class repeated at most [n] times, greedily, then the rest. *)
Fixpoint rep_upto (cls : code_unit -> bool) (n : nat)
         (k : jsstring -> bool) (s : jsstring) : bool :=
  match n with
  | O => k s
  | S n' => match s with
            | c :: s' => (cls c && rep_upto cls n' k s') || k s
            | [] => k s
            end
  end.

(** The anchor [$] of a pattern without the multiline flag. *)
Definition at_end (s : jsstring) : bool :=
  match s with [] => true | _ => false end.

(** [/^[A-Z0-9]{3,20}$/.test(sn)] *)
Definition validateReturnSn (sn : jsstring) : bool :=
  rep_exact upper_alnum 3 (rep_upto upper_alnum 17 at_end) sn.

(** The format rule in words: upper-case letters and digits, three to
    twenty of them. *)
Definition well_formed_key (sn : jsstring) : bool :=
  Nat.leb 3 (length sn) && Nat.leb (length sn) 20 && forallb upper_alnum sn.

(** *** [getCsrfToken] *)

Definition SEMICOLON : code_unit := 59%N.
Definition EQUALS : code_unit := 61%N.

(** [const [name, value] = cookie.trim().split('=')]: the first piece, and
    the second piece, undefined when there is none. *)
Definition cookie_name (cookie : jsstring) : jsstring :=
  hd [] (split_on EQUALS (trim cookie)).

Definition cookie_value (cookie : jsstring) : value :=
  match split_on EQUALS (trim cookie) with
  | _ :: v :: _ => VStr v
  | _ => VUndefined
  end.

(** [name === 'csrftoken' || name === '_token'] *)
Definition is_token_cookie (cookie : jsstring) : bool :=
  jsstring_eqb (cookie_name cookie) (lit "csrftoken") ||
  jsstring_eqb (cookie_name cookie) (lit "_token").

(** The loop over the cookies: the value of the first one so named. *)
Fixpoint scan_cookies (cookies : list jsstring) : option value :=
  match cookies with
  | [] => None
  | cookie :: rest =>
      if is_token_cookie cookie then Some (cookie_value cookie)
      else scan_cookies rest
  end.

(** What the meta tag gives: its [content] attribute, null when the tag or
    the attribute is missing.  [csrfMeta] is the element found, if any,
    with its attribute, if any. *)
Definition meta_content (csrfMeta : option (option jsstring)) : value :=
  match csrfMeta with
  | Some (Some content) => VStr content
  | Some None => VNull
  | None => VNull
  end.

(** [getCsrfToken()], given [document.cookie] and the meta tag. *)
Definition getCsrfToken (document_cookie : jsstring)
           (csrfMeta : option (option jsstring)) : value :=
  match scan_cookies (split_on SEMICOLON document_cookie) with
  | Some v => v
  | None => meta_content csrfMeta
  end.

(** In words: a cookie, stripped of the white space around it and cut at
    every equals sign, is a name followed by fields; and the two names
    under which the token is looked for. *)
Definition cookie_parts (cookie name : jsstring) (fields : list jsstring) : Prop :=
  exists core, trimmed_of cookie core /\ cut_at EQUALS core (name :: fields).

Definition token_name (name : jsstring) : Prop :=
  name = lit "csrftoken" \/ name = lit "_token".

End ShopeeUtils.

(** ** OrderCrawler: record filter and key index *)

Module OrderCrawler.

Definition RETURN_ID : jsstring := lit "return_id".
Definition RETURN_SN : jsstring := lit "return_sn".

(** The predicate of [filterValidData]: the item is truthy and neither
    field is null, undefined, the empty string or the number 0. *)
Definition field_ok (v : value) : bool :=
  negb (strict_eq v VNull) && negb (strict_eq v VUndefined) &&
  negb (strict_eq v empty_str) && negb (strict_eq v zero).

Definition valid_item (item : value) : bool :=
  truthy item && field_ok (prop item RETURN_ID) && field_ok (prop item RETURN_SN).

(** The object literal each kept item is mapped to. *)
Definition keep_fields (item : value) : object :=
  [(RETURN_ID, prop item RETURN_ID); (RETURN_SN, prop item RETURN_SN)].

(** The count [dataArray.length - validData.length]. *)
Definition filteredCount (dataArray : list value) (validData : list object) : Z :=
  (Z.of_nat (length dataArray) - Z.of_nat (length validData))%Z.

Definition filterValidData (dataArray : value) : list object * list effect :=
  match dataArray with
  | VArr _ items =>
      let validData := map keep_fields (filter valid_item items) in
      let n := filteredCount items validData in
      (validData,
       if (0 <? n)%Z then [AddLogToUI (MsgFilteredOut (Z.to_nat n)) Warning] else [])
  | _ => ([], [])
  end.

Record cache := {
  rawData : list value;
  filteredData : list object;
  snToIdMap : JsMap.t value;
  lastUpdate : option number
}.

(** The index built at the end of [crawlOrders]: the map is cleared and
    every filtered record is set in order. *)
Definition index_step (acc : JsMap.t value) (item : object) : JsMap.t value :=
  JsMap.set acc (lookup item RETURN_SN) (lookup item RETURN_ID).

Definition build_index (m : JsMap.t value) (filtered : list object) : JsMap.t value :=
  fold_left index_step filtered (JsMap.clear m).

Definition getCachedMap (c : cache) : JsMap.t value := snToIdMap c.

(** The id of the last record of [filtered] whose key is [k]. *)
Fixpoint last_id_of (filtered : list object) (k : value) : option value :=
  match filtered with
  | [] => None
  | item :: rest =>
      match last_id_of rest k with
      | Some id => Some id
      | None => if same_value_zero (lookup item RETURN_SN) k
                then Some (lookup item RETURN_ID) else None
      end
  end.

(** One representative of every key of a list, the last occurrence. *)
Fixpoint distinct_keys (ks : list value) : list value :=
  match ks with
  | [] => []
  | k :: rest =>
      if existsb (same_value_zero k) rest then distinct_keys rest
      else k :: distinct_keys rest
  end.

(** *** The page loop of [crawlOrders] *)

Definition pageSize : nat := 50.

(** The fields of the request payload that vary: the page number, the date
    range, and the cursor, sent only when the offset is neither null nor 0. *)
Record request := {
  page_number : nat;
  create_time_range : value;
  cursor_offset : option value
}.

Definition build_request (pageNumber : nat) (offset dateRange : value) : request :=
  {| page_number := pageNumber;
     create_time_range := dateRange;
     cursor_offset :=
       if negb (strict_eq offset VNull) && negb (strict_eq offset zero)
       then Some offset else None |}.

(** What the transport hands back: [onerror], or [onload] with a body that
    [JSON.parse] accepts ([Some]) or rejects ([None]). *)
Inductive http_result :=
| NetworkFailure
| Loaded (body : option value).

Inductive fetch_error :=
| RequestFailed
| ParseFailed
| ApiError (msg : value).

Definition API_ERROR_TEXT : jsstring :=
  lit "API" ++ [36820; 22238; 38169; 35823]%N.

(** The promise of [fetchPageData]: rejected on a transport failure, on a
    body that does not parse (or on which reading [error] throws) and on a
    non-zero [error] field, resolved with the parsed body otherwise. *)
Definition fetchPageData (r : http_result) : fetch_error + value :=
  match r with
  | NetworkFailure => inl RequestFailed
  | Loaded None => inl ParseFailed
  | Loaded (Some VNull) | Loaded (Some VUndefined) => inl ParseFailed
  | Loaded (Some data) =>
      if truthy (prop data (lit "error")) &&
         negb (strict_eq (prop data (lit "error")) zero)
      then inl (ApiError (js_or (prop data (lit "error_msg")) (VStr API_ERROR_TEXT)))
      else inr data
  end.

Record loop_state := {
  allData : list value;
  currentPage : nat;
  hasMoreData : value;
  currentOffset : value
}.

Definition initial_loop_state : loop_state :=
  {| allData := []; currentPage := 1; hasMoreData := VBool true;
     currentOffset := zero |}.

(** [responseData]: the nested list field, else a top-level array, else
    null. *)
Definition response_data (data : value) : value :=
  if truthy data && truthy (prop data (lit "data")) &&
     truthy (prop (prop data (lit "data")) (lit "exceptional_case_list"))
  then prop (prop data (lit "data")) (lit "exceptional_case_list")
  else if truthy data && truthy (prop data (lit "data")) &&
          is_array (prop data (lit "data"))
  then prop data (lit "data")
  else VNull.

(** [paginationInfo]: null unless the body carries a truthy
    [pagination_info]. *)
Definition pagination_info (data : value) : value :=
  if truthy data && truthy (prop data (lit "pagination_info"))
  then prop data (lit "pagination_info")
  else VNull.

(** [v?.name] *)
Definition optional_prop (v : value) (name : jsstring) : value :=
  match v with
  | VNull | VUndefined => VUndefined
  | _ => prop v name
  end.

(** The two assignments made when pagination metadata is present. *)
Definition read_pagination (ls : loop_state) (data : value) : loop_state :=
  match pagination_info data with
  | VNull => ls
  | paginationInfo =>
      {| allData := allData ls;
         currentPage := currentPage ls;
         hasMoreData := js_or (prop paginationInfo (lit "has_more")) (VBool false);
         currentOffset :=
           js_or (optional_prop (prop paginationInfo (lit "cursor")) (lit "cursor_offset"))
                 (VNum (num_mul (num_of_nat (currentPage ls)) (num_of_nat pageSize))) |}
  end.

Inductive step_result :=
| Continue (ls : loop_state)
| Break (ls : loop_state).

Definition append_page (ls : loop_state) (records : list value) : loop_state :=
  {| allData := allData ls ++ records;
     currentPage := currentPage ls;
     hasMoreData := hasMoreData ls;
     currentOffset := currentOffset ls |}.

Definition next_page (ls : loop_state) : loop_state :=
  {| allData := allData ls;
     currentPage := S (currentPage ls);
     hasMoreData := hasMoreData ls;
     currentOffset := currentOffset ls |}.

(** [paginationInfo && paginationInfo.has_more === false] *)
Definition has_more_false (data : value) : bool :=
  truthy (pagination_info data) &&
  strict_eq (prop (pagination_info data) (lit "has_more")) (VBool false).

(** One pass through the body of the [while]: the page is requested, and
    the loop is left on a rejected request, on a page without records and
    on a page whose metadata says [has_more === false]; otherwise the
    records are appended and the page number advances. *)
Definition page_step (ls : loop_state) (r : http_result) : step_result :=
  match fetchPageData r with
  | inl _ => Break ls
  | inr data =>
      let ls1 := read_pagination ls data in
      match response_data data with
      | VArr _ ((_ :: _) as records) =>
          if has_more_false data then Break (append_page ls1 records)
          else Continue (next_page (append_page ls1 records))
      | _ => Break ls1
      end
  end.

(** The variables with which the next page is requested after a page of
    records. *)
Definition advance (ls : loop_state) (data : value) : loop_state :=
  match response_data data with
  | VArr _ records => next_page (append_page (read_pagination ls data) records)
  | _ => read_pagination ls data
  end.

(** The answers that end a crawl: a transport failure, a body that does
    not parse, an error envelope, a page without records, and a page whose
    metadata carries [has_more] false. *)
Inductive ends_crawl : http_result -> Prop :=
| ends_transport : ends_crawl NetworkFailure
| ends_unparsable : ends_crawl (Loaded None)
| ends_error_envelope data :
    truthy (prop data (lit "error")) = true ->
    strict_eq (prop data (lit "error")) zero = false ->
    ends_crawl (Loaded (Some data))
| ends_empty_page data :
    match response_data data with
    | VArr _ (_ :: _) => False
    | _ => True
    end ->
    ends_crawl (Loaded (Some data))
| ends_no_more data :
    strict_eq (prop (prop data (lit "pagination_info")) (lit "has_more")) (VBool false) = true ->
    ends_crawl (Loaded (Some data)).

Section Server.

(** The remote list API: any state, any answer to a request. *)
Variable Srv : Type.
Variable respond : Srv -> request -> Srv * http_result.
Variable dateRange : value.

Definition next_request (ls : loop_state) : request :=
  build_request (currentPage ls) (currentOffset ls) dateRange.

(** [while (hasMoreData) { ... }], with the number of requests issued.
    [None]: the loop is still running when the fuel is spent. *)
Fixpoint crawl_loop (fuel : nat) (sv : Srv) (ls : loop_state)
  : option (loop_state * nat) :=
  if truthy (hasMoreData ls) then
    match fuel with
    | O => None
    | S fuel' =>
        let '(sv', r) := respond sv (next_request ls) in
        match page_step ls r with
        | Break ls' => Some (ls', 1)
        | Continue ls' =>
            match crawl_loop fuel' sv' ls' with
            | Some (ls'', n) => Some (ls'', S n)
            | None => None
            end
        end
    end
  else Some (ls, 0).

(** The server ends the crawl within [n] requests: one of its first [n]
    answers to the requests of the loop is an answer that ends a crawl. *)
Fixpoint stops_within (n : nat) (sv : Srv) (ls : loop_state) : Prop :=
  match n with
  | O => False
  | S n' =>
      let '(sv', r) := respond sv (next_request ls) in
      ends_crawl r \/
      match r with
      | Loaded (Some data) => stops_within n' sv' (advance ls data)
      | _ => False
      end
  end.

End Server.

Inductive crawl_error := InvalidDateRange.

(** [crawlOrders] once the headers are there: [None] for a loop that
    outlives the fuel, an error for a missing date range, and otherwise
    the filtered records with the new cache.  The reference given to the
    accumulated array plays no role. *)
Definition crawlOrders (Srv : Type) (respond : Srv -> request -> Srv * http_result)
           (fuel : nat) (dateRange : option value) (now : number)
           (sv : Srv) (c : cache)
  : option (crawl_error + list object * cache) :=
  match dateRange with
  | None => Some (inl InvalidDateRange)
  | Some range =>
      match crawl_loop respond range fuel sv initial_loop_state with
      | None => None
      | Some (ls, _) =>
          let filtered := fst (filterValidData (VArr 0 (allData ls))) in
          Some (inr (filtered,
                     {| rawData := allData ls;
                        filteredData := filtered;
                        snToIdMap := build_index (snToIdMap c) filtered;
                        lastUpdate := Some now |}))
      end
  end.

Definition clearCache (c : cache) : cache :=
  {| rawData := []; filteredData := [];
     snToIdMap := JsMap.clear (snToIdMap c); lastUpdate := None |}.

(** A small server to run the loop on: the first two requests get a page
    of two records each (one key comes back on both pages, one record has
    no key), every later request an empty page. *)
Definition sample_record (ref : nat) (id : nat) (sn : string) : value :=
  VObj ref [(lit "return_id", VNum (num_of_nat id));
            (lit "return_sn", VStr (lit sn));
            (lit "status", VStr (lit "open"))].

Definition sample_page (ref : nat) (records : list value) : value :=
  VObj ref [(lit "data", VObj (ref + 1)
                           [(lit "exceptional_case_list", VArr (ref + 2) records)]);
            (lit "pagination_info", VObj (ref + 3) [(lit "has_more", VBool true)])].

Definition sample_server (served : nat) (_ : request) : nat * http_result :=
  (S served,
   match served with
   | 0 => Loaded (Some (sample_page 10 [sample_record 1 501 "SN001";
                                        sample_record 2 502 "SN002"]))
   | 1 => Loaded (Some (sample_page 20 [sample_record 3 503 "SN001";
                                        sample_record 4 504 ""]))
   | _ => Loaded (Some (sample_page 30 []))
   end).

(** A server whose transport always fails. *)
Definition failing_server (sv : unit) (_ : request) : unit * http_result :=
  (sv, NetworkFailure).

Definition empty_cache : cache :=
  {| rawData := []; filteredData := []; snToIdMap := JsMap.empty value;
     lastUpdate := None |}.

Definition getCachedData (c : cache) : list object := filteredData c.

(** [getCacheInfo]: the three counts, and the time of the last update,
    which the source shows in the local format ([None] for none). *)
Record cache_info := {
  rawDataCount : nat;
  filteredDataCount : nat;
  mappingCount : nat;
  lastUpdateShown : option number
}.

Definition getCacheInfo (c : cache) : cache_info :=
  {| rawDataCount := length (rawData c);
     filteredDataCount := length (filteredData c);
     mappingCount := JsMap.size (snToIdMap c);
     lastUpdateShown := lastUpdate c |}.

End OrderCrawler.

(** ** SNMatcher *)

Module SNMatcher.

Record cache := {
  userInput : list jsstring;
  matchedResults : list object;
  unmatchedSns : list value;
  snToIdMap : JsMap.t value
}.

(** The [forEach] of [parseUserInput]: valid and invalid lines, each in
    input order. *)
Definition sort_line (acc : list jsstring * list jsstring) (line : jsstring) :=
  if ShopeeUtils.validateReturnSn line
  then (fst acc ++ [line], snd acc)
  else (fst acc, snd acc ++ [line]).

Definition input_lines (s : jsstring) : list jsstring :=
  filter (fun line => negb (Nat.eqb (length line) 0)) (map trim (split_on LF s)).


Definition parseUserInput (input : value) (c : cache)
  : list jsstring * list effect * cache :=
  match input with
  | VStr ((_ :: _) as s) =>
      let lines := input_lines s in
      let '(validSns, invalidSns) := fold_left sort_line lines ([], []) in
      let fx_invalid :=
        if Nat.ltb 0 (length invalidSns)
        then [AddLogToUI (MsgInvalidIgnored (length invalidSns)) Warning;
              Log (MsgInvalidList invalidSns) Warning]
        else [] in
      if Nat.eqb (length validSns) 0
      then ([], fx_invalid ++ showError MsgNoValidSn, c)
      else (validSns,
            fx_invalid ++ [AddLogToUI (MsgParsed (length validSns)) Success],
            {| userInput := validSns;
               matchedResults := matchedResults c;
               unmatchedSns := unmatchedSns c;
               snToIdMap := snToIdMap c |})
  | _ => ([], showError MsgEnterValidSn, c)
  end.

Record outcome := {
  matched : list object;
  unmatched : list value;
  matchRate : number
}.

Definition RETURN_ID : jsstring := lit "return_id".
Definition RETURN_SN : jsstring := lit "return_sn".

(** The accumulators of the matching [forEach]: matched results,
    unmatched keys, the cache map and what was logged. *)
Record scan := {
  hits : list object;
  misses : list value;
  memo : JsMap.t value;
  logged : list effect
}.

Definition match_one (crawledMap : JsMap.t value) (acc : scan) (sn : value) : scan :=
  if JsMap.has crawledMap sn then
    let returnId := JsMap.get crawledMap sn in
    {| hits := hits acc ++ [[(RETURN_SN, sn); (RETURN_ID, returnId)]];
       misses := misses acc;
       memo := JsMap.set (memo acc) sn returnId;
       logged := logged acc ++ [Log (MsgMatchHit sn returnId) Success] |}
  else
    {| hits := hits acc;
       misses := misses acc ++ [sn];
       memo := memo acc;
       logged := logged acc ++ [Log (MsgMatchMiss sn) Warning] |}.

(** [(matched / total * 100).toFixed(1)] *)
Definition rate_text (matchedCount total : nat) : num_text :=
  toFixed1 (num_mul (num_div (num_of_nat matchedCount) (num_of_nat total))
                    (num_of_nat 100)).

Definition report (ms : list object) (us : list value) (rate : num_text)
  : list effect :=
  [AddLogToUI MsgMatchDone Success;
   AddLogToUI (MsgMatchedCount (length ms)) Success;
   AddLogToUI (MsgUnmatchedCount (length us))
              (if Nat.ltb 0 (length us) then Warning else Info);
   AddLogToUI (MsgMatchRate rate) Info]
  ++ (if Nat.ltb 0 (length us) && Nat.leb (length us) 5
      then [AddLogToUI (MsgUnmatchedList us false) Warning]
      else if Nat.ltb 5 (length us)
           then [AddLogToUI (MsgUnmatchedList (firstn 5 us) true) Warning]
           else []).

(** [matchReturnSns(userSns, crawledMap)]; [None] is a null or undefined
    argument. *)
Definition matchReturnSns (userSns : option (list value))
           (crawledMap : option (JsMap.t value)) (c : cache)
  : outcome * list effect * cache :=
  match userSns with
  | None | Some [] =>
      ({| matched := []; unmatched := []; matchRate := S754_zero false |},
       showError MsgNothingToMatch, c)
  | Some sns =>
      match crawledMap with
      | None | Some [] =>
          ({| matched := []; unmatched := sns; matchRate := S754_zero false |},
           showError MsgNoOrderData, c)
      | Some cm =>
          let r := fold_left (match_one cm) sns
                     {| hits := []; misses := []; memo := snToIdMap c;
                        logged := [AddLogToUI MsgMatchStart Info] |} in
          let rate := rate_text (length (hits r)) (length sns) in
          ({| matched := hits r; unmatched := misses r;
              matchRate := parseFloat rate |},
           logged r ++ report (hits r) (misses r) rate,
           {| userInput := userInput c;
              matchedResults := hits r;
              unmatchedSns := misses r;
              snToIdMap := memo r |})
      end
  end.

(** The keys a call of [matchReturnSns] finds in the crawled map. *)
Definition newly_matched (userSns : option (list value))
           (crawledMap : option (JsMap.t value)) (k : value) : bool :=
  match userSns, crawledMap with
  | Some sns, Some cm => existsb (same_value_zero k) sns && JsMap.has cm k
  | _, _ => false
  end.

Definition crawled_id (crawledMap : option (JsMap.t value)) (k : value) : value :=
  match crawledMap with
  | Some cm => JsMap.get cm k
  | None => VUndefined
  end.

Definition hit (crawledMap : JsMap.t value) (sn : value) : object :=
  [(RETURN_SN, sn); (RETURN_ID, JsMap.get crawledMap sn)].

Definition getReturnId (c : cache) (returnSn : value) : value :=
  js_or (JsMap.get (snToIdMap c) returnSn) VNull.

Definition clearCache (c : cache) : list effect * cache :=
  ([AddLogToUI MsgMatchCacheCleared Info],
   {| userInput := []; matchedResults := []; unmatchedSns := [];
      snToIdMap := JsMap.clear (snToIdMap c) |}).

Definition getMatchedReturnIds (c : cache) : list value :=
  map (fun item => lookup item RETURN_ID) (matchedResults c).

Definition getMatchedResults (c : cache) : list object := matchedResults c.

Definition getUnmatchedSns (c : cache) : list value := unmatchedSns c.

(** [getCacheInfo]: the three counts and the rate shown, which is the text
    of [toFixed(1)] followed by a percent sign, or the text 0% ([None])
    when no input is cached. *)
Record cache_info := {
  userInputCount : nat;
  matchedCount : nat;
  unmatchedCount : nat;
  matchRateShown : option num_text
}.

Definition getCacheInfo (c : cache) : cache_info :=
  {| userInputCount := length (userInput c);
     matchedCount := length (matchedResults c);
     unmatchedCount := length (unmatchedSns c);
     matchRateShown :=
       if Nat.ltb 0 (length (userInput c))
       then Some (rate_text (length (matchedResults c)) (length (userInput c)))
       else None |}.

(** The keys a call is given, none for a null or undefined argument. *)
Definition keys_given (userSns : option (list value)) : list value :=
  match userSns with
  | Some sns => sns
  | None => []
  end.

End SNMatcher.

(** ** Enumeration order of own property keys

    [Object.entries] lists the keys that are array indices first, in
    ascending numeric order, then the other string keys in the order in
    which they were written. *)

Definition digit_of (c : code_unit) : option N :=
  if (N.leb 48 c && N.leb c 57)%bool then Some (c - 48)%N else None.

Fixpoint decimal_of (acc : N) (s : jsstring) : option N :=
  match s with
  | [] => Some acc
  | c :: s' =>
      match digit_of c with
      | Some d => decimal_of (10 * acc + d)%N s'
      | None => None
      end
  end.

(** The canonical numeric strings below 2^32 - 1. *)
Definition array_index (k : jsstring) : option N :=
  match k with
  | [] => None
  | c :: rest =>
      if (N.eqb c 48 && negb (Nat.eqb (length rest) 0))%bool then None
      else match decimal_of 0 k with
           | Some n => if (n <? 4294967295)%N then Some n else None
           | None => None
           end
  end.

Section Entries.

Variable A : Type.

Fixpoint insert_by_index (n : N) (kv : jsstring * A)
         (l : list (N * (jsstring * A))) : list (N * (jsstring * A)) :=
  match l with
  | [] => [(n, kv)]
  | (n', kv') :: l' =>
      if (n <? n')%N then (n, kv) :: l
      else (n', kv') :: insert_by_index n kv l'
  end.

Definition index_entries (o : list (jsstring * A)) : list (N * (jsstring * A)) :=
  fold_left (fun acc kv =>
               match array_index (fst kv) with
               | Some n => insert_by_index n kv acc
               | None => acc
               end) o [].

Definition object_entries (o : list (jsstring * A)) : list (jsstring * A) :=
  map snd (index_entries o) ++
  filter (fun kv => match array_index (fst kv) with
                    | None => true
                    | Some _ => false
                    end) o.

End Entries.

(** ** ShopeeUtils.generateCSV

    The CSV writer of utils.js reads the keys of the first record in the
    order of [object_entries]; it stands here, after that order. *)

Module ShopeeCsv.


Definition QUOTE : code_unit := 34%N.
Definition COMMA : code_unit := 44%N.
Definition BOM : code_unit := 65279%N.

(** The replacement of every quote by two quotes, as the source applies it
    to the text of a cell. *)
Definition double_quotes (s : jsstring) : jsstring :=
  flat_map (fun c => if N.eqb c QUOTE then [QUOTE; QUOTE] else [c]) s.

(** An own property, if the object has it. *)
Fixpoint own_prop (o : object) (name : jsstring) : option value :=
  match o with
  | [] => None
  | (k, v) :: o' => if jsstring_eqb k name then Some v else own_prop o' name
  end.

Section Csv.

(** The texts the source leaves to the language: [String(x)] of a number,
    [JSON.stringify(v)] of an object or an array, and, for a name that
    every object inherits (constructor, toString, ...), the text of that
    inherited member, which is what a row without such an own property
    shows under a header of that name. *)
Variable number_text : number -> jsstring.
Variable json_text : value -> jsstring.
Variable inherited_text : jsstring -> option jsstring.

(** The header cell: the name between quotes, as it is. *)
Definition header_cell (h : jsstring) : jsstring := [QUOTE] ++ h ++ [QUOTE].

(** The cell of a value: two quotes for null and undefined, else the text
    of the value between quotes, with its quotes doubled. *)
Definition value_cell (v : value) : jsstring :=
  match v with
  | VNull | VUndefined => [QUOTE; QUOTE]
  | VObj _ _ | VArr _ _ => [QUOTE] ++ double_quotes (json_text v) ++ [QUOTE]
  | VStr s => [QUOTE] ++ double_quotes s ++ [QUOTE]
  | VBool true => [QUOTE] ++ double_quotes (lit "true") ++ [QUOTE]
  | VBool false => [QUOTE] ++ double_quotes (lit "false") ++ [QUOTE]
  | VNum x => [QUOTE] ++ double_quotes (number_text x) ++ [QUOTE]
  end.

(** [row[header]] and its cell. *)
Definition row_cell (row : object) (header : jsstring) : jsstring :=
  match own_prop row header with
  | Some v => value_cell v
  | None =>
      match inherited_text header with
      | Some t => [QUOTE] ++ double_quotes t ++ [QUOTE]
      | None => [QUOTE; QUOTE]
      end
  end.

(** [generateCSV(data)] for an array of records; [None] is a null or
    undefined argument. *)
Definition generateCSV (data : option (list object)) : jsstring :=
  match data with
  | None | Some [] => []
  | Some ((first :: _) as rows) =>
      let headers := map fst (object_entries first) in
      BOM :: join_with [LF]
               (join_with [COMMA] (map header_cell headers) ::
                map (fun row => join_with [COMMA] (map (row_cell row) headers)) rows)
  end.

(** The text a cell stands for. *)
Definition value_text (v : value) : jsstring :=
  match v with
  | VNull | VUndefined => []
  | VObj _ _ | VArr _ _ => json_text v
  | VStr s => s
  | VBool true => lit "true"
  | VBool false => lit "false"
  | VNum x => number_text x
  end.

Definition row_text (row : object) (header : jsstring) : jsstring :=
  match own_prop row header with
  | Some v => value_text v
  | None =>
      match inherited_text header with
      | Some t => t
      | None => []
      end
  end.

End Csv.

(** A reader of CSV text in which every field is quoted: a field ends at
    the first quote that is not doubled, a comma continues the row, a line
    feed or the end of the text ends it. *)
Fixpoint read_quoted (s : jsstring) : option (jsstring * jsstring) :=
  match s with
  | [] => None
  | c :: s' =>
      if N.eqb c QUOTE then
        match s' with
        | [] => Some ([], [])
        | c' :: s'' =>
            if N.eqb c' QUOTE then
              match read_quoted s'' with
              | Some (field, rest) => Some (QUOTE :: field, rest)
              | None => None
              end
            else Some ([], s')
        end
      else
        match read_quoted s' with
        | Some (field, rest) => Some (c :: field, rest)
        | None => None
        end
  end.

(** The fields of a row and, if a line feed ended it, the text after. *)
Fixpoint read_row (fuel : nat) (s : jsstring)
  : option (list jsstring * option jsstring) :=
  match fuel, s with
  | S fuel', q :: s1 =>
      if N.eqb q QUOTE then
        match read_quoted s1 with
        | Some (field, []) => Some ([field], None)
        | Some (field, c :: rest) =>
            if N.eqb c COMMA then
              match read_row fuel' rest with
              | Some (fields, after) => Some (field :: fields, after)
              | None => None
              end
            else if N.eqb c LF then Some ([field], Some rest)
            else None
        | None => None
        end
      else None
  | _, _ => None
  end.

Fixpoint read_rows (fuel : nat) (s : jsstring) : option (list (list jsstring)) :=
  match fuel with
  | O => None
  | S fuel' =>
      match read_row (length s) s with
      | Some (fields, None) => Some [fields]
      | Some (fields, Some rest) =>
          match read_rows fuel' rest with
          | Some rows => Some (fields :: rows)
          | None => None
          end
      | None => None
      end
  end.

(** The rows of a text, after the byte order mark if there is one. *)
Definition read_csv (s : jsstring) : option (list (list jsstring)) :=
  match s with
  | [] => Some []
  | c :: s' => if N.eqb c BOM then read_rows (length s') s'
               else read_rows (length s) s
  end.

(** A field between quotes with its quotes doubled, and a row of such
    fields between commas: the text the reader takes back. *)
Definition quoted (t : jsstring) : jsstring :=
  [QUOTE] ++ double_quotes t ++ [QUOTE].

Definition quoted_row (texts : list jsstring) : jsstring :=
  join_with [COMMA] (map quoted texts).

(** A text without a quote. *)
Definition quote_free (s : jsstring) : bool :=
  forallb (fun c => negb (N.eqb c QUOTE)) s.


End ShopeeCsv.

(** A call either returns or throws a TypeError. *)
Inductive completion (A : Type) :=
| Normal (a : A)
| ThrowTypeError.

Arguments Normal {A} a.
Arguments ThrowTypeError {A}.

Definition is_string (v : value) : bool :=
  match v with VStr _ => true | _ => false end.

Definition throws (A : Type) (c : completion A) : bool :=
  match c with
  | ThrowTypeError => true
  | Normal _ => false
  end.

(** ** AddressExtractor *)

Module AddressExtractor.

Definition maxConcurrent : nat := 3.

Definition warehouseRules : list (jsstring * jsstring) :=
  [(lit "50121", lit "BI SMR");
   (lit "61254", lit "BI SBY");
   (lit "14460", lit "BI JKT")].

(** The labels and addresses the source writes in Chinese, as code units:
    unknown, other, window blocked, extraction timed out, address not
    found. *)
Definition LABEL_UNKNOWN : jsstring := [26410; 30693]%N.
Definition LABEL_OTHER : jsstring := [20854; 20182]%N.
Definition ADDR_BLOCKED : jsstring := [31383; 21475; 34987; 38459; 27490]%N.
Definition ADDR_TIMEOUT : jsstring := [25552; 21462; 36229; 26102]%N.
Definition ADDR_NOT_FOUND : jsstring := [26410; 25214; 21040; 22320; 22336]%N.

(** [address.includes(postalCode)] on a truthy address: the substring test
    of a string, the membership test of an array, and a TypeError on
    anything else, which has no such method. *)
Definition includes_call (address : value) (postalCode : jsstring)
  : completion bool :=
  match address with
  | VStr s => Normal (str_includes postalCode s)
  | VArr _ elems =>
      Normal (existsb (fun v => same_value_zero v (VStr postalCode)) elems)
  | _ => ThrowTypeError
  end.

Fixpoint scan_rules (rules : list (jsstring * jsstring)) (address : value)
  : completion jsstring :=
  match rules with
  | [] => Normal LABEL_OTHER
  | (postalCode, warehouseCode) :: rest =>
      match includes_call address postalCode with
      | Normal true => Normal warehouseCode
      | Normal false => scan_rules rest address
      | ThrowTypeError => ThrowTypeError
      end
  end.

Definition identifyWarehouse (address : value) : completion jsstring :=
  if negb (truthy address) then Normal LABEL_UNKNOWN
  else scan_rules (object_entries warehouseRules) address.

(** An address that carries two of the codes. *)
Definition two_code_address : jsstring := lit "Jl. Raya 50121, Blok 14460".

(** *** One call of [extractAddress] *)

Record result := {
  success : value;
  return_sn : value;
  return_id : value;
  address : value;
  warehouse : jsstring;
  timestamp : jsstring
}.

Inductive timer := NoTimer | Armed | Fired | Cleared.

(** The closure of one call: its arguments, its timer, whether its message
    listener is registered, its window, and the value its promise was
    resolved with, if any. *)
Record call := {
  returnSn : value;
  returnId : value;
  timeoutId : timer;
  listening : bool;
  window_closed : bool;
  settled : option result
}.

(** [cache]: shared by all calls. *)
Record cache := {
  results : JsMap.t result;
  processing : JsSet.t
}.

Record state := {
  store : cache;
  calls : list call
}.

Definition initial_state : state :=
  {| store := {| results := JsMap.empty result; processing := JsSet.empty |};
     calls := [] |}.

(** [resolve(r)]: only the first call settles the promise. *)
Definition resolve (c : call) (r : result) : call :=
  match settled c with
  | Some _ => c
  | None =>
      {| returnSn := returnSn c; returnId := returnId c;
         timeoutId := timeoutId c; listening := listening c;
         window_closed := window_closed c; settled := Some r |}
  end.

Definition close_window (c : call) : call :=
  {| returnSn := returnSn c; returnId := returnId c;
     timeoutId := timeoutId c; listening := listening c;
     window_closed := true; settled := settled c |}.

Definition set_timer (c : call) (t : timer) : call :=
  {| returnSn := returnSn c; returnId := returnId c;
     timeoutId := t; listening := listening c;
     window_closed := window_closed c; settled := settled c |}.

Definition remove_listener (c : call) : call :=
  {| returnSn := returnSn c; returnId := returnId c;
     timeoutId := timeoutId c; listening := false;
     window_closed := window_closed c; settled := settled c |}.

Definition failed (sn id : value) (why : jsstring) (now : jsstring) : result :=
  {| success := VBool false; return_sn := sn; return_id := id;
     address := VStr why; warehouse := LABEL_UNKNOWN; timestamp := now |}.

(** The executor of the promise: [opened] tells whether [window.open]
    returned a window. *)
Definition extractAddress (sn id : value) (opened : bool) (now : jsstring)
           (st : state) : state :=
  if opened then
    {| store := {| results := results (store st);
                   processing := JsSet.add (processing (store st)) id |};
       calls := calls st ++
                [{| returnSn := sn; returnId := id; timeoutId := Armed;
                    listening := true; window_closed := false;
                    settled := None |}] |}
  else
    {| store := store st;
       calls := calls st ++
                [{| returnSn := sn; returnId := id; timeoutId := NoTimer;
                    listening := false; window_closed := true;
                    settled := Some (failed sn id ADDR_BLOCKED now) |}] |}.

(** The callback of [setTimeout]. *)
Definition timeout_callback (now : jsstring) (sh : cache) (c : call)
  : cache * call :=
  if JsSet.has (processing sh) (returnId c) then
    ({| results := results sh;
        processing := JsSet.delete (processing sh) (returnId c) |},
     resolve (close_window c) (failed (returnSn c) (returnId c) ADDR_TIMEOUT now))
  else (sh, c).

Definition MESSAGE_TYPE : jsstring := lit "SHOPEE_ADDRESS_EXTRACTED".

(** [messageHandler(event)] with [data = event.data].  A TypeError raised
    by [identifyWarehouse] ends the handler where it stands. *)
Definition messageHandler (data : value) (now : jsstring) (sh : cache) (c : call)
  : cache * call :=
  if truthy data && strict_eq (prop data (lit "type")) (VStr MESSAGE_TYPE) then
    if strict_eq (prop data (lit "orderId")) (returnId c) then
      let c1 := remove_listener
                  (set_timer c (match timeoutId c with
                                | Armed => Cleared
                                | t => t
                                end)) in
      let sh1 := {| results := results sh;
                    processing := JsSet.delete (processing sh) (returnId c) |} in
      match identifyWarehouse (prop data (lit "address")) with
      | ThrowTypeError => (sh1, c1)
      | Normal wh =>
          let r := {| success := prop data (lit "success");
                      return_sn := returnSn c;
                      return_id := returnId c;
                      address := js_or (prop data (lit "address")) (VStr ADDR_NOT_FOUND);
                      warehouse := wh;
                      timestamp := now |} in
          ({| results := JsMap.set (results sh1) (returnSn c) r;
              processing := processing sh1 |},
           resolve (close_window c1) r)
      end
    else (sh, c)
  else (sh, c).

(** The message the order page posts back. *)
Definition address_message (id : value) (ok : value) (addr : value) : value :=
  VObj 0 [(lit "type", VStr MESSAGE_TYPE);
          (lit "orderId", id);
          (lit "success", ok);
          (lit "address", addr)].

(** *** The event loop seen from the extractor *)

Fixpoint replace_nth (i : nat) (c : call) (cs : list call) : list call :=
  match cs, i with
  | [], _ => []
  | _ :: cs', O => c :: cs'
  | c' :: cs', S i' => c' :: replace_nth i' c cs'
  end.

(** The timer of call [i] expires: its callback runs if the timer is still
    armed. *)
Definition fire_timeout (i : nat) (now : jsstring) (st : state) : state :=
  match nth_error (calls st) i with
  | Some c =>
      match timeoutId c with
      | Armed =>
          let '(sh, c') := timeout_callback now (store st) (set_timer c Fired) in
          {| store := sh; calls := replace_nth i c' (calls st) |}
      | _ => st
      end
  | None => st
  end.

(** A message event: every registered listener runs, in the order of
    registration. *)
Fixpoint dispatch (data : value) (now : jsstring) (sh : cache) (cs : list call)
  : cache * list call :=
  match cs with
  | [] => (sh, [])
  | c :: rest =>
      let '(sh1, c1) := if listening c then messageHandler data now sh c
                        else (sh, c) in
      let '(sh2, rest') := dispatch data now sh1 rest in
      (sh2, c1 :: rest')
  end.

Definition post_message (data : value) (now : jsstring) (st : state) : state :=
  let '(sh, cs) := dispatch data now (store st) (calls st) in
  {| store := sh; calls := cs |}.

Definition getCachedResult (st : state) (sn : value) : option result :=
  JsMap.find (results (store st)) sn.

Definition clearCache (st : state) : state :=
  {| store := {| results := JsMap.clear (results (store st));
                 processing := JsSet.clear (processing (store st)) |};
     calls := calls st |}.

(** *** [extractAddresses]: the pool *)

Definition RETURN_ID : jsstring := lit "return_id".
Definition RETURN_SN : jsstring := lit "return_sn".

(** The local variables of one batch: the queue, the calls whose [then]
    callback has not run yet (by call number), and the results pushed so
    far. *)
Record batch := {
  queue : list object;
  in_flight : list nat;
  collected : list result;
  ext : state
}.

(** What the event loop delivers, with the clock reading at that turn. *)
Inductive event :=
| TimerExpires (i : nat) (now : jsstring)
| MessageArrives (data : value) (now : jsstring).

Section Environment.

(** Whether the window of the [n]-th call opens. *)
Variable opens : nat -> bool.

(** The [while] of [processNext]. *)
Fixpoint processNext (now : jsstring) (q : list object) (fl : list nat)
         (out : list result) (st : state) : batch :=
  match q with
  | [] => {| queue := []; in_flight := fl; collected := out; ext := st |}
  | item :: rest =>
      if Nat.ltb (length fl) maxConcurrent then
        let i := length (calls st) in
        processNext now rest (fl ++ [i]) out
                    (extractAddress (lookup item RETURN_SN) (lookup item RETURN_ID)
                                    (opens i) now st)
      else {| queue := q; in_flight := fl; collected := out; ext := st |}
  end.

(** The first call in flight whose promise is settled. *)
Fixpoint first_settled (fl : list nat) (cs : list call) : option (nat * result) :=
  match fl with
  | [] => None
  | i :: fl' =>
      match nth_error cs i with
      | Some c =>
          match settled c with
          | Some r => Some (i, r)
          | None => first_settled fl' cs
          end
      | None => first_settled fl' cs
      end
  end.

(** The [then] callback of call [i]: the result is pushed, the call leaves
    the list of those in flight, and [processNext] runs again. *)
Definition then_callback (now : jsstring) (i : nat) (r : result) (b : batch) : batch :=
  processNext now (queue b)
              (filter (fun j => negb (Nat.eqb j i)) (in_flight b))
              (collected b ++ [r]) (ext b).

(** The callbacks of the settled promises run until none is left. *)
Fixpoint run_callbacks (fuel : nat) (now : jsstring) (b : batch) : batch :=
  match fuel with
  | O => b
  | S fuel' =>
      match first_settled (in_flight b) (calls (ext b)) with
      | Some (i, r) => run_callbacks fuel' now (then_callback now i r b)
      | None => b
      end
  end.

Definition settle (now : jsstring) (b : batch) : batch :=
  run_callbacks (length (queue b) + length (in_flight b)) now b.

(** The batch up to its first wait.  An empty list leaves nothing to wait
    for: the source returns no result at once, after an error notice.  The
    progress callback and the log lines only observe the results and are
    left out. *)
Definition extractAddresses (matchedResults : list object) (now : jsstring)
           (st : state) : batch :=
  settle now (processNext now matchedResults [] [] st).

(** One turn of the event loop. *)
Definition event_time (ev : event) : jsstring :=
  match ev with
  | TimerExpires _ now => now
  | MessageArrives _ now => now
  end.

Definition deliver (ev : event) (st : state) : state :=
  match ev with
  | TimerExpires i now => fire_timeout i now st
  | MessageArrives data now => post_message data now st
  end.

Definition batch_step (b : batch) (ev : event) : batch :=
  settle (event_time ev)
    {| queue := queue b; in_flight := in_flight b; collected := collected b;
       ext := deliver ev (ext b) |}.

Definition run (b : batch) (evs : list event) : batch :=
  fold_left batch_step evs b.

(** The promise of [extractAddresses] is fulfilled, with [collected], when
    nothing is queued and nothing is in flight. *)
Definition completed (b : batch) : bool :=
  match queue b, in_flight b with
  | [], [] => true
  | _, _ => false
  end.

End Environment.

(** The pair a call was started with, and the pair of a queued item. *)
Definition call_pair (c : call) : value * value := (returnSn c, returnId c).

Definition item_pair (item : object) : value * value :=
  (lookup item RETURN_SN, lookup item RETURN_ID).

(** What a batch of [items], started when the calls [before] had been made,
    keeps true at every turn of the event loop. *)
Definition pool_invariant (before : list (value * value)) (items : list object)
           (b : batch) : Prop :=
  length (in_flight b) <= maxConcurrent /\
  NoDup (in_flight b) /\
  Forall (fun i => i < length (calls (ext b))) (in_flight b) /\
  length (queue b) + length (in_flight b) + length (collected b) = length items /\
  map call_pair (calls (ext b)) ++ map item_pair (queue b) =
  before ++ map item_pair items.

Definition result_pair (r : result) : value * value := (return_sn r, return_id r).

(** A settled call was resolved with a result for its own pair. *)
Definition settled_for_own_pair (c : call) : Prop :=
  match settled c with
  | Some r => result_pair r = call_pair c
  | None => True
  end.

(** The invariant of the pool together with what its results are results
    of: every settled call holds a result for its own pair, and every
    result collected is for one of the pairs given. *)
Definition results_invariant (items : list object) (b : batch) : Prop :=
  pool_invariant [] items b /\
  Forall settled_for_own_pair (calls (ext b)) /\
  Forall (fun r => In (result_pair r) (map item_pair items)) (collected b).

(** The pair of call number [i], and the pairs a batch holds: those still
    queued, those of the calls in flight and those of the results
    collected. *)
Definition flight_pair (cs : list call) (i : nat) : value * value :=
  nth i (map call_pair cs) (VUndefined, VUndefined).

Definition pairs_held (b : batch) : list (value * value) :=
  map item_pair (queue b) ++
  map (flight_pair (calls (ext b))) (in_flight b) ++
  map result_pair (collected b).

(** Every call in flight, once settled, holds a result for its own pair. *)
Definition flights_for_own_pairs (cs : list call) (fl : list nat) : Prop :=
  Forall (fun i => forall c, nth_error cs i = Some c -> settled_for_own_pair c) fl.

(** A turn of the event loop leaves a call that held a result for its own
    pair, or none, in that condition. *)
Definition keeps_own_pair (c c' : call) : Prop :=
  settled_for_own_pair c -> settled_for_own_pair c'.

End AddressExtractor.

(* ================================================================== *)
(** * Part II. Properties                                              *)
(* ================================================================== *)

Unset Implicit Arguments.

(** ** Strings *)

Lemma jsstring_eqb_eq (s t : jsstring) : jsstring_eqb s t = true <-> s = t.
Proof.
  revert t; induction s as [|a s IH]; intros [|b t]; simpl; split;
    try congruence; try reflexivity.
  - intros H. apply andb_true_iff in H as [Hab Hst].
    apply N.eqb_eq in Hab. apply IH in Hst. now subst.
  - intros H. injection H as -> ->. rewrite N.eqb_refl. now apply IH.
Qed.

Lemma jsstring_eqb_refl (s : jsstring) : jsstring_eqb s s = true.
Proof. now apply jsstring_eqb_eq. Qed.

Lemma starts_with_spec (pat s : jsstring) :
  starts_with pat s = true <-> exists after, s = pat ++ after.
Proof.
  revert s; induction pat as [|p pat IH]; intros s; simpl.
  - split; [intros _; now exists s | reflexivity].
  - destruct s as [|c s].
    + split; [discriminate | intros [after H]; discriminate].
    + rewrite andb_true_iff, N.eqb_eq, IH. split.
      * intros [-> [after ->]]. now exists after.
      * intros [after H]. injection H as -> ->. split; [reflexivity | now exists after].
Qed.

Lemma str_includes_spec (pat s : jsstring) :
  str_includes pat s = true <-> occurs_in pat s.
Proof.
  unfold occurs_in. induction s as [|c s IH].
  - simpl. rewrite orb_false_r, starts_with_spec. split.
    + intros [after H]. now exists [], after.
    + intros [before [after H]]. destruct before; [now exists after | discriminate].
  - cbn [str_includes]. rewrite orb_true_iff, starts_with_spec, IH. split.
    + intros [[after H] | [before [after H]]].
      * now exists [], after.
      * exists (c :: before), after. simpl. now rewrite H.
    + intros [[|b before] [after H]].
      * left. now exists after.
      * right. injection H as -> ->. now exists before, after.
Qed.

(** ** The warehouse classifier *)

Lemma object_entries_warehouseRules :
  object_entries AddressExtractor.warehouseRules =
  [(lit "14460", lit "BI JKT"); (lit "50121", lit "BI SMR"); (lit "61254", lit "BI SBY")].
Proof. reflexivity. Qed.

Lemma identifyWarehouse_string (s : jsstring) :
  AddressExtractor.identifyWarehouse (VStr s) =
  Normal (match s with
          | [] => AddressExtractor.LABEL_UNKNOWN
          | _ => if str_includes (lit "14460") s then lit "BI JKT"
                 else if str_includes (lit "50121") s then lit "BI SMR"
                 else if str_includes (lit "61254") s then lit "BI SBY"
                 else AddressExtractor.LABEL_OTHER
          end).
Proof.
  destruct s as [|c s]; [reflexivity|].
  unfold AddressExtractor.identifyWarehouse.
  rewrite object_entries_warehouseRules.
  cbn [truthy negb AddressExtractor.scan_rules AddressExtractor.includes_call].
  destruct (str_includes (lit "14460") (c :: s)); [reflexivity|].
  destruct (str_includes (lit "50121") (c :: s)); [reflexivity|].
  destruct (str_includes (lit "61254") (c :: s)); reflexivity.
Qed.

(** C2, as the code has it.  The rule object is enumerated with its
    integer-like keys in ascending numeric order, so an address is tested
    for 14460 first, then 50121, then 61254, and the first code it contains
    decides; an address with none of them gets the label for other, and an
    empty, null or undefined address the label for unknown. *)
Theorem identifyWarehouse_by_ascending_code :
  (forall s : jsstring,
      AddressExtractor.identifyWarehouse (VStr s) =
      Normal (match s with
              | [] => AddressExtractor.LABEL_UNKNOWN
              | _ => if str_includes (lit "14460") s then lit "BI JKT"
                     else if str_includes (lit "50121") s then lit "BI SMR"
                     else if str_includes (lit "61254") s then lit "BI SBY"
                     else AddressExtractor.LABEL_OTHER
              end)) /\
  AddressExtractor.identifyWarehouse VNull = Normal AddressExtractor.LABEL_UNKNOWN /\
  AddressExtractor.identifyWarehouse VUndefined = Normal AddressExtractor.LABEL_UNKNOWN.
Proof.
  split; [exact identifyWarehouse_string | split; reflexivity].
Qed.

(** C2 as stated fails: this address contains 50121, the first code of the
    table as it is written, and is classified BI JKT. *)
Lemma identifyWarehouse_50121_not_SMR :
  str_includes (lit "50121") AddressExtractor.two_code_address = true /\
  hd_error AddressExtractor.warehouseRules = Some (lit "50121", lit "BI SMR") /\
  AddressExtractor.identifyWarehouse (VStr AddressExtractor.two_code_address) =
    Normal (lit "BI JKT") /\
  AddressExtractor.identifyWarehouse (VStr AddressExtractor.two_code_address) <>
    Normal (lit "BI SMR").
Proof.
  repeat split; try reflexivity.
  vm_compute. discriminate.
Qed.

(** ** Strict equality against the constants the filter uses *)

Lemma strict_eq_null (v : value) : strict_eq v VNull = true <-> v = VNull.
Proof. destruct v; simpl; split; congruence. Qed.

Lemma strict_eq_undefined (v : value) :
  strict_eq v VUndefined = true <-> v = VUndefined.
Proof. destruct v; simpl; split; congruence. Qed.

Lemma strict_eq_empty_str (v : value) :
  strict_eq v empty_str = true <-> v = VStr [].
Proof.
  destruct v as [| | | |s| |]; simpl; split; try congruence.
  - destruct s; [reflexivity | discriminate].
  - intros H. injection H as ->. reflexivity.
Qed.

Lemma strict_eq_zero (v : value) :
  strict_eq v zero = true <-> exists sign, v = VNum (S754_zero sign).
Proof.
  destruct v as [| | |x| | |]; simpl; split;
    try discriminate; try (intros [sg H]; discriminate).
  - destruct x as [sg|sg| |sg m e]; intros H.
    + now exists sg.
    + destruct sg; discriminate.
    + discriminate.
    + destruct sg; discriminate.
  - intros [sg H]. injection H as ->. reflexivity.
Qed.

Lemma field_ok_usable (v : value) :
  OrderCrawler.field_ok v = true <-> usable v.
Proof.
  unfold OrderCrawler.field_ok, usable.
  rewrite !andb_true_iff, !negb_true_iff.
  rewrite <- !not_true_iff_false.
  rewrite strict_eq_null, strict_eq_undefined, strict_eq_empty_str, strict_eq_zero.
  split.
  - intros [[[H1 H2] H3] H4]. repeat split; try assumption.
    intros sg E. apply H4. now exists sg.
  - intros (H1 & H2 & H3 & H4). repeat split; try assumption.
    intros [sg E]. exact (H4 sg E).
Qed.

(** ** The record filter *)

Lemma valid_item_spec (item : value) :
  OrderCrawler.valid_item item = true <->
  truthy item = true /\
  usable (prop item OrderCrawler.RETURN_ID) /\
  usable (prop item OrderCrawler.RETURN_SN).
Proof.
  unfold OrderCrawler.valid_item.
  rewrite !andb_true_iff, !field_ok_usable. tauto.
Qed.

Lemma lookup_keep_id (item : value) :
  lookup (OrderCrawler.keep_fields item) OrderCrawler.RETURN_ID =
  prop item OrderCrawler.RETURN_ID.
Proof. reflexivity. Qed.

Lemma lookup_keep_sn (item : value) :
  lookup (OrderCrawler.keep_fields item) OrderCrawler.RETURN_SN =
  prop item OrderCrawler.RETURN_SN.
Proof. reflexivity. Qed.

Lemma filter_length_split (A : Type) (f : A -> bool) (l : list A) :
  length l = length (filter f l) + length (filter (fun x => negb (f x)) l).
Proof.
  induction l as [|x l IH]; simpl; [reflexivity|].
  destruct (f x); simpl; lia.
Qed.

(** C4.  A non-array input gives an empty output.  On an array, every
    output record has exactly the two fields return_id and return_sn, both
    usable (not null, not undefined, not the empty string, not zero); the
    output is the image, in order, of the input items that are truthy and
    have both fields usable; and the count that is reported, when it is
    positive, is the input length minus the output length, which is the
    number of items dropped. *)
Theorem filterValidData_keeps_usable_records :
  (forall dataArray : value,
      is_array dataArray = false ->
      OrderCrawler.filterValidData dataArray = ([], [])) /\
  (forall (ref : nat) (items : list value),
      let out := fst (OrderCrawler.filterValidData (VArr ref items)) in
      let reported := snd (OrderCrawler.filterValidData (VArr ref items)) in
      let dropped := length (filter (fun i => negb (OrderCrawler.valid_item i)) items) in
      Forall (fun o => map fst o = [OrderCrawler.RETURN_ID; OrderCrawler.RETURN_SN] /\
                       usable (lookup o OrderCrawler.RETURN_ID) /\
                       usable (lookup o OrderCrawler.RETURN_SN)) out /\
      out = map OrderCrawler.keep_fields (filter OrderCrawler.valid_item items) /\
      length items - length out = dropped /\
      length out <= length items /\
      reported = match dropped with
                 | O => []
                 | S _ => [AddLogToUI (MsgFilteredOut (length items - length out)) Warning]
                 end).
Proof.
  split.
  - intros [| | | | |ref items|] H; try reflexivity. discriminate.
  - intros ref items. cbv zeta. cbn [OrderCrawler.filterValidData fst snd].
    set (kept := filter OrderCrawler.valid_item items).
    pose proof (filter_length_split _ OrderCrawler.valid_item items) as Hlen.
    fold kept in Hlen.
    repeat split.
    + apply Forall_forall. intros o Ho.
      apply in_map_iff in Ho as [item [<- Hin]].
      apply filter_In in Hin as [_ Hv].
      apply valid_item_spec in Hv as (_ & Hid & Hsn).
      rewrite lookup_keep_id, lookup_keep_sn.
      split; [reflexivity | split; assumption].
    + rewrite length_map. lia.
    + rewrite length_map. lia.
    + unfold OrderCrawler.filteredCount. rewrite length_map.
      destruct (length (filter _ items)) as [|d] eqn:Hd.
      * replace (Z.of_nat (length items) - Z.of_nat (length kept))%Z with 0%Z by lia.
        reflexivity.
      * destruct (0 <? _)%Z eqn:Hpos; [|apply Z.ltb_ge in Hpos; lia].
        do 3 f_equal. lia.
Qed.

Lemma filterValidData_keeps_usable_records_witness :
  OrderCrawler.filterValidData (VStr (lit "not an array")) = ([], []).
Proof.
  apply (proj1 filterValidData_keeps_usable_records). reflexivity.
Defined.

(** ** SameValueZero is an equivalence *)

Lemma num_svz_refl (x : number) : num_same_value_zero x x = true.
Proof.
  destruct x as [sg|sg| |sg m e]; simpl; try reflexivity.
  - now destruct sg.
  - rewrite Pos.eqb_refl, Z.eqb_refl. now destruct sg.
Qed.

Lemma num_svz_eq (x y : number) :
  num_same_value_zero x y = true ->
  x = y \/ (num_is_zero x = true /\ num_is_zero y = true).
Proof.
  destruct x as [sg|sg| |sg m e], y as [sg'|sg'| |sg' m' e']; simpl;
    try discriminate; auto.
  - intros H. apply Bool.eqb_prop in H. left. now subst.
  - rewrite !andb_true_iff, Pos.eqb_eq, Z.eqb_eq.
    intros [[H1 H2] H3]. apply Bool.eqb_prop in H1. left. now subst.
Qed.

Lemma num_svz_zero_l (x y : number) :
  num_is_zero x = true -> num_same_value_zero x y = num_is_zero y.
Proof. destruct x; try discriminate. intros _. now destruct y. Qed.

Lemma num_svz_zero_r (x y : number) :
  num_is_zero y = true -> num_same_value_zero x y = num_is_zero x.
Proof. destruct y; try discriminate. intros _. now destruct x. Qed.

Lemma svz_refl (a : value) : same_value_zero a a = true.
Proof.
  destruct a; simpl; auto using num_svz_refl, jsstring_eqb_refl, Nat.eqb_refl.
  now destruct b.
Qed.

(** Two keys the map identifies are told apart by no third key. *)
Lemma svz_congr_l (a b c : value) :
  same_value_zero a b = true -> same_value_zero a c = same_value_zero b c.
Proof.
  destruct a, b; simpl; try discriminate; try reflexivity; intros H.
  - apply Bool.eqb_prop in H. now subst.
  - destruct c; try reflexivity. simpl.
    apply num_svz_eq in H as [->|[Hx Hy]]; [reflexivity|].
    now rewrite (num_svz_zero_l _ _ Hx), (num_svz_zero_l _ _ Hy).
  - apply jsstring_eqb_eq in H. now subst.
  - apply Nat.eqb_eq in H. now subst.
  - apply Nat.eqb_eq in H. now subst.
Qed.

Lemma svz_sym (a b : value) : same_value_zero a b = same_value_zero b a.
Proof.
  destruct (same_value_zero a b) eqn:H.
  - now rewrite <- (svz_congr_l _ _ a H), svz_refl.
  - destruct (same_value_zero b a) eqn:H'; [|reflexivity].
    now rewrite <- (svz_congr_l _ _ b H'), svz_refl in H.
Qed.

Lemma svz_congr_r (a b c : value) :
  same_value_zero a b = true -> same_value_zero c a = same_value_zero c b.
Proof. intros H. rewrite (svz_sym c a), (svz_sym c b). now apply svz_congr_l. Qed.

(** ** Maps *)

Section MapFacts.

Variable V : Type.
Implicit Types (m : JsMap.t V) (k : value) (v : V).

Lemma has_find m k : JsMap.has m k = match JsMap.find m k with
                                     | Some _ => true
                                     | None => false
                                     end.
Proof.
  induction m as [|[k' v'] m IH]; simpl; [reflexivity|].
  destruct (same_value_zero k' k); simpl; auto.
Qed.

Lemma find_set m k v k' :
  JsMap.find (JsMap.set m k v) k' =
  if same_value_zero k k' then Some v else JsMap.find m k'.
Proof.
  induction m as [|[k0 v0] m IH]; simpl; [reflexivity|].
  destruct (same_value_zero k0 k) eqn:E; simpl.
  - rewrite (svz_congr_l _ _ k' E). now destruct (same_value_zero k k').
  - rewrite IH. destruct (same_value_zero k0 k') eqn:E0; [|reflexivity].
    destruct (same_value_zero k k') eqn:E1; [|reflexivity].
    rewrite (svz_congr_r _ _ k0 E1), E0 in E. discriminate.
Qed.

Lemma has_set m k v k' :
  JsMap.has (JsMap.set m k v) k' = same_value_zero k k' || JsMap.has m k'.
Proof.
  rewrite !has_find, find_set. now destruct (same_value_zero k k').
Qed.

Lemma size_set m k v :
  JsMap.size (JsMap.set m k v) =
  if JsMap.has m k then JsMap.size m else S (JsMap.size m).
Proof.
  unfold JsMap.size. induction m as [|[k0 v0] m IH]; simpl; [reflexivity|].
  destruct (same_value_zero k0 k); simpl; [reflexivity|].
  rewrite IH. now destruct (JsMap.has m k).
Qed.

End MapFacts.

Lemma get_set (m : JsMap.t value) (k v k' : value) :
  JsMap.get (JsMap.set m k v) k' =
  if same_value_zero k k' then v else JsMap.get m k'.
Proof.
  unfold JsMap.get. rewrite find_set. now destruct (same_value_zero k k').
Qed.

(** ** The key index *)

Lemma existsb_svz_congr (a b : value) (l : list value) :
  same_value_zero a b = true ->
  existsb (same_value_zero a) l = existsb (same_value_zero b) l.
Proof.
  intros H. induction l as [|c l IH]; simpl; [reflexivity|].
  now rewrite IH, (svz_congr_l _ _ c H).
Qed.

Lemma distinct_keys_snoc (l : list value) (x : value) :
  length (OrderCrawler.distinct_keys (l ++ [x])) =
  if existsb (same_value_zero x) l
  then length (OrderCrawler.distinct_keys l)
  else S (length (OrderCrawler.distinct_keys l)).
Proof.
  induction l as [|k l IH]; simpl; [reflexivity|].
  rewrite existsb_app. simpl. rewrite orb_false_r.
  rewrite (svz_sym x k).
  destruct (same_value_zero k x) eqn:E; simpl.
  - rewrite orb_true_r, IH, (existsb_svz_congr _ _ l E).
    now destruct (existsb (same_value_zero x) l).
  - rewrite orb_false_r.
    destruct (existsb (same_value_zero k) l); simpl; rewrite IH;
      now destruct (existsb (same_value_zero x) l).
Qed.

(** [distinct_keys] keeps a representative of every key, and no two of the
    keys it keeps are the same. *)
Lemma distinct_keys_complete (l : list value) (k : value) :
  existsb (same_value_zero k) (OrderCrawler.distinct_keys l) =
  existsb (same_value_zero k) l.
Proof.
  induction l as [|x l IH]; simpl; [reflexivity|].
  destruct (existsb (same_value_zero x) l) eqn:E; simpl.
  - rewrite IH. destruct (same_value_zero k x) eqn:Ek; [|reflexivity].
    simpl. now rewrite (existsb_svz_congr _ _ l Ek).
  - now rewrite IH.
Qed.

Lemma distinct_keys_distinct (l : list value) :
  pairwise_distinct (OrderCrawler.distinct_keys l).
Proof.
  induction l as [|x l IH]; simpl; [constructor|].
  destruct (existsb (same_value_zero x) l) eqn:E; [assumption|].
  constructor; [|assumption]. now rewrite distinct_keys_complete.
Qed.

Lemma find_fold_index (l : list object) (m : JsMap.t value) (k : value) :
  JsMap.find (fold_left OrderCrawler.index_step l m) k =
  match OrderCrawler.last_id_of l k with
  | Some id => Some id
  | None => JsMap.find m k
  end.
Proof.
  revert m; induction l as [|item l IH]; intros m; simpl; [reflexivity|].
  rewrite IH. destruct (OrderCrawler.last_id_of l k); [reflexivity|].
  unfold OrderCrawler.index_step. rewrite find_set.
  now destruct (same_value_zero _ k).
Qed.

Lemma has_fold_index (l : list object) (k : value) :
  JsMap.has (fold_left OrderCrawler.index_step l []) k =
  existsb (same_value_zero k) (map (fun item => lookup item OrderCrawler.RETURN_SN) l).
Proof.
  induction l as [|item l IH] using rev_ind; [reflexivity|].
  rewrite fold_left_app. simpl. unfold OrderCrawler.index_step at 1.
  rewrite has_set, IH, map_app, existsb_app. simpl.
  rewrite orb_false_r, svz_sym. apply orb_comm.
Qed.

Lemma size_fold_index (l : list object) :
  JsMap.size (fold_left OrderCrawler.index_step l []) =
  length (OrderCrawler.distinct_keys
            (map (fun item => lookup item OrderCrawler.RETURN_SN) l)).
Proof.
  induction l as [|item l IH] using rev_ind; [reflexivity|].
  rewrite fold_left_app, map_app. simpl. unfold OrderCrawler.index_step at 1.
  rewrite size_set, has_fold_index, distinct_keys_snoc, IH. reflexivity.
Qed.

(** The index after any rebuild, whatever it held before. *)
Lemma build_index_spec (m : JsMap.t value) (filtered : list object) :
  (forall k, JsMap.get (OrderCrawler.build_index m filtered) k =
             match OrderCrawler.last_id_of filtered k with
             | Some id => id
             | None => VUndefined
             end) /\
  JsMap.size (OrderCrawler.build_index m filtered) =
  length (OrderCrawler.distinct_keys
            (map (fun item => lookup item OrderCrawler.RETURN_SN) filtered)).
Proof.
  unfold OrderCrawler.build_index, JsMap.clear. split.
  - intros k. unfold JsMap.get.
    rewrite find_fold_index. now destruct (OrderCrawler.last_id_of filtered k).
  - apply size_fold_index.
Qed.

(** C6.  When a crawl completes, the index of the new cache answers every
    key with the id of the last filtered record that has this key
    (undefined when there is none), and has as many entries as the filtered
    records have distinct keys. *)
Theorem crawlOrders_index_last_write_wins :
  forall (Srv : Type) (respond : Srv -> OrderCrawler.request -> Srv * OrderCrawler.http_result)
         (fuel : nat) (dateRange : option value) (now : number) (sv : Srv)
         (c c' : OrderCrawler.cache) (filtered : list object),
    OrderCrawler.crawlOrders respond fuel dateRange now sv c = Some (inr (filtered, c')) ->
    OrderCrawler.filteredData c' = filtered /\
    (forall k, JsMap.get (OrderCrawler.snToIdMap c') k =
               match OrderCrawler.last_id_of filtered k with
               | Some id => id
               | None => VUndefined
               end) /\
    JsMap.size (OrderCrawler.snToIdMap c') =
    length (OrderCrawler.distinct_keys
              (map (fun item => lookup item OrderCrawler.RETURN_SN) filtered)).
Proof.
  intros Srv respond fuel dateRange now sv c c' filtered H.
  unfold OrderCrawler.crawlOrders in H.
  destruct dateRange as [range|]; [|discriminate].
  destruct (OrderCrawler.crawl_loop respond range fuel sv _) as [[ls n]|];
    [|discriminate].
  injection H as <- <-. cbn [OrderCrawler.filteredData OrderCrawler.snToIdMap].
  split; [reflexivity|]. apply build_index_spec.
Qed.

Lemma crawlOrders_index_last_write_wins_witness :
  exists filtered c',
    OrderCrawler.crawlOrders OrderCrawler.sample_server 5 (Some VNull)
      (num_of_nat 0) 0 OrderCrawler.empty_cache
    = Some (inr (filtered, c')) /\
    length filtered = 3 /\
    JsMap.get (OrderCrawler.snToIdMap c') (VStr (lit "SN001")) = VNum (num_of_nat 503) /\
    JsMap.size (OrderCrawler.snToIdMap c') = 2.
Proof.
  eexists _, _. split; [vm_compute; reflexivity|].
  split; [reflexivity|].
  match goal with
  | |- JsMap.get (OrderCrawler.snToIdMap ?c) _ = _ /\ _ =>
      destruct (crawlOrders_index_last_write_wins
                  nat OrderCrawler.sample_server 5 (Some VNull) (num_of_nat 0) 0
                  OrderCrawler.empty_cache c _ eq_refl) as (_ & Hget & Hsize)
  end.
  split; [rewrite Hget | rewrite Hsize]; reflexivity.
Defined.

(** ** The page loop *)

Lemma fetchPageData_resolved (data d : value) :
  OrderCrawler.fetchPageData (OrderCrawler.Loaded (Some data)) = inr d -> d = data.
Proof.
  destruct data; cbn [OrderCrawler.fetchPageData]; try discriminate;
    try (now intros [= <-]);
    destruct (_ && _); try discriminate; now intros [= <-].
Qed.

Lemma has_more_false_of_field (data : value) :
  strict_eq (prop (prop data (lit "pagination_info")) (lit "has_more")) (VBool false) = true ->
  OrderCrawler.has_more_false data = true.
Proof.
  intros Hmore.
  unfold OrderCrawler.has_more_false, OrderCrawler.pagination_info.
  destruct data as [| | | | | |ref o]; try discriminate.
  cbn [prop truthy andb] in *.
  destruct (lookup o (lit "pagination_info")) as [| | | | | |ref' o'];
    try discriminate.
  cbn [truthy prop andb] in *. exact Hmore.
Qed.

Lemma ends_crawl_breaks (r : OrderCrawler.http_result) (ls : OrderCrawler.loop_state) :
  OrderCrawler.ends_crawl r -> exists ls', OrderCrawler.page_step ls r = OrderCrawler.Break ls'.
Proof.
  intros H. unfold OrderCrawler.page_step.
  destruct H as [| |data Ht Hz|data Hempty|data Hmore].
  - eexists; reflexivity.
  - eexists; reflexivity.
  - assert (exists e, OrderCrawler.fetchPageData (OrderCrawler.Loaded (Some data)) = inl e)
      as [e ->].
    { destruct data; try discriminate.
      cbn [OrderCrawler.fetchPageData]. rewrite Ht, Hz. eexists; reflexivity. }
    eexists; reflexivity.
  - destruct (OrderCrawler.fetchPageData (OrderCrawler.Loaded (Some data)))
      as [e|d] eqn:F; [eexists; reflexivity|].
    apply fetchPageData_resolved in F as ->.
    destruct (OrderCrawler.response_data data) as [| | | | |ref [|x records]|];
      try (eexists; reflexivity). contradiction.
  - destruct (OrderCrawler.fetchPageData (OrderCrawler.Loaded (Some data)))
      as [e|d] eqn:F; [eexists; reflexivity|].
    apply fetchPageData_resolved in F as ->.
    rewrite (has_more_false_of_field _ Hmore).
    destruct (OrderCrawler.response_data data) as [| | | | |ref [|x records]|];
      eexists; reflexivity.
Qed.

Lemma page_step_continue (ls ls' : OrderCrawler.loop_state) (data : value) :
  OrderCrawler.page_step ls (OrderCrawler.Loaded (Some data)) = OrderCrawler.Continue ls' ->
  ls' = OrderCrawler.advance ls data.
Proof.
  unfold OrderCrawler.page_step, OrderCrawler.advance.
  destruct (OrderCrawler.fetchPageData (OrderCrawler.Loaded (Some data)))
    as [e|d] eqn:F; [discriminate|].
  apply fetchPageData_resolved in F as ->.
  destruct (OrderCrawler.response_data data) as [| | | | |ref [|x records]|];
    try discriminate.
  destruct (OrderCrawler.has_more_false data); [discriminate|].
  now intros [= <-].
Qed.

(** C9.  If one of the first [n] answers of the server to the loop ends a
    crawl, the loop stops after at most [n] requests, whatever fuel it is
    given beyond [n]; and every answer that ends a crawl (a transport
    failure, an unparsable body, an error envelope, a page without records,
    a page with has_more false) leaves the loop at once. *)
Theorem crawl_loop_terminates :
  forall (Srv : Type) (respond : Srv -> OrderCrawler.request -> Srv * OrderCrawler.http_result)
         (dateRange : value),
    (forall (n : nat) (sv : Srv) (ls : OrderCrawler.loop_state),
        OrderCrawler.stops_within respond dateRange n sv ls ->
        exists ls' k,
          k <= n /\
          forall fuel, n <= fuel ->
            OrderCrawler.crawl_loop respond dateRange fuel sv ls = Some (ls', k)) /\
    (forall (r : OrderCrawler.http_result) (sv sv' : Srv) (ls : OrderCrawler.loop_state) (fuel : nat),
        OrderCrawler.ends_crawl r ->
        truthy (OrderCrawler.hasMoreData ls) = true ->
        respond sv (OrderCrawler.next_request dateRange ls) = (sv', r) ->
        exists ls', OrderCrawler.crawl_loop respond dateRange (S fuel) sv ls = Some (ls', 1)).
Proof.
  intros Srv respond dateRange. split.
  - induction n as [|n IH]; intros sv ls H; [contradiction|].
    cbn [OrderCrawler.stops_within] in H.
    destruct (truthy (OrderCrawler.hasMoreData ls)) eqn:Hmore.
    2:{ exists ls, 0. split; [lia|]. intros fuel _.
        destruct fuel; simpl; now rewrite Hmore. }
    destruct (respond sv (OrderCrawler.next_request dateRange ls)) as [sv' r] eqn:R.
    destruct (OrderCrawler.page_step ls r) as [ls1|ls1] eqn:P.
    + assert (OrderCrawler.stops_within respond dateRange n sv' ls1) as Hn.
      { destruct H as [H|H].
        - destruct (ends_crawl_breaks r ls H) as [ls2 E]. congruence.
        - destruct r as [|[data|]]; try contradiction.
          now rewrite (page_step_continue _ _ _ P). }
      destruct (IH sv' ls1 Hn) as (ls' & k & Hk & Hrun).
      exists ls', (S k). split; [lia|]. intros [|fuel] Hf; [lia|].
      cbn [OrderCrawler.crawl_loop]. rewrite Hmore, R, P, (Hrun fuel); [reflexivity|lia].
    + exists ls1, 1. split; [lia|]. intros [|fuel] Hf; [lia|].
      cbn [OrderCrawler.crawl_loop]. now rewrite Hmore, R, P.
  - intros r sv sv' ls fuel Hr Hmore R.
    destruct (ends_crawl_breaks r ls Hr) as [ls' E]. exists ls'.
    cbn [OrderCrawler.crawl_loop]. now rewrite Hmore, R, E.
Qed.

Lemma crawl_loop_terminates_witness :
  (exists ls' k,
      k <= 3 /\
      OrderCrawler.crawl_loop OrderCrawler.sample_server VNull 7 0
        OrderCrawler.initial_loop_state = Some (ls', k)) /\
  (exists ls',
      OrderCrawler.crawl_loop OrderCrawler.failing_server VNull 1 tt
        OrderCrawler.initial_loop_state = Some (ls', 1)).
Proof.
  split.
  - destruct (proj1 (crawl_loop_terminates nat OrderCrawler.sample_server VNull)
                3 0 OrderCrawler.initial_loop_state) as (ls' & k & Hk & Hrun).
    + cbn. right. right. left. apply OrderCrawler.ends_empty_page. exact I.
    + exists ls', k. split; [exact Hk|]. apply Hrun. lia.
  - apply (proj2 (crawl_loop_terminates unit OrderCrawler.failing_server VNull)
             OrderCrawler.NetworkFailure tt tt OrderCrawler.initial_loop_state 0).
    + apply OrderCrawler.ends_transport.
    + reflexivity.
    + reflexivity.
Defined.

(** ** The key parser *)

Lemma rep_upto_at_end (cls : code_unit -> bool) (n : nat) (s : jsstring) :
  ShopeeUtils.rep_upto cls n ShopeeUtils.at_end s =
  Nat.leb (length s) n && forallb cls s.
Proof.
  revert s; induction n as [|n IH]; intros [|c s]; simpl; try reflexivity.
  rewrite IH, orb_false_r.
  destruct (cls c), (Nat.leb (length s) n); reflexivity.
Qed.

Lemma rep_exact_then_upto (cls : code_unit -> bool) (n m : nat) (s : jsstring) :
  ShopeeUtils.rep_exact cls n (ShopeeUtils.rep_upto cls m ShopeeUtils.at_end) s =
  Nat.leb n (length s) && Nat.leb (length s) (n + m) && forallb cls s.
Proof.
  revert s; induction n as [|n IH]; intros s.
  - cbn [ShopeeUtils.rep_exact]. now rewrite rep_upto_at_end.
  - destruct s as [|c s]; [reflexivity|].
    cbn [ShopeeUtils.rep_exact]. rewrite IH. simpl.
    destruct (cls c), (Nat.leb n (length s)), (Nat.leb (length s) (n + m));
      reflexivity.
Qed.

(** The pattern accepts exactly the well-formed keys. *)
Lemma validateReturnSn_spec (sn : jsstring) :
  ShopeeUtils.validateReturnSn sn = ShopeeUtils.well_formed_key sn.
Proof. unfold ShopeeUtils.validateReturnSn. apply rep_exact_then_upto. Qed.

Lemma fold_sort_line (lines valid invalid : list jsstring) :
  fold_left SNMatcher.sort_line lines (valid, invalid) =
  (valid ++ filter ShopeeUtils.validateReturnSn lines,
   invalid ++ filter (fun l => negb (ShopeeUtils.validateReturnSn l)) lines).
Proof.
  revert valid invalid; induction lines as [|l lines IH]; intros valid invalid.
  - simpl. now rewrite !app_nil_r.
  - simpl. unfold SNMatcher.sort_line at 2.
    destruct (ShopeeUtils.validateReturnSn l); simpl; rewrite IH;
      now rewrite <- !app_assoc.
Qed.

(** ** Cutting and trimming *)

Lemma split_on_no_separator (sep : code_unit) (s : jsstring) :
  forallb (fun c => negb (N.eqb c sep)) s = true -> split_on sep s = [s].
Proof.
  induction s as [|c s IH]; [reflexivity|]. cbn.
  rewrite andb_true_iff, negb_true_iff. intros [-> H]. now rewrite (IH H).
Qed.

Lemma split_on_app (sep : code_unit) (s rest : jsstring) :
  forallb (fun c => negb (N.eqb c sep)) s = true ->
  split_on sep (s ++ sep :: rest) = s :: split_on sep rest.
Proof.
  induction s as [|c s IH]; cbn.
  - now rewrite N.eqb_refl.
  - rewrite andb_true_iff, negb_true_iff. intros [-> H]. now rewrite (IH H).
Qed.

Lemma split_on_join (sep : code_unit) (l : list jsstring) :
  l <> [] ->
  Forall (fun s => forallb (fun c => negb (N.eqb c sep)) s = true) l ->
  split_on sep (join_with [sep] l) = l.
Proof.
  induction l as [|x l IH]; [contradiction|]. intros _ H.
  inversion H as [|? ? Hx Hl]; subst. cbn [join_with].
  destruct l as [|y l].
  - now apply split_on_no_separator.
  - cbn [app]. rewrite split_on_app; [|exact Hx]. f_equal.
    apply IH; [discriminate|exact Hl].
Qed.

Lemma split_on_pieces_free (sep : code_unit) (s : jsstring) :
  Forall (fun p => forallb (fun c => negb (N.eqb c sep)) p = true) (split_on sep s).
Proof.
  induction s as [|c s IH]; cbn; [repeat constructor|].
  destruct (N.eqb c sep) eqn:E; [now constructor|].
  destruct (split_on sep s) as [|p rest]; [repeat constructor; cbn; now rewrite E|].
  inversion IH; subst. constructor; [|assumption]. cbn. now rewrite E.
Qed.

Lemma trim_start_before_solid (u w : jsstring) (x : code_unit) :
  is_js_space x = false -> trim_start (u ++ x :: w) = trim_start u ++ x :: w.
Proof.
  intros Hx. induction u as [|c u IH]; cbn; [now rewrite Hx|].
  now destruct (is_js_space c).
Qed.

Lemma trim_end_after_solid (a m : jsstring) (x : code_unit) :
  is_js_space x = false -> trim_end (a ++ x :: m) = a ++ x :: trim_end m.
Proof.
  intros Hx. unfold trim_end.
  rewrite rev_app_distr. cbn [rev]. rewrite <- app_assoc. cbn [app].
  rewrite trim_start_before_solid; [|exact Hx].
  rewrite rev_app_distr. cbn [rev]. rewrite rev_involutive, <- app_assoc.
  reflexivity.
Qed.

Lemma split_on_cons (sep : code_unit) (s : jsstring) :
  exists p rest, split_on sep s = p :: rest.
Proof.
  destruct s as [|c s]; cbn; [now eexists _, _|].
  destruct (N.eqb c sep); [now eexists _, _|].
  destruct (split_on sep s); now eexists _, _.
Qed.

Lemma join_split_on (sep : code_unit) (s : jsstring) :
  join_with [sep] (split_on sep s) = s.
Proof.
  induction s as [|c s IH]; [reflexivity|]. cbn [split_on].
  destruct (split_on_cons sep s) as (p & rest & E). rewrite E in *.
  destruct (N.eqb_spec c sep) as [->|_].
  - change (join_with [sep] ([] :: p :: rest))
      with (sep :: join_with [sep] (p :: rest)).
    now rewrite IH.
  - destruct rest as [|r rs].
    + cbn [join_with] in *. now rewrite IH.
    + change (join_with [sep] ((c :: p) :: r :: rs))
        with (c :: (p ++ [sep] ++ join_with [sep] (r :: rs))).
      change (join_with [sep] (p :: r :: rs))
        with (p ++ [sep] ++ join_with [sep] (r :: rs)) in IH.
      now rewrite IH.
Qed.

Lemma cut_at_split_on (sep : code_unit) (s : jsstring) :
  cut_at sep s (split_on sep s).
Proof.
  split; [|split].
  - destruct (split_on_cons sep s) as (p & rest & ->). discriminate.
  - apply join_split_on.
  - exact (split_on_pieces_free sep s).
Qed.

Lemma cut_at_unique (sep : code_unit) (s : jsstring) (pieces : list jsstring) :
  cut_at sep s pieces -> pieces = split_on sep s.
Proof.
  intros (Hne & <- & Hfree). symmetry. now apply split_on_join.
Qed.

Lemma forallb_rev (A : Type) (f : A -> bool) (l : list A) :
  forallb f (rev l) = forallb f l.
Proof.
  induction l as [|x l IH]; [reflexivity|]. cbn.
  rewrite forallb_app, IH. cbn. rewrite andb_true_r. apply andb_comm.
Qed.

Lemma trim_start_spaces (s : jsstring) :
  forallb is_js_space s = true -> trim_start s = [].
Proof.
  induction s as [|c s IH]; [reflexivity|]. cbn.
  rewrite andb_true_iff. intros [-> H]. exact (IH H).
Qed.

Lemma trim_start_split (s : jsstring) :
  exists before,
    s = before ++ trim_start s /\
    forallb is_js_space before = true /\
    match trim_start s with
    | [] => True
    | c :: _ => is_js_space c = false
    end.
Proof.
  induction s as [|c s IH]; [now exists []|].
  cbn [trim_start]. destruct (is_js_space c) eqn:E.
  - destruct IH as (b & Hs & Hb & Hh). exists (c :: b). cbn. rewrite E, Hb.
    repeat split; [now rewrite <- Hs | exact Hh].
  - exists []. cbn. now rewrite E.
Qed.

Lemma trimmed_of_trim (s : jsstring) : trimmed_of s (trim s).
Proof.
  unfold trim, trim_end.
  destruct (trim_start_split s) as (b & Hs & Hb & Hh).
  destruct (trim_start_split (rev (trim_start s))) as (a & Ht & Ha & Hu).
  set (t := trim_start s) in *. set (u := trim_start (rev t)) in *.
  assert (Et : t = rev u ++ rev a).
  { rewrite <- rev_app_distr, <- Ht. now rewrite rev_involutive. }
  exists b, (rev a). repeat split.
  - now rewrite <- Et.
  - exact Hb.
  - now rewrite forallb_rev.
  - unfold solid_ends. rewrite rev_involutive. apply andb_true_iff. split.
    + destruct (rev u) as [|x r]; [reflexivity|].
      rewrite Et in Hh. cbn in Hh. now rewrite Hh.
    + destruct u as [|y r]; [reflexivity|]. now rewrite Hu.
Qed.

Lemma trimmed_of_unique (line core : jsstring) :
  trimmed_of line core -> core = trim line.
Proof.
  intros (b & a & -> & Hb & Ha & Hsolid).
  unfold solid_ends in Hsolid. apply andb_true_iff in Hsolid.
  destruct Hsolid as [Hhd Hlast]. unfold trim.
  destruct core as [|x w].
  - cbn [app]. rewrite trim_start_spaces; [reflexivity|].
    rewrite forallb_app, Hb, Ha. reflexivity.
  - apply negb_true_iff in Hhd. cbn [app].
    rewrite trim_start_before_solid by exact Hhd.
    rewrite (trim_start_spaces b Hb). cbn [app].
    destruct (rev (x :: w)) as [|y r] eqn:Er.
    { apply (f_equal (@length _)) in Er. rewrite length_rev in Er.
      discriminate. }
    apply negb_true_iff in Hlast.
    assert (Ec : x :: w = rev r ++ [y]).
    { rewrite <- (rev_involutive (x :: w)), Er. reflexivity. }
    change (x :: w ++ a) with ((x :: w) ++ a).
    rewrite Ec, <- app_assoc. cbn [app].
    rewrite trim_end_after_solid by exact Hlast.
    unfold trim_end. rewrite trim_start_spaces; [reflexivity|].
    now rewrite forallb_rev.
Qed.



Lemma existsb_alert_showError (n : notice) : existsb is_alert (showError n) = true.
Proof. reflexivity. Qed.



(** The examples of the format rule. *)
Lemma validateReturnSn_boundaries :
  ShopeeUtils.validateReturnSn (lit "ABC123") = true /\
  ShopeeUtils.validateReturnSn (lit "ab") = false /\
  ShopeeUtils.validateReturnSn (repeat 65%N 21) = false /\
  ShopeeUtils.validateReturnSn (repeat 65%N 3) = true /\
  ShopeeUtils.validateReturnSn (repeat 65%N 20) = true /\
  ShopeeUtils.validateReturnSn (repeat 65%N 2) = false.
Proof. repeat split; reflexivity. Qed.

(** ** The matcher *)

Lemma find_congr (V : Type) (m : JsMap.t V) (k k' : value) :
  same_value_zero k k' = true -> JsMap.find m k = JsMap.find m k'.
Proof.
  intros H. induction m as [|[k0 v0] m IH]; simpl; [reflexivity|].
  now rewrite (svz_congr_r _ _ k0 H), IH.
Qed.

Lemma has_congr (V : Type) (m : JsMap.t V) (k k' : value) :
  same_value_zero k k' = true -> JsMap.has m k = JsMap.has m k'.
Proof. intros H. now rewrite !has_find, (find_congr _ m _ _ H). Qed.

Lemma fold_match_hits (cm : JsMap.t value) (sns : list value) (acc : SNMatcher.scan) :
  SNMatcher.hits (fold_left (SNMatcher.match_one cm) sns acc) =
  SNMatcher.hits acc ++ map (SNMatcher.hit cm) (filter (JsMap.has cm) sns).
Proof.
  revert acc; induction sns as [|sn sns IH]; intros acc; simpl.
  - now rewrite app_nil_r.
  - rewrite IH. unfold SNMatcher.match_one.
    destruct (JsMap.has cm sn); simpl; [|reflexivity].
    now rewrite <- app_assoc.
Qed.

Lemma fold_match_misses (cm : JsMap.t value) (sns : list value) (acc : SNMatcher.scan) :
  SNMatcher.misses (fold_left (SNMatcher.match_one cm) sns acc) =
  SNMatcher.misses acc ++ filter (fun sn => negb (JsMap.has cm sn)) sns.
Proof.
  revert acc; induction sns as [|sn sns IH]; intros acc; simpl.
  - now rewrite app_nil_r.
  - rewrite IH. unfold SNMatcher.match_one.
    destruct (JsMap.has cm sn); simpl; [reflexivity|].
    now rewrite <- app_assoc.
Qed.

Lemma fold_match_quiet (cm : JsMap.t value) (sns : list value) (acc : SNMatcher.scan) :
  existsb is_alert (SNMatcher.logged (fold_left (SNMatcher.match_one cm) sns acc)) =
  existsb is_alert (SNMatcher.logged acc).
Proof.
  revert acc; induction sns as [|sn sns IH]; intros acc; simpl; [reflexivity|].
  rewrite IH. unfold SNMatcher.match_one.
  destruct (JsMap.has cm sn); simpl; rewrite existsb_app; simpl;
    now rewrite orb_false_r.
Qed.

Lemma fold_match_memo (cm : JsMap.t value) (sns : list value)
      (acc : SNMatcher.scan) (k : value) :
  JsMap.find (SNMatcher.memo (fold_left (SNMatcher.match_one cm) sns acc)) k =
  if existsb (same_value_zero k) sns && JsMap.has cm k
  then JsMap.find cm k
  else JsMap.find (SNMatcher.memo acc) k.
Proof.
  revert acc; induction sns as [|sn sns IH]; intros acc; [reflexivity|].
  cbn [fold_left existsb]. rewrite IH. unfold SNMatcher.match_one.
  destruct (same_value_zero k sn) eqn:E.
  - rewrite (has_congr _ cm _ _ E). cbn [orb].
    destruct (JsMap.has cm sn) eqn:Hsn; cbn [SNMatcher.memo].
    + rewrite andb_true_r.
      destruct (existsb (same_value_zero k) sns); [reflexivity|].
      rewrite find_set, <- (svz_sym k sn), E.
      unfold JsMap.get. rewrite (find_congr _ cm _ _ E).
      rewrite has_find in Hsn. now destruct (JsMap.find cm sn).
    + now rewrite andb_false_r.
  - cbn [orb]. destruct (JsMap.has cm sn) eqn:Hsn; cbn [SNMatcher.memo];
      [|reflexivity].
    rewrite find_set, <- (svz_sym k sn), E. reflexivity.
Qed.

(** ** Rounding to one decimal place *)

Lemma exact_fraction_den_pos (m : positive) (e : Z) :
  (0 < snd (exact_fraction m e))%Z.
Proof.
  destruct e; simpl; try lia; apply Z.pow_pos_nonneg; lia.
Qed.

Lemma half_up_is_nearest (a d : Z) :
  (0 < d)%Z ->
  let n := ((2 * a + d) / (2 * d))%Z in
  forall j : Z,
    (Z.abs (n * d - a) <= Z.abs (j * d - a))%Z /\
    (Z.abs (j * d - a) = Z.abs (n * d - a) -> j <= n)%Z.
Proof.
  intros Hd n j.
  assert (2 * d * n <= 2 * a + d < 2 * d * n + 2 * d)%Z as [Hlo Hhi].
  { pose proof (Z.div_mod (2 * a + d) (2 * d) ltac:(lia)) as Hdm.
    pose proof (Z.mod_pos_bound (2 * a + d) (2 * d) ltac:(lia)) as Hmod.
    fold n in Hdm. lia. }
  destruct (Z.lt_trichotomy j n) as [Hj|[->|Hj]].
  - assert (j * d <= n * d - d)%Z by nia. split; lia.
  - split; lia.
  - assert (n * d + d <= j * d)%Z by nia. split; lia.
Qed.

(** [toFixed(1)] rounds to one decimal place. *)
Lemma toFixed1_rounds (x : number) : rounds_to_one_decimal x (toFixed1 x).
Proof.
  destruct x as [sg|sg| |sg m e]; try reflexivity.
  unfold rounds_to_one_decimal, toFixed1.
  pose proof (exact_fraction_den_pos m e) as Hden.
  destruct (exact_fraction m e) as [num den]. cbn [snd] in Hden.
  destruct (10 ^ 21 * den <=? num)%Z; [reflexivity|].
  eexists. split; [reflexivity|].
  exact (half_up_is_nearest (10 * num) den Hden).
Qed.

(** C3.  A non-empty key list matched against an absent or empty index
    raises the error alert that asks for a crawl first, returns no match
    and every key as unmatched, and leaves the cache as it was; a match
    against a non-empty index raises no alert, whatever it finds. *)
Theorem match_on_empty_index_raises_error :
  forall (sns : list value) (crawledMap : option (JsMap.t value)) (c : SNMatcher.cache),
    sns <> [] ->
    match crawledMap with
    | None => True
    | Some cm => JsMap.size cm = 0
    end ->
    SNMatcher.matchReturnSns (Some sns) crawledMap c =
    ({| SNMatcher.matched := []; SNMatcher.unmatched := sns;
        SNMatcher.matchRate := S754_zero false |},
     showError MsgNoOrderData, c) /\
    existsb is_alert (showError MsgNoOrderData) = true /\
    forall cm : JsMap.t value,
      JsMap.size cm <> 0 ->
      existsb is_alert (snd (fst (SNMatcher.matchReturnSns (Some sns) (Some cm) c))) = false.
Proof.
  intros sns crawledMap c Hsns Hempty.
  destruct sns as [|sn sns]; [contradiction|].
  split; [|split; [reflexivity|]].
  - destruct crawledMap as [[|kv cm]|]; [reflexivity|discriminate|reflexivity].
  - intros [|kv cm] Hcm; [contradiction|].
    cbn [SNMatcher.matchReturnSns fst snd].
    rewrite existsb_app, fold_match_quiet. cbn [SNMatcher.logged existsb is_alert orb].
    unfold SNMatcher.report. rewrite existsb_app. cbn [existsb is_alert orb].
    destruct (_ && _); [reflexivity|]. now destruct (Nat.ltb 5 _).
Qed.

Lemma match_on_empty_index_raises_error_witness :
  SNMatcher.matchReturnSns (Some [VStr (lit "ABC123")]) (Some (JsMap.empty value))
    {| SNMatcher.userInput := []; SNMatcher.matchedResults := [];
       SNMatcher.unmatchedSns := []; SNMatcher.snToIdMap := JsMap.empty value |} =
  ({| SNMatcher.matched := []; SNMatcher.unmatched := [VStr (lit "ABC123")];
      SNMatcher.matchRate := S754_zero false |},
   showError MsgNoOrderData,
   {| SNMatcher.userInput := []; SNMatcher.matchedResults := [];
      SNMatcher.unmatchedSns := []; SNMatcher.snToIdMap := JsMap.empty value |}).
Proof.
  apply (match_on_empty_index_raises_error
           [VStr (lit "ABC123")] (Some (JsMap.empty value))).
  - discriminate.
  - reflexivity.
Defined.

(** C5.  On a non-empty key list and a non-empty index, the matched
    results are the input keys the index has, in input order, each with
    the id the index gives it; the unmatched keys are the other input
    keys, in input order; and the match rate is the number read back from
    the text that rounds matched / total * 100, computed in binary64, to
    one decimal place. *)
Theorem matchReturnSns_partitions_in_input_order :
  forall (sns : list value) (cm : JsMap.t value) (c : SNMatcher.cache),
    sns <> [] ->
    cm <> [] ->
    let r := fst (fst (SNMatcher.matchReturnSns (Some sns) (Some cm) c)) in
    SNMatcher.matched r = map (SNMatcher.hit cm) (filter (JsMap.has cm) sns) /\
    SNMatcher.unmatched r = filter (fun sn => negb (JsMap.has cm sn)) sns /\
    exists txt : num_text,
      rounds_to_one_decimal
        (num_mul (num_div (num_of_nat (length (SNMatcher.matched r)))
                          (num_of_nat (length sns)))
                 (num_of_nat 100)) txt /\
      SNMatcher.matchRate r = parseFloat txt.
Proof.
  intros [|sn sns] [|kv cm] c Hsns Hcm; try contradiction.
  cbn [SNMatcher.matchReturnSns fst SNMatcher.matched SNMatcher.unmatched
       SNMatcher.matchRate].
  rewrite fold_match_hits, fold_match_misses. cbn [SNMatcher.hits SNMatcher.misses app].
  split; [reflexivity|]. split; [reflexivity|].
  eexists. split; [apply toFixed1_rounds|reflexivity].
Qed.

Lemma matchReturnSns_partitions_in_input_order_witness :
  let sns := map (fun s => VStr (lit s)) ["SN003"; "SN001"; "SN009"; "SN002"]%string in
  let cm := [(VStr (lit "SN001"), VNum (num_of_nat 501));
             (VStr (lit "SN002"), VNum (num_of_nat 502));
             (VStr (lit "SN003"), VNum (num_of_nat 503))] in
  let r := fst (fst (SNMatcher.matchReturnSns (Some sns) (Some cm)
                       {| SNMatcher.userInput := []; SNMatcher.matchedResults := [];
                          SNMatcher.unmatchedSns := [];
                          SNMatcher.snToIdMap := JsMap.empty value |})) in
  SNMatcher.matched r = map (SNMatcher.hit cm) (filter (JsMap.has cm) sns) /\
  map (fun o => lookup o SNMatcher.RETURN_SN) (SNMatcher.matched r) =
    map (fun s => VStr (lit s)) ["SN003"; "SN001"; "SN002"]%string /\
  SNMatcher.unmatched r = [VStr (lit "SN009")] /\
  SNMatcher.matchRate r = num_of_nat 75.
Proof.
  cbv zeta.
  split; [|repeat split; vm_compute; reflexivity].
  apply matchReturnSns_partitions_in_input_order; discriminate.
Defined.

(** The rate of the end-to-end example: 7 keys of 10 give 70; and the
    texts 0.1 and 33.3 read back as the nearest binary64 numbers. *)
Lemma rate_7_of_10 :
  SNMatcher.rate_text 7 10 = TxtFixed1 false 700 /\
  parseFloat (SNMatcher.rate_text 7 10) = num_of_nat 70 /\
  SNMatcher.rate_text 1 3 = TxtFixed1 false 333 /\
  parseFloat (TxtFixed1 false 1) = S754_finite false 7205759403792794 (-56) /\
  parseFloat (TxtFixed1 false 333) = num_div (num_of_nat 333) (num_of_nat 10) /\
  SNMatcher.rate_text 1 16 = TxtFixed1 false 63.
Proof. vm_compute. repeat split; reflexivity. Qed.

(** The rounding is that of the binary64 number the expression computes:
    23 / 80 * 100 is computed just below 28.75 and its text is 28.7. *)
Lemma rate_23_of_80 :
  num_mul (num_div (num_of_nat 23) (num_of_nat 80)) (num_of_nat 100) =
    S754_finite false 8092405580431359 (-48) /\
  (8092405580431359 * 4 < 115 * 2 ^ 48)%Z /\
  SNMatcher.rate_text 23 80 = TxtFixed1 false 287.
Proof. vm_compute. repeat split; reflexivity. Qed.

(** No key of the input is in a non-empty index: the outcome has no match
    and a rate of 0, as on the error path, but no alert is raised and the
    cache takes the new lists. *)
Lemma zero_hits_is_not_an_error :
  let cm := [(VStr (lit "SN001"), VStr (lit "501"))] in
  let c0 := {| SNMatcher.userInput := []; SNMatcher.matchedResults := [];
               SNMatcher.unmatchedSns := [];
               SNMatcher.snToIdMap := JsMap.empty value |} in
  let r := SNMatcher.matchReturnSns (Some [VStr (lit "SN404")]) (Some cm) c0 in
  fst (fst r) = {| SNMatcher.matched := []; SNMatcher.unmatched := [VStr (lit "SN404")];
                   SNMatcher.matchRate := S754_zero false |} /\
  existsb is_alert (snd (fst r)) = false /\
  SNMatcher.unmatchedSns (snd r) = [VStr (lit "SN404")].
Proof. vm_compute. repeat split; reflexivity. Qed.

(** C10.  [parseUserInput] does not touch the cache map.  A call of
    [matchReturnSns] leaves in the cache map every key it held, sets the
    keys matched by this call to the ids the crawled map gives them and
    leaves every other entry as it was, so that [getReturnId] still
    answers with the ids of earlier calls; after [clearCache],
    [getReturnId] answers null on every key. *)
Theorem matcher_cache_is_cumulative :
  forall (userSns : option (list value)) (crawledMap : option (JsMap.t value))
         (c : SNMatcher.cache) (k : value) (input : value),
    let c' := snd (SNMatcher.matchReturnSns userSns crawledMap c) in
    SNMatcher.snToIdMap (snd (SNMatcher.parseUserInput input c)) = SNMatcher.snToIdMap c /\
    JsMap.has (SNMatcher.snToIdMap c') k =
      SNMatcher.newly_matched userSns crawledMap k || JsMap.has (SNMatcher.snToIdMap c) k /\
    JsMap.get (SNMatcher.snToIdMap c') k =
      (if SNMatcher.newly_matched userSns crawledMap k
       then SNMatcher.crawled_id crawledMap k
       else JsMap.get (SNMatcher.snToIdMap c) k) /\
    SNMatcher.getReturnId c' k =
      (if SNMatcher.newly_matched userSns crawledMap k
       then js_or (SNMatcher.crawled_id crawledMap k) VNull
       else SNMatcher.getReturnId c k) /\
    SNMatcher.getReturnId (snd (SNMatcher.clearCache c')) k = VNull.
Proof.
  intros userSns crawledMap c k input. cbv zeta.
  split.
  { unfold SNMatcher.parseUserInput.
    destruct input as [| | | |[|ch s]| |]; try reflexivity.
    destruct (fold_left _ _ _) as [valid invalid].
    now destruct (Nat.eqb (length valid) 0). }
  assert (JsMap.find (SNMatcher.snToIdMap
                        (snd (SNMatcher.matchReturnSns userSns crawledMap c))) k =
          if SNMatcher.newly_matched userSns crawledMap k
          then match crawledMap with
               | Some cm => JsMap.find cm k
               | None => None
               end
          else JsMap.find (SNMatcher.snToIdMap c) k) as Hfind.
  { destruct userSns as [[|sn sns]|]; destruct crawledMap as [[|kv cm]|];
      cbn [SNMatcher.matchReturnSns snd SNMatcher.snToIdMap
           SNMatcher.newly_matched JsMap.has];
      rewrite ?fold_match_memo, ?andb_false_r; reflexivity. }
  assert (SNMatcher.newly_matched userSns crawledMap k = true ->
          exists cm v, crawledMap = Some cm /\ JsMap.find cm k = Some v) as Hnew.
  { unfold SNMatcher.newly_matched.
    destruct userSns as [sns|]; [|discriminate].
    destruct crawledMap as [cm|]; [|discriminate].
    rewrite andb_true_iff, has_find. intros [_ H].
    destruct (JsMap.find cm k) as [v|] eqn:F; [|discriminate].
    exists cm, v. now split. }
  unfold SNMatcher.getReturnId, JsMap.get. rewrite has_find, Hfind.
  destruct (SNMatcher.newly_matched userSns crawledMap k) eqn:E.
  - destruct (Hnew eq_refl) as (cm & v & -> & Hv).
    cbn [SNMatcher.crawled_id]. unfold JsMap.get. rewrite Hv.
    repeat split; reflexivity.
  - rewrite has_find. cbn [orb]. repeat split; reflexivity.
Qed.

(** Two calls in a row: the second call matches another key, and the id
    recorded by the first is still returned. *)
Lemma getReturnId_after_two_matches :
  let cm := [(VStr (lit "SN001"), VStr (lit "501"));
             (VStr (lit "SN002"), VStr (lit "502"))] in
  let c0 := {| SNMatcher.userInput := []; SNMatcher.matchedResults := [];
               SNMatcher.unmatchedSns := [];
               SNMatcher.snToIdMap := JsMap.empty value |} in
  let c1 := snd (SNMatcher.matchReturnSns (Some [VStr (lit "SN001")]) (Some cm) c0) in
  let c2 := snd (SNMatcher.matchReturnSns (Some [VStr (lit "SN002")]) (Some cm) c1) in
  SNMatcher.getReturnId c2 (VStr (lit "SN001")) = VStr (lit "501") /\
  SNMatcher.getReturnId c2 (VStr (lit "SN002")) = VStr (lit "502") /\
  SNMatcher.matchedResults c2 = [SNMatcher.hit cm (VStr (lit "SN002"))].
Proof. repeat split; reflexivity. Qed.

(** ** One call of the extractor: timeout and message *)

Ltac js_eval :=
  repeat (progress
            (cbn -[AddressExtractor.failed AddressExtractor.identifyWarehouse js_or];
             rewrite ?jsstring_eqb_refl)).

Lemma identifyWarehouse_object (ref : nat) (fields : object) :
  AddressExtractor.identifyWarehouse (VObj ref fields) = ThrowTypeError.
Proof. reflexivity. Qed.

(** The promise of a call is settled once: no handler changes the value
    it was resolved with. *)
Lemma resolve_once (c : AddressExtractor.call) (r r' : AddressExtractor.result) :
  AddressExtractor.settled c = Some r ->
  AddressExtractor.settled (AddressExtractor.resolve c r') = Some r.
Proof. intros H. unfold AddressExtractor.resolve. now rewrite H. Qed.

Lemma messageHandler_keeps_settled (data : value) (now : jsstring)
      (sh : AddressExtractor.cache) (c : AddressExtractor.call)
      (r : AddressExtractor.result) :
  AddressExtractor.settled c = Some r ->
  AddressExtractor.settled (snd (AddressExtractor.messageHandler data now sh c)) = Some r.
Proof.
  intros H. unfold AddressExtractor.messageHandler.
  destruct (_ && _); [|exact H].
  destruct (strict_eq _ _); [|exact H].
  destruct (AddressExtractor.identifyWarehouse _); cbn [snd].
  - apply resolve_once. exact H.
  - exact H.
Qed.

Lemma timeout_callback_keeps_settled (now : jsstring)
      (sh : AddressExtractor.cache) (c : AddressExtractor.call)
      (r : AddressExtractor.result) :
  AddressExtractor.settled c = Some r ->
  AddressExtractor.settled (snd (AddressExtractor.timeout_callback now sh c)) = Some r.
Proof.
  intros H. unfold AddressExtractor.timeout_callback.
  destruct (JsSet.has _ _); cbn [snd]; [|exact H].
  apply resolve_once. exact H.
Qed.

Lemma dispatch_keeps_settled (data : value) (now : jsstring)
      (cs : list AddressExtractor.call) (sh : AddressExtractor.cache)
      (i : nat) (c : AddressExtractor.call) (r : AddressExtractor.result) :
  nth_error cs i = Some c ->
  AddressExtractor.settled c = Some r ->
  exists c', nth_error (snd (AddressExtractor.dispatch data now sh cs)) i = Some c' /\
             AddressExtractor.settled c' = Some r.
Proof.
  revert sh i; induction cs as [|c0 cs IH]; intros sh i Hi Hr.
  - destruct i; discriminate.
  - cbn [AddressExtractor.dispatch].
    destruct (if AddressExtractor.listening c0
              then AddressExtractor.messageHandler data now sh c0
              else (sh, c0)) as [sh1 c1] eqn:E1.
    destruct (AddressExtractor.dispatch data now sh1 cs) as [sh2 rest] eqn:E2.
    destruct i as [|i]; cbn [nth_error snd] in *.
    + injection Hi as ->. exists c1. split; [reflexivity|].
      destruct (AddressExtractor.listening c); [|now injection E1 as _ <-].
      pose proof (messageHandler_keeps_settled data now sh c r Hr) as H.
      now rewrite E1 in H.
    + destruct (IH sh1 i Hi Hr) as (c' & Hn & Hs).
      rewrite E2 in Hn. now exists c'.
Qed.

Lemma nth_error_replace_nth (cs : list AddressExtractor.call) (i j : nat)
      (c : AddressExtractor.call) :
  nth_error (AddressExtractor.replace_nth i c cs) j =
  if Nat.eqb i j then match nth_error cs j with
                      | Some _ => Some c
                      | None => None
                      end
  else nth_error cs j.
Proof.
  revert i j; induction cs as [|c0 cs IH]; intros i j.
  - destruct i, j; cbn; try reflexivity. now destruct (Nat.eqb i j).
  - destruct i, j; cbn; try reflexivity. apply IH.
Qed.

Lemma settled_is_final (ev : AddressExtractor.event) (st : AddressExtractor.state)
      (i : nat) (c : AddressExtractor.call) (r : AddressExtractor.result) :
  nth_error (AddressExtractor.calls st) i = Some c ->
  AddressExtractor.settled c = Some r ->
  exists c', nth_error (AddressExtractor.calls (AddressExtractor.deliver ev st)) i = Some c' /\
             AddressExtractor.settled c' = Some r.
Proof.
  intros Hi Hr. destruct ev as [j now|data now]; cbn [AddressExtractor.deliver].
  - unfold AddressExtractor.fire_timeout.
    destruct (nth_error (AddressExtractor.calls st) j) as [cj|] eqn:Hj;
      [|now exists c].
    destruct (AddressExtractor.timeoutId cj) eqn:Ht; try (now exists c).
    destruct (AddressExtractor.timeout_callback now (AddressExtractor.store st)
                (AddressExtractor.set_timer cj AddressExtractor.Fired))
      as [sh c'] eqn:E.
    cbn [AddressExtractor.calls]. rewrite nth_error_replace_nth.
    destruct (Nat.eqb j i) eqn:Eji; [|now exists c].
    apply Nat.eqb_eq in Eji as ->. rewrite Hi. exists c'. split; [reflexivity|].
    rewrite Hj in Hi. injection Hi as ->.
    pose proof (timeout_callback_keeps_settled now (AddressExtractor.store st)
                  (AddressExtractor.set_timer c AddressExtractor.Fired) r Hr) as H.
    now rewrite E in H.
  - unfold AddressExtractor.post_message.
    destruct (dispatch_keeps_settled data now (AddressExtractor.calls st)
                (AddressExtractor.store st) i c r Hi Hr) as (c' & Hn & Hs).
    destruct (AddressExtractor.dispatch data now _ _) as [sh cs].
    now exists c'.
Qed.

(** A window that does not open and a timer that expires while the id is
    still being processed settle the promise with a failed result. *)
Lemma blocked_window_is_captured (sn id : value) (now : jsstring)
      (st : AddressExtractor.state) :
  AddressExtractor.calls (AddressExtractor.extractAddress sn id false now st) =
  AddressExtractor.calls st ++
  [{| AddressExtractor.returnSn := sn;
      AddressExtractor.returnId := id;
      AddressExtractor.timeoutId := AddressExtractor.NoTimer;
      AddressExtractor.listening := false;
      AddressExtractor.window_closed := true;
      AddressExtractor.settled :=
        Some (AddressExtractor.failed sn id AddressExtractor.ADDR_BLOCKED now) |}] /\
  AddressExtractor.store (AddressExtractor.extractAddress sn id false now st) =
  AddressExtractor.store st.
Proof. split; reflexivity. Qed.

Lemma timeout_is_captured (now : jsstring) (sh : AddressExtractor.cache)
      (c : AddressExtractor.call) :
  JsSet.has (AddressExtractor.processing sh) (AddressExtractor.returnId c) = true ->
  AddressExtractor.settled c = None ->
  AddressExtractor.settled (snd (AddressExtractor.timeout_callback now sh c)) =
  Some (AddressExtractor.failed (AddressExtractor.returnSn c)
          (AddressExtractor.returnId c) AddressExtractor.ADDR_TIMEOUT now).
Proof.
  intros Hin Hpending. unfold AddressExtractor.timeout_callback.
  rewrite Hin. cbn [snd]. unfold AddressExtractor.resolve.
  cbn [AddressExtractor.close_window AddressExtractor.settled].
  now rewrite Hpending.
Qed.

Lemma timeout_then_state (sn id t0 t1 : jsstring) :
  AddressExtractor.fire_timeout 0 t1
    (AddressExtractor.extractAddress (VStr sn) (VStr id) true t0
       AddressExtractor.initial_state) =
  {| AddressExtractor.store :=
       {| AddressExtractor.results := []; AddressExtractor.processing := [] |};
     AddressExtractor.calls :=
       [{| AddressExtractor.returnSn := VStr sn;
           AddressExtractor.returnId := VStr id;
           AddressExtractor.timeoutId := AddressExtractor.Fired;
           AddressExtractor.listening := true;
           AddressExtractor.window_closed := true;
           AddressExtractor.settled :=
             Some (AddressExtractor.failed (VStr sn) (VStr id)
                     AddressExtractor.ADDR_TIMEOUT t1) |}] |}.
Proof.
  unfold AddressExtractor.extractAddress, AddressExtractor.fire_timeout,
    AddressExtractor.timeout_callback.
  js_eval. reflexivity.
Qed.

(** C1 at the failing input: the window opens, the timer expires, then
    the message for this order arrives.  The timeout has removed the id
    from the processing set and settled the promise with the timeout
    result, and the promise keeps it; but the message handler, which does
    not look at the processing set, still runs to its end and records the
    result of the message under the key, where nothing was recorded
    before. *)
Theorem late_message_is_recorded_after_timeout :
  forall (sn id addr : jsstring) (t0 t1 t2 : jsstring),
    let st1 := AddressExtractor.extractAddress (VStr sn) (VStr id) true t0
                 AddressExtractor.initial_state in
    let st2 := AddressExtractor.fire_timeout 0 t1 st1 in
    let st3 := AddressExtractor.post_message
                 (AddressExtractor.address_message (VStr id) (VBool true) (VStr addr))
                 t2 st2 in
    let timed_out := AddressExtractor.failed (VStr sn) (VStr id)
                       AddressExtractor.ADDR_TIMEOUT t1 in
    JsSet.has (AddressExtractor.processing (AddressExtractor.store st2)) (VStr id) = false /\
    map AddressExtractor.settled (AddressExtractor.calls st2) = [Some timed_out] /\
    AddressExtractor.getCachedResult st2 (VStr sn) = None /\
    map AddressExtractor.settled (AddressExtractor.calls st3) = [Some timed_out] /\
    exists wh,
      AddressExtractor.identifyWarehouse (VStr addr) = Normal wh /\
      AddressExtractor.getCachedResult st3 (VStr sn) =
      Some {| AddressExtractor.success := VBool true;
              AddressExtractor.return_sn := VStr sn;
              AddressExtractor.return_id := VStr id;
              AddressExtractor.address :=
                js_or (VStr addr) (VStr AddressExtractor.ADDR_NOT_FOUND);
              AddressExtractor.warehouse := wh;
              AddressExtractor.timestamp := t2 |}.
Proof.
  intros sn id addr t0 t1 t2. cbv zeta. rewrite timeout_then_state.
  repeat (split; [reflexivity|]).
  unfold AddressExtractor.post_message, AddressExtractor.getCachedResult.
  cbn [AddressExtractor.dispatch AddressExtractor.calls AddressExtractor.store
       AddressExtractor.listening].
  unfold AddressExtractor.messageHandler. js_eval.
  rewrite (identifyWarehouse_string addr). js_eval.
  split; [reflexivity|]. eexists. split; reflexivity.
Qed.

(** The other order of the two events: the message settles the promise
    with its result and clears the timer, whose expiry then changes
    nothing. *)
Lemma early_message_wins (sn id addr t0 t1 t2 : jsstring) :
  let st1 := AddressExtractor.extractAddress (VStr sn) (VStr id) true t0
               AddressExtractor.initial_state in
  let st2 := AddressExtractor.post_message
               (AddressExtractor.address_message (VStr id) (VBool true) (VStr addr))
               t1 st1 in
  exists wh,
    AddressExtractor.identifyWarehouse (VStr addr) = Normal wh /\
    map AddressExtractor.timeoutId (AddressExtractor.calls st2) = [AddressExtractor.Cleared] /\
    map AddressExtractor.settled (AddressExtractor.calls st2) =
      [Some {| AddressExtractor.success := VBool true;
               AddressExtractor.return_sn := VStr sn;
               AddressExtractor.return_id := VStr id;
               AddressExtractor.address :=
                 js_or (VStr addr) (VStr AddressExtractor.ADDR_NOT_FOUND);
               AddressExtractor.warehouse := wh;
               AddressExtractor.timestamp := t1 |}] /\
    AddressExtractor.fire_timeout 0 t2 st2 = st2.
Proof.
  cbv zeta.
  unfold AddressExtractor.extractAddress, AddressExtractor.post_message.
  cbn [AddressExtractor.dispatch AddressExtractor.calls AddressExtractor.store
       AddressExtractor.initial_state app AddressExtractor.listening].
  unfold AddressExtractor.messageHandler. js_eval.
  rewrite (identifyWarehouse_string addr). js_eval.
  eexists. repeat split; reflexivity.
Qed.

(** ** The batch *)

(** A call whose timer is cleared, whose listener is removed and whose
    promise is pending stays so: no event reaches it, and the batch that
    waits for it does not move. *)
Lemma orphaned_call_blocks_batch (opens : nat -> bool)
      (sh : AddressExtractor.cache) (c : AddressExtractor.call)
      (ev : AddressExtractor.event) :
  AddressExtractor.timeoutId c = AddressExtractor.Cleared ->
  AddressExtractor.listening c = false ->
  AddressExtractor.settled c = None ->
  let b := {| AddressExtractor.queue := [];
              AddressExtractor.in_flight := [0];
              AddressExtractor.collected := [];
              AddressExtractor.ext :=
                {| AddressExtractor.store := sh; AddressExtractor.calls := [c] |} |} in
  AddressExtractor.batch_step opens b ev = b.
Proof.
  intros Ht Hl Hs b. subst b.
  unfold AddressExtractor.batch_step, AddressExtractor.settle.
  cbn [AddressExtractor.queue AddressExtractor.in_flight AddressExtractor.collected
       AddressExtractor.ext length Nat.add].
  assert (AddressExtractor.deliver ev
            {| AddressExtractor.store := sh; AddressExtractor.calls := [c] |} =
          {| AddressExtractor.store := sh; AddressExtractor.calls := [c] |}) as ->.
  { destruct ev as [[|[|i]] now|data now]; cbn [AddressExtractor.deliver].
    - unfold AddressExtractor.fire_timeout. cbn. now rewrite Ht.
    - reflexivity.
    - reflexivity.
    - unfold AddressExtractor.post_message. cbn. now rewrite Hl. }
  cbn [AddressExtractor.run_callbacks AddressExtractor.first_settled
       AddressExtractor.in_flight AddressExtractor.calls AddressExtractor.ext
       nth_error].
  now rewrite Hs.
Qed.

Lemma run_of_fixed_batch (opens : nat -> bool) (b : AddressExtractor.batch) :
  (forall ev, AddressExtractor.batch_step opens b ev = b) ->
  forall evs, AddressExtractor.run opens b evs = b.
Proof.
  intros H evs. unfold AddressExtractor.run.
  induction evs as [|ev evs IH]; [reflexivity|].
  cbn [fold_left]. now rewrite H.
Qed.

(** C8 at the failing input: one pair is dispatched, its window opens, and
    the message for its order carries an object where the address string
    should be.  The handler clears the timer, removes the id and its own
    listener, and is then ended by the TypeError of [identifyWarehouse]:
    the promise of the pair is never settled, whatever events follow, and
    the batch never completes and never has a result for the pair. *)
Theorem malformed_address_leaves_batch_pending :
  forall (sn id : jsstring) (ref : nat) (fields : object) (t0 t1 : jsstring)
         (evs : list AddressExtractor.event),
    let item := [(AddressExtractor.RETURN_SN, VStr sn);
                 (AddressExtractor.RETURN_ID, VStr id)] in
    let opens := fun _ : nat => true in
    let b0 := AddressExtractor.extractAddresses opens [item] t0
                AddressExtractor.initial_state in
    let b1 := AddressExtractor.batch_step opens b0
                (AddressExtractor.MessageArrives
                   (AddressExtractor.address_message (VStr id) (VBool true)
                      (VObj ref fields)) t1) in
    let b := AddressExtractor.run opens b1 evs in
    AddressExtractor.in_flight b0 = [0] /\
    AddressExtractor.completed b = false /\
    AddressExtractor.collected b = [] /\
    map AddressExtractor.settled (AddressExtractor.calls (AddressExtractor.ext b)) = [None] /\
    map AddressExtractor.timeoutId (AddressExtractor.calls (AddressExtractor.ext b)) =
      [AddressExtractor.Cleared] /\
    map AddressExtractor.listening (AddressExtractor.calls (AddressExtractor.ext b)) = [false].
Proof.
  intros sn id ref fields t0 t1 evs. cbv zeta.
  set (c := {| AddressExtractor.returnSn := VStr sn;
               AddressExtractor.returnId := VStr id;
               AddressExtractor.timeoutId := AddressExtractor.Cleared;
               AddressExtractor.listening := false;
               AddressExtractor.window_closed := false;
               AddressExtractor.settled := None |}).
  set (stuck := {| AddressExtractor.queue := [];
                   AddressExtractor.in_flight := [0];
                   AddressExtractor.collected := [];
                   AddressExtractor.ext :=
                     {| AddressExtractor.store :=
                          {| AddressExtractor.results := [];
                             AddressExtractor.processing := [] |};
                        AddressExtractor.calls := [c] |} |}).
  split; [reflexivity|].
  assert (AddressExtractor.batch_step (fun _ => true)
            (AddressExtractor.extractAddresses (fun _ => true)
               [[(AddressExtractor.RETURN_SN, VStr sn);
                 (AddressExtractor.RETURN_ID, VStr id)]] t0
               AddressExtractor.initial_state)
            (AddressExtractor.MessageArrives
               (AddressExtractor.address_message (VStr id) (VBool true)
                  (VObj ref fields)) t1) = stuck) as ->.
  { unfold AddressExtractor.batch_step, AddressExtractor.extractAddresses,
      AddressExtractor.settle.
    cbn -[AddressExtractor.post_message].
    unfold AddressExtractor.post_message.
    cbn -[AddressExtractor.messageHandler].
    unfold AddressExtractor.messageHandler. js_eval.
    rewrite identifyWarehouse_object. js_eval. reflexivity. }
  assert (AddressExtractor.run (fun _ => true) stuck evs = stuck) as ->.
  { apply run_of_fixed_batch. intros ev.
    exact (orphaned_call_blocks_batch (fun _ => true) _ c ev eq_refl eq_refl eq_refl). }
  repeat split; reflexivity.
Qed.

(** The same loss without any malformed input: two pairs with the same id
    are in flight and no message comes.  The first timer removes the id
    and settles its pair; the second timer finds the id gone and does
    nothing, so its pair stays pending and the batch incomplete. *)
Lemma second_timeout_of_same_id_is_lost :
  let sn := VStr (lit "SN001") in
  let id := VStr (lit "501") in
  let item := [(AddressExtractor.RETURN_SN, sn); (AddressExtractor.RETURN_ID, id)] in
  let opens := fun _ : nat => true in
  let b := AddressExtractor.run opens
             (AddressExtractor.extractAddresses opens [item; item] (lit "t0")
                AddressExtractor.initial_state)
             [AddressExtractor.TimerExpires 0 (lit "t1");
              AddressExtractor.TimerExpires 1 (lit "t2")] in
  AddressExtractor.completed b = false /\
  AddressExtractor.collected b =
    [AddressExtractor.failed sn id AddressExtractor.ADDR_TIMEOUT (lit "t1")] /\
  map AddressExtractor.settled (AddressExtractor.calls (AddressExtractor.ext b)) =
    [Some (AddressExtractor.failed sn id AddressExtractor.ADDR_TIMEOUT (lit "t1"));
     None] /\
  map AddressExtractor.timeoutId (AddressExtractor.calls (AddressExtractor.ext b)) =
    [AddressExtractor.Fired; AddressExtractor.Fired].
Proof. vm_compute. repeat split; reflexivity. Qed.

(** Timeouts, a blocked window and a well-formed message, five pairs with
    three slots: every pair gets one result, in the order of completion. *)
Lemma batch_of_five_completes :
  let item (k : string) := [(AddressExtractor.RETURN_SN, VStr (lit k));
                            (AddressExtractor.RETURN_ID, VStr (lit k))] in
  let opens := fun n : nat => negb (Nat.eqb n 3) in
  let now := lit "t" in
  let b0 := AddressExtractor.extractAddresses opens
              (map item ["A"; "B"; "C"; "D"; "E"]%string) now
              AddressExtractor.initial_state in
  let b := AddressExtractor.run opens b0
             [AddressExtractor.TimerExpires 1 now;
              AddressExtractor.MessageArrives
                (AddressExtractor.address_message (VStr (lit "A")) (VBool true)
                   (VStr (lit "Jl. Raya 61254"))) now;
              AddressExtractor.TimerExpires 4 now;
              AddressExtractor.TimerExpires 2 now] in
  AddressExtractor.in_flight b0 = [0; 1; 2] /\
  AddressExtractor.completed b = true /\
  map (fun r => (AddressExtractor.return_sn r, AddressExtractor.success r,
                 AddressExtractor.warehouse r))
      (AddressExtractor.collected b) =
    [(VStr (lit "B"), VBool false, AddressExtractor.LABEL_UNKNOWN);
     (VStr (lit "D"), VBool false, AddressExtractor.LABEL_UNKNOWN);
     (VStr (lit "A"), VBool true, lit "BI SBY");
     (VStr (lit "E"), VBool false, AddressExtractor.LABEL_UNKNOWN);
     (VStr (lit "C"), VBool false, AddressExtractor.LABEL_UNKNOWN)].
Proof. vm_compute. repeat split; reflexivity. Qed.

(* ================================================================== *)
(** * Part III. Further properties of the code                         *)
(* ================================================================== *)

(** ** The pool of [extractAddresses] *)

Lemma extractAddress_calls (sn id : value) (opened : bool) (now : jsstring)
      (st : AddressExtractor.state) :
  exists c, AddressExtractor.calls (AddressExtractor.extractAddress sn id opened now st) =
            AddressExtractor.calls st ++ [c] /\
            AddressExtractor.call_pair c = (sn, id).
Proof. destruct opened; eexists; split; reflexivity. Qed.

Lemma resolve_pair (c : AddressExtractor.call) (r : AddressExtractor.result) :
  AddressExtractor.call_pair (AddressExtractor.resolve c r) = AddressExtractor.call_pair c.
Proof. unfold AddressExtractor.resolve. now destruct (AddressExtractor.settled c). Qed.

Lemma timeout_callback_pair (now : jsstring) (sh : AddressExtractor.cache)
      (c : AddressExtractor.call) :
  AddressExtractor.call_pair (snd (AddressExtractor.timeout_callback now sh c)) =
  AddressExtractor.call_pair c.
Proof.
  unfold AddressExtractor.timeout_callback.
  destruct (JsSet.has _ _); cbn [snd]; [|reflexivity]. now rewrite resolve_pair.
Qed.

Lemma messageHandler_pair (data : value) (now : jsstring)
      (sh : AddressExtractor.cache) (c : AddressExtractor.call) :
  AddressExtractor.call_pair (snd (AddressExtractor.messageHandler data now sh c)) =
  AddressExtractor.call_pair c.
Proof.
  unfold AddressExtractor.messageHandler.
  destruct (_ && _); [|reflexivity].
  destruct (strict_eq _ _); [|reflexivity].
  destruct (AddressExtractor.identifyWarehouse _); cbn [snd]; [|reflexivity].
  now rewrite resolve_pair.
Qed.

Lemma dispatch_pairs (data : value) (now : jsstring) (cs : list AddressExtractor.call)
      (sh : AddressExtractor.cache) :
  map AddressExtractor.call_pair (snd (AddressExtractor.dispatch data now sh cs)) =
  map AddressExtractor.call_pair cs.
Proof.
  revert sh; induction cs as [|c cs IH]; intros sh; [reflexivity|].
  cbn [AddressExtractor.dispatch].
  destruct (if AddressExtractor.listening c
            then AddressExtractor.messageHandler data now sh c
            else (sh, c)) as [sh1 c1] eqn:E1.
  specialize (IH sh1).
  destruct (AddressExtractor.dispatch data now sh1 cs) as [sh2 rest].
  cbn [snd map] in *. rewrite IH. f_equal.
  destruct (AddressExtractor.listening c).
  - pose proof (messageHandler_pair data now sh c) as H. now rewrite E1 in H.
  - now injection E1 as _ <-.
Qed.

Lemma replace_nth_pairs (cs : list AddressExtractor.call) (i : nat)
      (c c' : AddressExtractor.call) :
  nth_error cs i = Some c ->
  AddressExtractor.call_pair c' = AddressExtractor.call_pair c ->
  map AddressExtractor.call_pair (AddressExtractor.replace_nth i c' cs) =
  map AddressExtractor.call_pair cs.
Proof.
  revert i; induction cs as [|c0 cs IH]; intros [|i] Hi Hp; try discriminate.
  - injection Hi as ->. cbn. now rewrite Hp.
  - cbn. f_equal. now apply IH.
Qed.

(** No event changes which pairs the calls were started with. *)
Lemma deliver_pairs (ev : AddressExtractor.event) (st : AddressExtractor.state) :
  map AddressExtractor.call_pair (AddressExtractor.calls (AddressExtractor.deliver ev st)) =
  map AddressExtractor.call_pair (AddressExtractor.calls st).
Proof.
  destruct ev as [i now|data now]; cbn [AddressExtractor.deliver].
  - unfold AddressExtractor.fire_timeout.
    destruct (nth_error (AddressExtractor.calls st) i) as [c|] eqn:Hi; [|reflexivity].
    destruct (AddressExtractor.timeoutId c); try reflexivity.
    pose proof (timeout_callback_pair now (AddressExtractor.store st)
                  (AddressExtractor.set_timer c AddressExtractor.Fired)) as Hp.
    destruct (AddressExtractor.timeout_callback _ _ _) as [sh c'].
    cbn [AddressExtractor.calls snd] in *.
    now apply replace_nth_pairs with (c := c).
  - unfold AddressExtractor.post_message.
    pose proof (dispatch_pairs data now (AddressExtractor.calls st)
                  (AddressExtractor.store st)) as H.
    destruct (AddressExtractor.dispatch _ _ _ _) as [sh cs]. exact H.
Qed.

Lemma first_settled_in (fl : list nat) (cs : list AddressExtractor.call)
      (i : nat) (r : AddressExtractor.result) :
  AddressExtractor.first_settled fl cs = Some (i, r) -> In i fl.
Proof.
  induction fl as [|j fl IH]; cbn; [discriminate|].
  destruct (nth_error cs j) as [c|]; [destruct (AddressExtractor.settled c)|].
  - intros [= <- _]. now left.
  - intros H. right. now apply IH.
  - intros H. right. now apply IH.
Qed.

Lemma filter_out_one (i : nat) (fl : list nat) :
  NoDup fl -> In i fl ->
  S (length (filter (fun j => negb (Nat.eqb j i)) fl)) = length fl.
Proof.
  induction fl as [|j fl IH]; intros Hnd Hin; [contradiction|].
  inversion Hnd as [|? ? Hj Hnd']; subst. cbn.
  destruct (Nat.eqb j i) eqn:E; cbn.
  - apply Nat.eqb_eq in E as ->. f_equal.
    clear IH Hin Hnd Hnd'. induction fl as [|k fl IH]; [reflexivity|].
    cbn. destruct (Nat.eqb k i) eqn:Ek.
    + apply Nat.eqb_eq in Ek as ->. exfalso. apply Hj. now left.
    + cbn. f_equal. apply IH. intros H. apply Hj. now right.
  - f_equal. apply IH; [assumption|].
    destruct Hin as [->|Hin]; [|assumption]. now rewrite Nat.eqb_refl in E.
Qed.

Lemma processNext_invariant (opens : nat -> bool) (now : jsstring)
      (before : list (value * value)) (items : list object)
      (q : list object) (fl : list nat) (out : list AddressExtractor.result)
      (st : AddressExtractor.state) :
  length fl <= AddressExtractor.maxConcurrent ->
  NoDup fl ->
  Forall (fun i => i < length (AddressExtractor.calls st)) fl ->
  length q + length fl + length out = length items ->
  map AddressExtractor.call_pair (AddressExtractor.calls st) ++
    map AddressExtractor.item_pair q = before ++ map AddressExtractor.item_pair items ->
  AddressExtractor.pool_invariant before items
    (AddressExtractor.processNext opens now q fl out st).
Proof.
  revert fl st; induction q as [|item q IH]; intros fl st Hle Hnd Hlt Hcount Hpairs.
  - cbn. repeat split; assumption.
  - cbn [AddressExtractor.processNext].
    destruct (Nat.ltb (length fl) AddressExtractor.maxConcurrent) eqn:Hroom.
    2:{ repeat split; assumption. }
    apply Nat.ltb_lt in Hroom.
    destruct (extractAddress_calls (lookup item AddressExtractor.RETURN_SN)
                (lookup item AddressExtractor.RETURN_ID)
                (opens (length (AddressExtractor.calls st))) now st)
      as (c & Hcalls & Hpair).
    apply IH.
    + rewrite length_app. cbn. lia.
    + apply NoDup_app; [assumption|repeat constructor; intros []|].
      intros i Hi [<-|[]]. rewrite Forall_forall in Hlt. specialize (Hlt _ Hi). lia.
    + rewrite Hcalls, length_app. cbn. apply Forall_app. split.
      * eapply Forall_impl; [|exact Hlt]. cbn. intros; lia.
      * repeat constructor. lia.
    + rewrite length_app. cbn in *. lia.
    + rewrite Hcalls, map_app, <- app_assoc. cbn [map app].
      rewrite Hpair. exact Hpairs.
Qed.

Lemma then_callback_invariant (opens : nat -> bool) (now : jsstring)
      (before : list (value * value)) (items : list object)
      (b : AddressExtractor.batch) (i : nat) (r : AddressExtractor.result) :
  AddressExtractor.pool_invariant before items b ->
  In i (AddressExtractor.in_flight b) ->
  AddressExtractor.pool_invariant before items
    (AddressExtractor.then_callback opens now i r b).
Proof.
  intros (Hle & Hnd & Hlt & Hcount & Hpairs) Hin.
  unfold AddressExtractor.then_callback.
  pose proof (filter_out_one i _ Hnd Hin) as Hone.
  apply processNext_invariant.
  - lia.
  - now apply NoDup_filter.
  - rewrite Forall_forall in *. intros j Hj. apply filter_In in Hj as [Hj _]. auto.
  - rewrite length_app. cbn. lia.
  - exact Hpairs.
Qed.

Lemma run_callbacks_invariant (opens : nat -> bool) (now : jsstring)
      (before : list (value * value)) (items : list object)
      (fuel : nat) (b : AddressExtractor.batch) :
  AddressExtractor.pool_invariant before items b ->
  AddressExtractor.pool_invariant before items
    (AddressExtractor.run_callbacks opens fuel now b).
Proof.
  revert b; induction fuel as [|fuel IH]; intros b Hb; [exact Hb|].
  cbn [AddressExtractor.run_callbacks].
  destruct (AddressExtractor.first_settled _ _) as [[i r]|] eqn:F; [|exact Hb].
  apply IH. apply then_callback_invariant; [exact Hb|].
  eapply first_settled_in; exact F.
Qed.

Lemma batch_step_invariant (opens : nat -> bool)
      (before : list (value * value)) (items : list object)
      (b : AddressExtractor.batch) (ev : AddressExtractor.event) :
  AddressExtractor.pool_invariant before items b ->
  AddressExtractor.pool_invariant before items (AddressExtractor.batch_step opens b ev).
Proof.
  intros (Hle & Hnd & Hlt & Hcount & Hpairs).
  unfold AddressExtractor.batch_step, AddressExtractor.settle.
  apply run_callbacks_invariant.
  pose proof (deliver_pairs ev (AddressExtractor.ext b)) as Hp.
  repeat split; cbn [AddressExtractor.queue AddressExtractor.in_flight
                     AddressExtractor.collected AddressExtractor.ext];
    try assumption.
  - replace (length (AddressExtractor.calls (AddressExtractor.deliver ev (AddressExtractor.ext b))))
      with (length (AddressExtractor.calls (AddressExtractor.ext b))); [assumption|].
    rewrite <- (length_map AddressExtractor.call_pair), <- Hp. now rewrite length_map.
  - now rewrite Hp.
Qed.

(** The invariant holds from the first dispatch on, whatever the event
    loop delivers. *)
Lemma pool_invariant_holds (opens : nat -> bool) (items : list object)
      (now : jsstring) (st : AddressExtractor.state)
      (evs : list AddressExtractor.event) :
  AddressExtractor.pool_invariant
    (map AddressExtractor.call_pair (AddressExtractor.calls st)) items
    (AddressExtractor.run opens (AddressExtractor.extractAddresses opens items now st) evs).
Proof.
  unfold AddressExtractor.run.
  assert (AddressExtractor.pool_invariant
            (map AddressExtractor.call_pair (AddressExtractor.calls st)) items
            (AddressExtractor.extractAddresses opens items now st)) as H0.
  { unfold AddressExtractor.extractAddresses, AddressExtractor.settle.
    apply run_callbacks_invariant. apply processNext_invariant.
    - cbn. unfold AddressExtractor.maxConcurrent. lia.
    - constructor.
    - constructor.
    - cbn. lia.
    - reflexivity. }
  revert H0. generalize (AddressExtractor.extractAddresses opens items now st).
  induction evs as [|ev evs IH]; intros b Hb; [exact Hb|].
  cbn [fold_left]. apply IH. now apply batch_step_invariant.
Qed.

(** X1.  At every turn of the event loop, whatever the windows and the
    events, at most [maxConcurrent] = 3 calls of a batch are in flight. *)
Theorem pool_never_exceeds_three :
  forall (opens : nat -> bool) (items : list object) (now : jsstring)
         (st : AddressExtractor.state) (evs : list AddressExtractor.event),
    length (AddressExtractor.in_flight
              (AddressExtractor.run opens
                 (AddressExtractor.extractAddresses opens items now st) evs)) <= 3.
Proof.
  intros opens items now st evs.
  exact (proj1 (pool_invariant_holds opens items now st evs)).
Qed.

(** X3.  Calls are started in queue order: at every turn, the pairs of the
    calls made so far, in the order of the calls, followed by the pairs
    still queued, are the pairs given, in their order. *)
Theorem pool_starts_in_queue_order :
  forall (opens : nat -> bool) (items : list object) (now : jsstring)
         (evs : list AddressExtractor.event),
    let b := AddressExtractor.run opens
               (AddressExtractor.extractAddresses opens items now
                  AddressExtractor.initial_state) evs in
    map AddressExtractor.call_pair (AddressExtractor.calls (AddressExtractor.ext b)) ++
    map AddressExtractor.item_pair (AddressExtractor.queue b) =
    map AddressExtractor.item_pair items.
Proof.
  intros opens items now evs b.
  destruct (pool_invariant_holds opens items now AddressExtractor.initial_state evs)
    as (_ & _ & _ & _ & Hpairs).
  exact Hpairs.
Qed.

Lemma resolve_own_pair (c : AddressExtractor.call) (r : AddressExtractor.result) :
  AddressExtractor.settled_for_own_pair c ->
  AddressExtractor.result_pair r = AddressExtractor.call_pair c ->
  AddressExtractor.settled_for_own_pair (AddressExtractor.resolve c r).
Proof.
  unfold AddressExtractor.settled_for_own_pair, AddressExtractor.resolve.
  destruct (AddressExtractor.settled c) eqn:E; cbn; [now rewrite E|auto].
Qed.

Lemma timeout_callback_own_pair (now : jsstring) (sh : AddressExtractor.cache)
      (c : AddressExtractor.call) :
  AddressExtractor.settled_for_own_pair c ->
  AddressExtractor.settled_for_own_pair
    (snd (AddressExtractor.timeout_callback now sh
            (AddressExtractor.set_timer c AddressExtractor.Fired))).
Proof.
  intros H. unfold AddressExtractor.timeout_callback.
  destruct (JsSet.has _ _); cbn [snd]; [|exact H].
  apply resolve_own_pair; [exact H|reflexivity].
Qed.

Lemma messageHandler_own_pair (data : value) (now : jsstring)
      (sh : AddressExtractor.cache) (c : AddressExtractor.call) :
  AddressExtractor.settled_for_own_pair c ->
  AddressExtractor.settled_for_own_pair
    (snd (AddressExtractor.messageHandler data now sh c)).
Proof.
  intros H. unfold AddressExtractor.messageHandler.
  destruct (_ && _); [|exact H].
  destruct (strict_eq _ _); [|exact H].
  destruct (AddressExtractor.identifyWarehouse _); cbn [snd]; [|exact H].
  apply resolve_own_pair; [exact H|reflexivity].
Qed.

Lemma dispatch_own_pair (data : value) (now : jsstring)
      (cs : list AddressExtractor.call) (sh : AddressExtractor.cache) :
  Forall AddressExtractor.settled_for_own_pair cs ->
  Forall AddressExtractor.settled_for_own_pair
    (snd (AddressExtractor.dispatch data now sh cs)).
Proof.
  revert sh; induction cs as [|c cs IH]; intros sh H; [constructor|].
  inversion H as [|? ? Hc Hcs]; subst. cbn [AddressExtractor.dispatch].
  destruct (if AddressExtractor.listening c
            then AddressExtractor.messageHandler data now sh c
            else (sh, c)) as [sh1 c1] eqn:E1.
  specialize (IH sh1 Hcs).
  destruct (AddressExtractor.dispatch data now sh1 cs) as [sh2 rest].
  cbn [snd] in *. constructor; [|exact IH].
  destruct (AddressExtractor.listening c).
  - pose proof (messageHandler_own_pair data now sh c Hc) as H1. now rewrite E1 in H1.
  - now injection E1 as _ <-.
Qed.

Lemma replace_nth_Forall (P : AddressExtractor.call -> Prop)
      (cs : list AddressExtractor.call) (i : nat) (c : AddressExtractor.call) :
  Forall P cs -> P c -> Forall P (AddressExtractor.replace_nth i c cs).
Proof.
  revert i; induction cs as [|c0 cs IH]; intros [|i] H Hc; cbn; try constructor;
    inversion H; subst; auto.
Qed.

Lemma deliver_own_pair (ev : AddressExtractor.event) (st : AddressExtractor.state) :
  Forall AddressExtractor.settled_for_own_pair (AddressExtractor.calls st) ->
  Forall AddressExtractor.settled_for_own_pair
    (AddressExtractor.calls (AddressExtractor.deliver ev st)).
Proof.
  intros H. destruct ev as [i now|data now]; cbn [AddressExtractor.deliver].
  - unfold AddressExtractor.fire_timeout.
    destruct (nth_error (AddressExtractor.calls st) i) as [c|] eqn:Hi; [|exact H].
    destruct (AddressExtractor.timeoutId c); try exact H.
    assert (AddressExtractor.settled_for_own_pair c) as Hc.
    { rewrite Forall_forall in H. apply H. eapply nth_error_In; exact Hi. }
    pose proof (timeout_callback_own_pair now (AddressExtractor.store st) c Hc) as Hp.
    destruct (AddressExtractor.timeout_callback _ _ _) as [sh c'].
    cbn [AddressExtractor.calls snd] in *. now apply replace_nth_Forall.
  - unfold AddressExtractor.post_message.
    pose proof (dispatch_own_pair data now (AddressExtractor.calls st)
                  (AddressExtractor.store st) H) as Hd.
    destruct (AddressExtractor.dispatch _ _ _ _) as [sh cs]. exact Hd.
Qed.

Lemma processNext_own_pair (opens : nat -> bool) (now : jsstring)
      (q : list object) (fl : list nat) (out : list AddressExtractor.result)
      (st : AddressExtractor.state) :
  Forall AddressExtractor.settled_for_own_pair (AddressExtractor.calls st) ->
  Forall AddressExtractor.settled_for_own_pair
    (AddressExtractor.calls (AddressExtractor.ext
       (AddressExtractor.processNext opens now q fl out st))) /\
  AddressExtractor.collected (AddressExtractor.processNext opens now q fl out st) = out.
Proof.
  revert fl st; induction q as [|item q IH]; intros fl st H; [now split|].
  cbn [AddressExtractor.processNext].
  destruct (Nat.ltb (length fl) AddressExtractor.maxConcurrent); [|now split].
  apply IH. unfold AddressExtractor.extractAddress.
  destruct (opens _); cbn [AddressExtractor.calls]; apply Forall_app; split;
    try assumption; repeat constructor.
Qed.

Lemma first_settled_some (fl : list nat) (cs : list AddressExtractor.call)
      (i : nat) (r : AddressExtractor.result) :
  AddressExtractor.first_settled fl cs = Some (i, r) ->
  exists c, nth_error cs i = Some c /\ AddressExtractor.settled c = Some r.
Proof.
  induction fl as [|j fl IH]; cbn; [discriminate|].
  destruct (nth_error cs j) as [c|] eqn:Hj; [|exact IH].
  destruct (AddressExtractor.settled c) eqn:Hs; [|exact IH].
  intros [= <- <-]. now exists c.
Qed.

Lemma run_callbacks_results (opens : nat -> bool) (now : jsstring)
      (items : list object) (fuel : nat) (b : AddressExtractor.batch) :
  AddressExtractor.results_invariant items b ->
  AddressExtractor.results_invariant items
    (AddressExtractor.run_callbacks opens fuel now b).
Proof.
  revert b; induction fuel as [|fuel IH]; intros b Hb; [exact Hb|].
  cbn [AddressExtractor.run_callbacks].
  destruct (AddressExtractor.first_settled _ _) as [[i r]|] eqn:F; [|exact Hb].
  apply IH. destruct Hb as (Hpool & Hown & Hout).
  pose proof (first_settled_in _ _ _ _ F) as Hin.
  apply first_settled_some in F as (c & Hi & Hs).
  split; [now apply then_callback_invariant|].
  unfold AddressExtractor.then_callback.
  destruct (processNext_own_pair opens now (AddressExtractor.queue b)
              (filter (fun j => negb (Nat.eqb j i)) (AddressExtractor.in_flight b))
              (AddressExtractor.collected b ++ [r]) (AddressExtractor.ext b) Hown)
    as [Hown' Hout'].
  split; [exact Hown'|]. rewrite Hout'. apply Forall_app. split; [exact Hout|].
  repeat constructor.
  assert (AddressExtractor.settled_for_own_pair c) as Hc.
  { rewrite Forall_forall in Hown. apply Hown. eapply nth_error_In; exact Hi. }
  unfold AddressExtractor.settled_for_own_pair in Hc. rewrite Hs in Hc. rewrite Hc.
  destruct Hpool as (_ & _ & _ & _ & Hpairs). cbn [app] in Hpairs.
  rewrite <- Hpairs. apply in_or_app. left. apply in_map.
  eapply nth_error_In; exact Hi.
Qed.

Lemma results_invariant_holds (opens : nat -> bool) (items : list object)
      (now : jsstring) (evs : list AddressExtractor.event) :
  AddressExtractor.results_invariant items
    (AddressExtractor.run opens
       (AddressExtractor.extractAddresses opens items now
          AddressExtractor.initial_state) evs).
Proof.
  unfold AddressExtractor.run.
  assert (AddressExtractor.results_invariant items
            (AddressExtractor.extractAddresses opens items now
               AddressExtractor.initial_state)) as H0.
  { unfold AddressExtractor.extractAddresses, AddressExtractor.settle.
    apply run_callbacks_results.
    destruct (processNext_own_pair opens now items [] []
                AddressExtractor.initial_state (Forall_nil _)) as [Hown Hout].
    split; [|split; [exact Hown | rewrite Hout; constructor]].
    apply processNext_invariant; try constructor; try reflexivity.
    - cbn. unfold AddressExtractor.maxConcurrent. lia.
    - cbn. lia. }
  revert H0.
  generalize (AddressExtractor.extractAddresses opens items now
                AddressExtractor.initial_state).
  induction evs as [|ev evs IH]; intros b Hb; [exact Hb|].
  cbn [fold_left]. apply IH. destruct Hb as (Hpool & Hown & Hout).
  unfold AddressExtractor.batch_step, AddressExtractor.settle.
  apply run_callbacks_results.
  split; [|split].
  - destruct Hpool as (Hle & Hnd & Hlt & Hcount & Hpairs).
    pose proof (deliver_pairs ev (AddressExtractor.ext b)) as Hp.
    repeat split; cbn [AddressExtractor.queue AddressExtractor.in_flight
                       AddressExtractor.collected AddressExtractor.ext];
      try assumption.
    + replace (length (AddressExtractor.calls
                         (AddressExtractor.deliver ev (AddressExtractor.ext b))))
        with (length (AddressExtractor.calls (AddressExtractor.ext b)));
        [assumption|].
      rewrite <- (length_map AddressExtractor.call_pair), <- Hp. now rewrite length_map.
    + now rewrite Hp.
  - cbn [AddressExtractor.ext]. now apply deliver_own_pair.
  - exact Hout.
Qed.

(** X4.  Every result a batch collects is a result for one of the pairs it
    was given: its key and id are those of an item of the list. *)
Theorem pool_results_are_for_given_pairs :
  forall (opens : nat -> bool) (items : list object) (now : jsstring)
         (evs : list AddressExtractor.event),
    Forall (fun r => In (AddressExtractor.return_sn r, AddressExtractor.return_id r)
                        (map AddressExtractor.item_pair items))
           (AddressExtractor.collected
              (AddressExtractor.run opens
                 (AddressExtractor.extractAddresses opens items now
                    AddressExtractor.initial_state) evs)).
Proof.
  intros opens items now evs.
  exact (proj2 (proj2 (results_invariant_holds opens items now evs))).
Qed.

(** ** The results cache and the processing set of the extractor *)

Lemma processNext_results (opens : nat -> bool) (now : jsstring)
      (q : list object) (fl : list nat) (out : list AddressExtractor.result)
      (st : AddressExtractor.state) :
  AddressExtractor.results (AddressExtractor.store (AddressExtractor.ext
    (AddressExtractor.processNext opens now q fl out st))) =
  AddressExtractor.results (AddressExtractor.store st).
Proof.
  revert fl st; induction q as [|item q IH]; intros fl st; [reflexivity|].
  cbn [AddressExtractor.processNext].
  destruct (Nat.ltb (length fl) AddressExtractor.maxConcurrent); [|reflexivity].
  rewrite IH. unfold AddressExtractor.extractAddress. now destruct (opens _).
Qed.

Lemma run_callbacks_results_cache (opens : nat -> bool) (now : jsstring)
      (fuel : nat) (b : AddressExtractor.batch) :
  AddressExtractor.results (AddressExtractor.store (AddressExtractor.ext
    (AddressExtractor.run_callbacks opens fuel now b))) =
  AddressExtractor.results (AddressExtractor.store (AddressExtractor.ext b)).
Proof.
  revert b; induction fuel as [|fuel IH]; intros b; [reflexivity|].
  cbn [AddressExtractor.run_callbacks].
  destruct (AddressExtractor.first_settled _ _) as [[i r]|]; [|reflexivity].
  rewrite IH. unfold AddressExtractor.then_callback. apply processNext_results.
Qed.

Lemma fire_timeout_results (i : nat) (now : jsstring) (st : AddressExtractor.state) :
  AddressExtractor.results (AddressExtractor.store (AddressExtractor.fire_timeout i now st)) =
  AddressExtractor.results (AddressExtractor.store st).
Proof.
  unfold AddressExtractor.fire_timeout.
  destruct (nth_error _ i) as [c|]; [|reflexivity].
  destruct (AddressExtractor.timeoutId c); try reflexivity.
  unfold AddressExtractor.timeout_callback.
  now destruct (JsSet.has _ _).
Qed.

(** ** The pool holds every pair once *)

Lemma extractAddress_new_call (sn id : value) (opened : bool) (now : jsstring)
      (st : AddressExtractor.state) :
  exists c, AddressExtractor.calls (AddressExtractor.extractAddress sn id opened now st) =
            AddressExtractor.calls st ++ [c] /\
            AddressExtractor.call_pair c = (sn, id) /\
            AddressExtractor.settled_for_own_pair c.
Proof. destruct opened; eexists; repeat split; reflexivity. Qed.

Lemma flight_pair_app1 (cs : list AddressExtractor.call) (c : AddressExtractor.call)
      (fl : list nat) :
  Forall (fun i => i < length cs) fl ->
  map (AddressExtractor.flight_pair (cs ++ [c])) fl =
  map (AddressExtractor.flight_pair cs) fl.
Proof.
  intros H. apply map_ext_in. intros i Hi. rewrite Forall_forall in H.
  unfold AddressExtractor.flight_pair. rewrite map_app.
  apply app_nth1. rewrite length_map. now apply H.
Qed.

Lemma flight_pair_last (cs : list AddressExtractor.call) (c : AddressExtractor.call) :
  AddressExtractor.flight_pair (cs ++ [c]) (length cs) = AddressExtractor.call_pair c.
Proof.
  unfold AddressExtractor.flight_pair. rewrite map_app.
  rewrite app_nth2; rewrite length_map; [|lia].
  now rewrite Nat.sub_diag.
Qed.

Lemma flight_pair_of_call (cs : list AddressExtractor.call) (i : nat)
      (c : AddressExtractor.call) :
  nth_error cs i = Some c ->
  AddressExtractor.flight_pair cs i = AddressExtractor.call_pair c.
Proof.
  intros H. unfold AddressExtractor.flight_pair.
  apply nth_error_nth. now apply map_nth_error.
Qed.

Lemma processNext_pairs (opens : nat -> bool) (now : jsstring)
      (q : list object) (fl : list nat) (out : list AddressExtractor.result)
      (st : AddressExtractor.state) :
  Forall (fun i => i < length (AddressExtractor.calls st)) fl ->
  AddressExtractor.flights_for_own_pairs (AddressExtractor.calls st) fl ->
  let b := AddressExtractor.processNext opens now q fl out st in
  Permutation (AddressExtractor.pairs_held b)
              (map AddressExtractor.item_pair q ++
               map (AddressExtractor.flight_pair (AddressExtractor.calls st)) fl ++
               map AddressExtractor.result_pair out) /\
  AddressExtractor.flights_for_own_pairs
    (AddressExtractor.calls (AddressExtractor.ext b)) (AddressExtractor.in_flight b).
Proof.
  revert fl st. induction q as [|item rest IH]; intros fl st Hlt Hown; cbv zeta.
  - cbn [AddressExtractor.processNext]. split; [reflexivity|exact Hown].
  - cbn [AddressExtractor.processNext].
    destruct (Nat.ltb (length fl) AddressExtractor.maxConcurrent);
      [|split; [reflexivity|exact Hown]].
    destruct (extractAddress_new_call
                (lookup item AddressExtractor.RETURN_SN)
                (lookup item AddressExtractor.RETURN_ID)
                (opens (length (AddressExtractor.calls st))) now st)
      as (c & Hcalls & Hpair & Hc).
    set (st' := AddressExtractor.extractAddress _ _ _ now st) in *.
    assert (Hlt' : Forall (fun i => i < length (AddressExtractor.calls st'))
                          (fl ++ [length (AddressExtractor.calls st)])).
    { rewrite Hcalls, length_app. cbn [length]. apply Forall_app. split.
      - eapply Forall_impl; [|exact Hlt]. cbn. intros; lia.
      - repeat constructor. lia. }
    assert (Hown' : AddressExtractor.flights_for_own_pairs
                      (AddressExtractor.calls st')
                      (fl ++ [length (AddressExtractor.calls st)])).
    { unfold AddressExtractor.flights_for_own_pairs in *. rewrite Hcalls.
      apply Forall_app. split.
      - rewrite Forall_forall in *. intros i Hi c' Hc'.
        rewrite nth_error_app1 in Hc' by now apply Hlt.
        exact (Hown i Hi c' Hc').
      - repeat constructor. intros c' Hc'.
        rewrite nth_error_app2, Nat.sub_diag in Hc' by lia.
        now injection Hc' as <-. }
    destruct (IH _ st' Hlt' Hown') as [Hperm Hfl]. split; [|exact Hfl].
    rewrite Hperm, Hcalls, map_app, (flight_pair_app1 _ c fl Hlt).
    cbn [map]. rewrite flight_pair_last, Hpair.
    change (AddressExtractor.item_pair item) with
      (lookup item AddressExtractor.RETURN_SN, lookup item AddressExtractor.RETURN_ID).
    set (p := (lookup item AddressExtractor.RETURN_SN,
               lookup item AddressExtractor.RETURN_ID)).
    rewrite <- !app_assoc. cbn [app].
    rewrite app_assoc. rewrite <- Permutation_middle.
    now rewrite <- app_assoc.
Qed.

Lemma filter_all (A : Type) (f : A -> bool) (l : list A) :
  forallb f l = true -> filter f l = l.
Proof.
  induction l as [|x l IH]; [reflexivity|]. cbn.
  rewrite andb_true_iff. intros [-> H]. now rewrite IH.
Qed.

Lemma filter_out_permutation (i : nat) (fl : list nat) :
  NoDup fl -> In i fl ->
  Permutation fl (i :: filter (fun j => negb (Nat.eqb j i)) fl).
Proof.
  induction 1 as [|j fl Hj Hnd IH]; [contradiction|]. intros [->|Hin]; cbn [filter].
  - rewrite Nat.eqb_refl. cbn [negb]. constructor.
    rewrite filter_all; [reflexivity|].
    apply forallb_forall. intros k Hk. apply negb_true_iff, Nat.eqb_neq.
    intros ->. contradiction.
  - destruct (Nat.eqb_spec j i) as [->|_]; [contradiction|]. cbn [negb].
    rewrite perm_swap. constructor. exact (IH Hin).
Qed.

Lemma then_callback_pairs (opens : nat -> bool) (now : jsstring)
      (b : AddressExtractor.batch) (i : nat) (r : AddressExtractor.result) :
  NoDup (AddressExtractor.in_flight b) ->
  Forall (fun j => j < length (AddressExtractor.calls (AddressExtractor.ext b)))
         (AddressExtractor.in_flight b) ->
  AddressExtractor.flights_for_own_pairs
    (AddressExtractor.calls (AddressExtractor.ext b)) (AddressExtractor.in_flight b) ->
  AddressExtractor.first_settled (AddressExtractor.in_flight b)
    (AddressExtractor.calls (AddressExtractor.ext b)) = Some (i, r) ->
  let b' := AddressExtractor.then_callback opens now i r b in
  Permutation (AddressExtractor.pairs_held b') (AddressExtractor.pairs_held b) /\
  AddressExtractor.flights_for_own_pairs
    (AddressExtractor.calls (AddressExtractor.ext b')) (AddressExtractor.in_flight b').
Proof.
  intros Hnd Hlt Hown F. cbv zeta.
  pose proof (first_settled_in _ _ _ _ F) as Hin.
  apply first_settled_some in F as (c & Hi & Hs).
  unfold AddressExtractor.then_callback.
  set (fl' := filter (fun j => negb (Nat.eqb j i)) (AddressExtractor.in_flight b)).
  assert (Hsub : forall j, In j fl' -> In j (AddressExtractor.in_flight b)).
  { intros j Hj. now apply filter_In in Hj. }
  destruct (processNext_pairs opens now (AddressExtractor.queue b) fl'
              (AddressExtractor.collected b ++ [r]) (AddressExtractor.ext b))
    as [Hperm Hfl].
  { apply Forall_forall. intros j Hj. rewrite Forall_forall in Hlt.
    now apply Hlt, Hsub. }
  { unfold AddressExtractor.flights_for_own_pairs in *.
    apply Forall_forall. intros j Hj. rewrite Forall_forall in Hown.
    now apply Hown, Hsub. }
  split; [|exact Hfl]. rewrite Hperm. unfold AddressExtractor.pairs_held.
  apply Permutation_app_head.
  assert (Hr : AddressExtractor.result_pair r =
               AddressExtractor.flight_pair
                 (AddressExtractor.calls (AddressExtractor.ext b)) i).
  { rewrite (flight_pair_of_call _ _ _ Hi).
    unfold AddressExtractor.flights_for_own_pairs in Hown.
    rewrite Forall_forall in Hown. specialize (Hown i Hin c Hi).
    unfold AddressExtractor.settled_for_own_pair in Hown.
    now rewrite Hs in Hown. }
  rewrite map_app. cbn [map]. rewrite Hr.
  rewrite (Permutation_map
             (AddressExtractor.flight_pair
                (AddressExtractor.calls (AddressExtractor.ext b)))
             (filter_out_permutation i _ Hnd Hin)).
  fold fl'. cbn [map app]. rewrite app_assoc.
  rewrite <- Permutation_cons_append. reflexivity.
Qed.

Lemma run_callbacks_pairs (opens : nat -> bool) (now : jsstring)
      (before : list (value * value)) (items : list object)
      (fuel : nat) (b : AddressExtractor.batch) :
  AddressExtractor.pool_invariant before items b ->
  AddressExtractor.flights_for_own_pairs
    (AddressExtractor.calls (AddressExtractor.ext b)) (AddressExtractor.in_flight b) ->
  let b' := AddressExtractor.run_callbacks opens fuel now b in
  Permutation (AddressExtractor.pairs_held b') (AddressExtractor.pairs_held b) /\
  AddressExtractor.flights_for_own_pairs
    (AddressExtractor.calls (AddressExtractor.ext b')) (AddressExtractor.in_flight b').
Proof.
  revert b; induction fuel as [|fuel IH]; intros b Hpool Hown; cbv zeta;
    [split; [reflexivity|exact Hown]|].
  cbn [AddressExtractor.run_callbacks].
  destruct (AddressExtractor.first_settled _ _) as [[i r]|] eqn:F;
    [|split; [reflexivity|exact Hown]].
  pose proof (first_settled_in _ _ _ _ F) as Hin.
  pose proof (then_callback_invariant opens now before items b i r Hpool Hin)
    as Hpool'.
  destruct Hpool as (_ & Hnd & Hlt & _).
  destruct (then_callback_pairs opens now b i r Hnd Hlt Hown F) as [Hperm Hown'].
  destruct (IH _ Hpool' Hown') as [Hperm' Hown''].
  split; [|exact Hown'']. now rewrite Hperm'.
Qed.

Lemma replace_nth_keeps (cs : list AddressExtractor.call) (i : nat)
      (c c' : AddressExtractor.call) :
  nth_error cs i = Some c ->
  AddressExtractor.keeps_own_pair c c' ->
  Forall2 AddressExtractor.keeps_own_pair cs (AddressExtractor.replace_nth i c' cs).
Proof.
  assert (Hrefl : forall l, Forall2 AddressExtractor.keeps_own_pair l l).
  { induction l; constructor; [now intros H|assumption]. }
  revert i; induction cs as [|x cs IH]; intros [|i] Hi Hc; try discriminate.
  - injection Hi as ->. cbn. constructor; [exact Hc|apply Hrefl].
  - cbn. constructor; [now intros H|]. now apply IH.
Qed.

Lemma dispatch_keeps (data : value) (now : jsstring)
      (cs : list AddressExtractor.call) (sh : AddressExtractor.cache) :
  Forall2 AddressExtractor.keeps_own_pair cs
          (snd (AddressExtractor.dispatch data now sh cs)).
Proof.
  revert sh; induction cs as [|c cs IH]; intros sh; [constructor|].
  cbn [AddressExtractor.dispatch].
  destruct (if AddressExtractor.listening c
            then AddressExtractor.messageHandler data now sh c
            else (sh, c)) as [sh1 c1] eqn:E1.
  specialize (IH sh1).
  destruct (AddressExtractor.dispatch data now sh1 cs) as [sh2 rest].
  cbn [snd] in *. constructor; [|exact IH].
  intros Hc. destruct (AddressExtractor.listening c).
  - pose proof (messageHandler_own_pair data now sh c Hc) as H1. now rewrite E1 in H1.
  - now injection E1 as _ <-.
Qed.

Lemma deliver_keeps (ev : AddressExtractor.event) (st : AddressExtractor.state) :
  Forall2 AddressExtractor.keeps_own_pair (AddressExtractor.calls st)
          (AddressExtractor.calls (AddressExtractor.deliver ev st)).
Proof.
  assert (Hrefl : forall l, Forall2 AddressExtractor.keeps_own_pair l l).
  { induction l; constructor; [now intros H|assumption]. }
  destruct ev as [i now|data now]; cbn [AddressExtractor.deliver].
  - unfold AddressExtractor.fire_timeout.
    destruct (nth_error (AddressExtractor.calls st) i) as [c|] eqn:Hi; [|apply Hrefl].
    destruct (AddressExtractor.timeoutId c); try apply Hrefl.
    pose proof (timeout_callback_own_pair now (AddressExtractor.store st) c) as Hp.
    destruct (AddressExtractor.timeout_callback _ _ _) as [sh c'].
    cbn [AddressExtractor.calls snd] in *. now apply replace_nth_keeps with (c := c).
  - unfold AddressExtractor.post_message.
    pose proof (dispatch_keeps data now (AddressExtractor.calls st)
                  (AddressExtractor.store st)) as Hd.
    destruct (AddressExtractor.dispatch _ _ _ _) as [sh cs]. exact Hd.
Qed.

Lemma keeps_own_pair_flights (cs cs' : list AddressExtractor.call) (fl : list nat) :
  Forall2 AddressExtractor.keeps_own_pair cs cs' ->
  AddressExtractor.flights_for_own_pairs cs fl ->
  AddressExtractor.flights_for_own_pairs cs' fl.
Proof.
  intros H2 Hown. unfold AddressExtractor.flights_for_own_pairs in *.
  eapply Forall_impl; [|exact Hown]. cbn. intros i Hi. clear Hown fl.
  revert i Hi. induction H2 as [|c c' cs cs' Hc _ IH]; intros [|i] Hi x Hx;
    try discriminate.
  - injection Hx as <-. apply Hc. now apply Hi.
  - exact (IH i Hi x Hx).
Qed.

Lemma batch_step_pairs (opens : nat -> bool)
      (before : list (value * value)) (items : list object)
      (b : AddressExtractor.batch) (ev : AddressExtractor.event) :
  AddressExtractor.pool_invariant before items b ->
  AddressExtractor.flights_for_own_pairs
    (AddressExtractor.calls (AddressExtractor.ext b)) (AddressExtractor.in_flight b) ->
  let b' := AddressExtractor.batch_step opens b ev in
  Permutation (AddressExtractor.pairs_held b') (AddressExtractor.pairs_held b) /\
  AddressExtractor.flights_for_own_pairs
    (AddressExtractor.calls (AddressExtractor.ext b')) (AddressExtractor.in_flight b').
Proof.
  intros Hpool Hown. cbv zeta.
  unfold AddressExtractor.batch_step, AddressExtractor.settle.
  set (b1 := {| AddressExtractor.queue := AddressExtractor.queue b;
                AddressExtractor.in_flight := AddressExtractor.in_flight b;
                AddressExtractor.collected := AddressExtractor.collected b;
                AddressExtractor.ext :=
                  AddressExtractor.deliver ev (AddressExtractor.ext b) |}).
  pose proof (deliver_pairs ev (AddressExtractor.ext b)) as Hp.
  assert (Hpool1 : AddressExtractor.pool_invariant before items b1).
  { destruct Hpool as (Hle & Hnd & Hlt & Hcount & Hpairs).
    repeat split; cbn [b1 AddressExtractor.queue AddressExtractor.in_flight
                       AddressExtractor.collected AddressExtractor.ext];
      try assumption.
    - replace (length (AddressExtractor.calls
                         (AddressExtractor.deliver ev (AddressExtractor.ext b))))
        with (length (AddressExtractor.calls (AddressExtractor.ext b)));
        [assumption|].
      rewrite <- (length_map AddressExtractor.call_pair), <- Hp.
      now rewrite length_map.
    - now rewrite Hp. }
  assert (Hown1 : AddressExtractor.flights_for_own_pairs
                    (AddressExtractor.calls (AddressExtractor.ext b1))
                    (AddressExtractor.in_flight b1)).
  { cbn [b1 AddressExtractor.ext AddressExtractor.in_flight].
    exact (keeps_own_pair_flights _ _ _ (deliver_keeps ev _) Hown). }
  destruct (run_callbacks_pairs opens (AddressExtractor.event_time ev) before items
              (length (AddressExtractor.queue b1) +
               length (AddressExtractor.in_flight b1)) b1 Hpool1 Hown1)
    as [Hperm Hown'].
  split; [|exact Hown']. rewrite Hperm.
  unfold AddressExtractor.pairs_held, AddressExtractor.flight_pair.
  cbn [b1 AddressExtractor.queue AddressExtractor.in_flight
       AddressExtractor.collected AddressExtractor.ext].
  now rewrite Hp.
Qed.

Lemma pairs_held_at_every_turn (opens : nat -> bool) (items : list object)
      (now : jsstring) (st : AddressExtractor.state)
      (evs : list AddressExtractor.event) :
  Permutation
    (AddressExtractor.pairs_held
       (AddressExtractor.run opens
          (AddressExtractor.extractAddresses opens items now st) evs))
    (map AddressExtractor.item_pair items).
Proof.
  set (before := map AddressExtractor.call_pair (AddressExtractor.calls st)).
  assert (H0 : let b := AddressExtractor.extractAddresses opens items now st in
               AddressExtractor.pool_invariant before items b /\
               AddressExtractor.flights_for_own_pairs
                 (AddressExtractor.calls (AddressExtractor.ext b))
                 (AddressExtractor.in_flight b) /\
               Permutation (AddressExtractor.pairs_held b)
                           (map AddressExtractor.item_pair items)).
  { cbv zeta. split; [exact (pool_invariant_holds opens items now st [])|].
    unfold AddressExtractor.extractAddresses, AddressExtractor.settle.
    destruct (processNext_pairs opens now items [] [] st
                (Forall_nil _) (Forall_nil _)) as [Hperm Hown].
    cbn [map app] in Hperm. rewrite app_nil_r in Hperm.
    assert (Hpool : AddressExtractor.pool_invariant before items
                      (AddressExtractor.processNext opens now items [] [] st)).
    { apply processNext_invariant.
      - cbn. unfold AddressExtractor.maxConcurrent. lia.
      - constructor.
      - constructor.
      - cbn. lia.
      - reflexivity. }
    set (b0 := AddressExtractor.processNext opens now items [] [] st) in *.
    destruct (run_callbacks_pairs opens now before items
                (length (AddressExtractor.queue b0) +
                 length (AddressExtractor.in_flight b0)) b0 Hpool Hown)
      as [Hperm' Hown'].
    split; [exact Hown'|]. now rewrite Hperm'. }
  cbv zeta in H0. unfold AddressExtractor.run. revert H0.
  generalize (AddressExtractor.extractAddresses opens items now st).
  induction evs as [|ev evs IH]; intros b (Hpool & Hown & Hperm); [exact Hperm|].
  cbn [fold_left]. apply IH.
  destruct (batch_step_pairs opens before items b ev Hpool Hown) as [Hperm' Hown'].
  split; [now apply batch_step_invariant|].
  split; [exact Hown'|]. now rewrite Hperm'.
Qed.

(** X2.  No pair is lost and none is counted twice: at every turn, for
    every state of the extractor, the pairs still queued, the pairs of the
    calls in flight and the pairs of the results collected are, taken
    together, the pairs given, each as often as it was given; the calls in
    flight are distinct calls; and a batch that has nothing queued and
    nothing in flight holds exactly one result for every pair given. *)
Theorem pool_conserves_pairs :
  forall (opens : nat -> bool) (items : list object) (now : jsstring)
         (st : AddressExtractor.state) (evs : list AddressExtractor.event),
    let b := AddressExtractor.run opens
               (AddressExtractor.extractAddresses opens items now st) evs in
    Permutation
      (map AddressExtractor.item_pair (AddressExtractor.queue b) ++
       map (AddressExtractor.flight_pair
              (AddressExtractor.calls (AddressExtractor.ext b)))
           (AddressExtractor.in_flight b) ++
       map AddressExtractor.result_pair (AddressExtractor.collected b))
      (map AddressExtractor.item_pair items) /\
    length (AddressExtractor.queue b) + length (AddressExtractor.in_flight b) +
      length (AddressExtractor.collected b) = length items /\
    NoDup (AddressExtractor.in_flight b) /\
    (if AddressExtractor.completed b
     then Permutation
            (map AddressExtractor.result_pair (AddressExtractor.collected b))
            (map AddressExtractor.item_pair items)
     else 0 < length (AddressExtractor.queue b) + length (AddressExtractor.in_flight b)).
Proof.
  intros opens items now st evs b.
  destruct (pool_invariant_holds opens items now st evs)
    as (_ & Hnd & _ & Hcount & _).
  pose proof (pairs_held_at_every_turn opens items now st evs) as Hperm.
  fold b in Hnd, Hcount, Hperm. unfold AddressExtractor.pairs_held in Hperm.
  repeat split; try assumption.
  unfold AddressExtractor.completed.
  destruct (AddressExtractor.queue b), (AddressExtractor.in_flight b);
    cbn in *; try lia.
  exact Hperm.
Qed.

(** X5.  Only a message writes the results cache.  A batch in which
    windows are blocked and timers expire, but no message arrives, leaves
    the cache as it found it: the failed results of such pairs are
    returned by the batch and are not what [getCachedResult] answers. *)
Theorem timeouts_and_blocked_windows_are_not_cached :
  forall (opens : nat -> bool) (items : list object) (now : jsstring)
         (st : AddressExtractor.state) (timers : list (nat * jsstring)) (sn : value),
    AddressExtractor.getCachedResult
      (AddressExtractor.ext
         (AddressExtractor.run opens
            (AddressExtractor.extractAddresses opens items now st)
            (map (fun t => AddressExtractor.TimerExpires (fst t) (snd t)) timers))) sn =
    AddressExtractor.getCachedResult st sn.
Proof.
  intros opens items now st timers sn. unfold AddressExtractor.getCachedResult.
  f_equal.
  assert (AddressExtractor.results (AddressExtractor.store (AddressExtractor.ext
            (AddressExtractor.extractAddresses opens items now st))) =
          AddressExtractor.results (AddressExtractor.store st)) as H0.
  { unfold AddressExtractor.extractAddresses, AddressExtractor.settle.
    now rewrite run_callbacks_results_cache, processNext_results. }
  rewrite <- H0. unfold AddressExtractor.run.
  generalize (AddressExtractor.extractAddresses opens items now st).
  induction timers as [|[i t] timers IH]; intros b; [reflexivity|].
  cbn [map fold_left fst snd]. rewrite IH.
  unfold AddressExtractor.batch_step, AddressExtractor.settle.
  rewrite run_callbacks_results_cache.
  cbn [AddressExtractor.ext AddressExtractor.deliver].
  apply fire_timeout_results.
Qed.

Lemma replace_nth_settled (cs : list AddressExtractor.call) (i : nat)
      (c c' : AddressExtractor.call) :
  nth_error cs i = Some c ->
  AddressExtractor.settled c' = AddressExtractor.settled c ->
  map AddressExtractor.settled (AddressExtractor.replace_nth i c' cs) =
  map AddressExtractor.settled cs.
Proof.
  revert i; induction cs as [|c0 cs IH]; intros [|i] Hi Hp; try discriminate.
  - injection Hi as ->. cbn. now rewrite Hp.
  - cbn. f_equal. now apply IH.
Qed.

(** X6.  [clearCache] empties the processing set, and with it the guard of
    every timer still armed: after it, the expiry of a timer settles
    nothing, so a call that was pending stays pending until a message for
    its order arrives. *)
Theorem clearCache_disarms_pending_timeouts :
  forall (st : AddressExtractor.state) (i : nat) (now : jsstring) (sn : value),
    let st' := AddressExtractor.fire_timeout i now (AddressExtractor.clearCache st) in
    map AddressExtractor.settled (AddressExtractor.calls st') =
      map AddressExtractor.settled (AddressExtractor.calls st) /\
    map AddressExtractor.listening (AddressExtractor.calls st') =
      map AddressExtractor.listening (AddressExtractor.calls st) /\
    AddressExtractor.processing (AddressExtractor.store st') = [] /\
    AddressExtractor.getCachedResult st' sn = None.
Proof.
  intros st i now sn. cbv zeta.
  unfold AddressExtractor.fire_timeout, AddressExtractor.clearCache,
    AddressExtractor.getCachedResult.
  cbn [AddressExtractor.calls AddressExtractor.store].
  destruct (nth_error (AddressExtractor.calls st) i) as [c|] eqn:Hi;
    [|repeat split; reflexivity].
  destruct (AddressExtractor.timeoutId c); try (repeat split; reflexivity).
  cbn. repeat split; try reflexivity.
  - now apply replace_nth_settled with (c := c).
  - clear sn. revert i Hi. generalize (AddressExtractor.calls st).
    induction l as [|c0 cs IH]; intros [|i] Hi; try discriminate; cbn.
    + now injection Hi as ->.
    + f_equal. now apply IH.
Qed.

(** ** What the page loop collects *)

Lemma read_pagination_keeps (ls : OrderCrawler.loop_state) (data : value) :
  OrderCrawler.allData (OrderCrawler.read_pagination ls data) = OrderCrawler.allData ls /\
  OrderCrawler.currentPage (OrderCrawler.read_pagination ls data) = OrderCrawler.currentPage ls.
Proof.
  unfold OrderCrawler.read_pagination.
  destruct (OrderCrawler.pagination_info data); split; reflexivity.
Qed.

(** One pass of the loop keeps the records it had, appends the records of
    the page if there are any, and goes on only after a page that brought
    at least one record. *)
Lemma page_step_appends (ls : OrderCrawler.loop_state) (r : OrderCrawler.http_result) :
  match OrderCrawler.page_step ls r with
  | OrderCrawler.Break ls' =>
      exists more, OrderCrawler.allData ls' = OrderCrawler.allData ls ++ more /\
                   OrderCrawler.currentPage ls' = OrderCrawler.currentPage ls
  | OrderCrawler.Continue ls' =>
      exists more, OrderCrawler.allData ls' = OrderCrawler.allData ls ++ more /\
                   0 < length more /\
                   OrderCrawler.currentPage ls' = S (OrderCrawler.currentPage ls)
  end.
Proof.
  unfold OrderCrawler.page_step.
  destruct (OrderCrawler.fetchPageData r) as [e|data].
  - exists []. now rewrite app_nil_r.
  - destruct (read_pagination_keeps ls data) as [Ha Hp].
    destruct (OrderCrawler.response_data data) as [| | | | |ref [|x records]|];
      try (exists []; now rewrite app_nil_r).
    destruct (OrderCrawler.has_more_false data); cbn.
    + exists (x :: records). now rewrite Ha.
    + exists (x :: records). rewrite Ha, Hp. repeat split. cbn. lia.
Qed.

(** X7.  Whatever the server answers, a crawl that ends has kept every
    record it held and appended the pages in the order received; a failed
    page loses nothing.  Every request but the last brought at least one
    record, so the loop never makes more requests than it collects
    records, plus one; and page numbers go up by one per page taken. *)
Theorem crawl_loop_keeps_what_it_collected :
  forall (Srv : Type) (respond : Srv -> OrderCrawler.request -> Srv * OrderCrawler.http_result)
         (dateRange : value) (fuel : nat) (sv : Srv)
         (ls ls' : OrderCrawler.loop_state) (n : nat),
    OrderCrawler.crawl_loop respond dateRange fuel sv ls = Some (ls', n) ->
    exists more,
      OrderCrawler.allData ls' = OrderCrawler.allData ls ++ more /\
      n <= S (length more) /\
      OrderCrawler.currentPage ls <= OrderCrawler.currentPage ls' /\
      OrderCrawler.currentPage ls' <= OrderCrawler.currentPage ls + n.
Proof.
  intros Srv respond dateRange.
  induction fuel as [|fuel IH]; intros sv ls ls' n H; cbn [OrderCrawler.crawl_loop] in H.
  - destruct (truthy (OrderCrawler.hasMoreData ls)); [discriminate|].
    injection H as <- <-. exists []. rewrite app_nil_r. cbn. repeat split; lia.
  - destruct (truthy (OrderCrawler.hasMoreData ls)).
    2:{ injection H as <- <-. exists []. rewrite app_nil_r. cbn. repeat split; lia. }
    destruct (respond sv (OrderCrawler.next_request dateRange ls)) as [sv' r].
    pose proof (page_step_appends ls r) as Hstep.
    destruct (OrderCrawler.page_step ls r) as [ls1|ls1].
    + destruct Hstep as (more1 & Ha1 & Hpos & Hp1).
      destruct (OrderCrawler.crawl_loop respond dateRange fuel sv' ls1)
        as [[ls2 k]|] eqn:Hrest; [|discriminate].
      injection H as <- <-.
      destruct (IH sv' ls1 ls2 k Hrest) as (more2 & Ha2 & Hk & Hlo & Hhi).
      exists (more1 ++ more2). rewrite Ha2, Ha1, <- app_assoc, length_app.
      repeat split; lia.
    + destruct Hstep as (more1 & Ha1 & Hp1). injection H as <- <-.
      exists more1. repeat split; try lia. exact Ha1.
Qed.

Lemma crawl_loop_keeps_what_it_collected_witness :
  exists ls' n more,
    OrderCrawler.crawl_loop OrderCrawler.sample_server VNull 5 0
      OrderCrawler.initial_loop_state = Some (ls', n) /\
    OrderCrawler.allData ls' = more /\ n = 3 /\ length more = 4.
Proof.
  destruct (OrderCrawler.crawl_loop OrderCrawler.sample_server VNull 5 0
              OrderCrawler.initial_loop_state) as [[ls' n]|] eqn:H;
    [|vm_compute in H; discriminate].
  destruct (crawl_loop_keeps_what_it_collected nat OrderCrawler.sample_server VNull
              5 0 _ _ _ H) as (more & Ha & _).
  exists ls', n, more. split; [reflexivity|]. split; [exact Ha|].
  vm_compute in H. injection H as <- <-. cbn in Ha. subst more. split; reflexivity.
Defined.

(** ** The cache of the crawler after a crawl *)

Lemma filtered_records_usable (dataArray : value) :
  Forall (fun o => usable (lookup o OrderCrawler.RETURN_ID) /\
                   usable (lookup o OrderCrawler.RETURN_SN))
         (fst (OrderCrawler.filterValidData dataArray)).
Proof.
  destruct dataArray as [| | | | |ref items|]; try constructor.
  cbn [OrderCrawler.filterValidData fst].
  apply Forall_forall. intros o Ho.
  apply in_map_iff in Ho as [item [<- Hin]].
  apply filter_In in Hin as [_ Hv].
  apply valid_item_spec in Hv as (_ & Hid & Hsn).
  rewrite lookup_keep_id, lookup_keep_sn. now split.
Qed.

Lemma set_keeps_entries (P : value * value -> Prop) (m : JsMap.t value) (k v : value) :
  (forall k' v', P (k', v') -> P (k', v)) ->
  Forall P m -> P (k, v) -> Forall P (JsMap.set m k v).
Proof.
  intros Hrep Hm Hkv. induction m as [|[k0 v0] m IH]; cbn.
  - now repeat constructor.
  - inversion Hm as [|? ? H0 Hm']; subst.
    destruct (same_value_zero k0 k); constructor; eauto.
Qed.

Lemma index_entries_usable (filtered : list object) (m : JsMap.t value) :
  Forall (fun o => usable (lookup o OrderCrawler.RETURN_ID) /\
                   usable (lookup o OrderCrawler.RETURN_SN)) filtered ->
  Forall (fun kv => usable (fst kv) /\ usable (snd kv)) m ->
  Forall (fun kv => usable (fst kv) /\ usable (snd kv))
         (fold_left OrderCrawler.index_step filtered m).
Proof.
  revert m; induction filtered as [|item filtered IH]; intros m Hf Hm; [exact Hm|].
  inversion Hf as [|? ? [Hid Hsn] Hf']; subst. cbn [fold_left]. apply IH; [exact Hf'|].
  unfold OrderCrawler.index_step.
  apply set_keeps_entries with (P := fun kv => usable (fst kv) /\ usable (snd kv)).
  - cbn. intros k' v' [Hk _]. now split.
  - exact Hm.
  - now split.
Qed.

Lemma distinct_keys_length (l : list value) :
  length (OrderCrawler.distinct_keys l) <= length l.
Proof.
  induction l as [|k l IH]; cbn; [lia|].
  destruct (existsb (same_value_zero k) l); cbn; lia.
Qed.

Lemma find_in_entries (m : JsMap.t value) (k v : value) :
  JsMap.find m k = Some v -> exists k', In (k', v) m.
Proof.
  induction m as [|[k0 v0] m IH]; cbn; [discriminate|].
  destruct (same_value_zero k0 k).
  - intros [= <-]. exists k0. now left.
  - intros H. destruct (IH H) as [k' Hin]. exists k'. now right.
Qed.

Lemma crawl_cache_is_consistent_aux
      (Srv : Type) (respond : Srv -> OrderCrawler.request -> Srv * OrderCrawler.http_result)
      (fuel : nat) (dateRange : option value) (now : number) (sv : Srv)
      (c c' : OrderCrawler.cache) (filtered : list object) :
  OrderCrawler.crawlOrders respond fuel dateRange now sv c = Some (inr (filtered, c')) ->
  (forall k, JsMap.has (OrderCrawler.getCachedMap c') k =
             existsb (same_value_zero k)
               (map (fun item => lookup item OrderCrawler.RETURN_SN) filtered)) /\
  Forall (fun kv => usable (fst kv) /\ usable (snd kv)) (OrderCrawler.getCachedMap c').
Proof.
  intros H. unfold OrderCrawler.crawlOrders in H.
  destruct dateRange as [range|]; [|discriminate].
  destruct (OrderCrawler.crawl_loop respond range fuel sv _) as [[ls n]|];
    [|discriminate].
  injection H as <- <-.
  unfold OrderCrawler.getCachedMap, OrderCrawler.build_index, JsMap.clear.
  cbn [OrderCrawler.snToIdMap]. split.
  - intros k. apply has_fold_index.
  - apply index_entries_usable; [|constructor].
    exact (filtered_records_usable (VArr 0 (OrderCrawler.allData ls))).
Qed.

(** X8.  After a crawl that completes, the counts of [getCacheInfo] are
    ordered, index entries <= filtered records <= raw records; the index
    has a key exactly when a filtered record has it; and no key and no id
    of the index is null, undefined, the empty string or zero. *)
Theorem crawl_cache_is_consistent :
  forall (Srv : Type) (respond : Srv -> OrderCrawler.request -> Srv * OrderCrawler.http_result)
         (fuel : nat) (dateRange : option value) (now : number) (sv : Srv)
         (c c' : OrderCrawler.cache) (filtered : list object),
    OrderCrawler.crawlOrders respond fuel dateRange now sv c = Some (inr (filtered, c')) ->
    let info := OrderCrawler.getCacheInfo c' in
    OrderCrawler.getCachedData c' = filtered /\
    OrderCrawler.mappingCount info <= OrderCrawler.filteredDataCount info /\
    OrderCrawler.filteredDataCount info <= OrderCrawler.rawDataCount info /\
    OrderCrawler.lastUpdateShown info = Some now /\
    (forall k, JsMap.has (OrderCrawler.getCachedMap c') k =
               existsb (same_value_zero k)
                 (map (fun item => lookup item OrderCrawler.RETURN_SN) filtered)) /\
    Forall (fun kv => usable (fst kv) /\ usable (snd kv)) (OrderCrawler.getCachedMap c').
Proof.
  intros Srv respond fuel dateRange now sv c c' filtered H.
  destruct (crawl_cache_is_consistent_aux Srv respond fuel dateRange now sv c c'
              filtered H) as [Hhas Huse].
  unfold OrderCrawler.crawlOrders in H.
  destruct dateRange as [range|]; [|discriminate].
  destruct (OrderCrawler.crawl_loop respond range fuel sv _) as [[ls n]|];
    [|discriminate].
  injection H as <- <-. cbv zeta.
  split; [reflexivity|]. split; [|split; [|split; [reflexivity|now split]]].
  - unfold OrderCrawler.getCacheInfo, OrderCrawler.build_index, JsMap.clear.
    cbn [OrderCrawler.filteredData OrderCrawler.snToIdMap
         OrderCrawler.mappingCount OrderCrawler.filteredDataCount].
    rewrite size_fold_index.
    etransitivity; [apply distinct_keys_length|]. now rewrite length_map.
  - cbn. rewrite length_map. apply filter_length_le.
Qed.

Lemma crawl_cache_is_consistent_witness :
  exists filtered c',
    OrderCrawler.crawlOrders OrderCrawler.sample_server 5 (Some VNull)
      (num_of_nat 0) 0 OrderCrawler.empty_cache = Some (inr (filtered, c')) /\
    OrderCrawler.mappingCount (OrderCrawler.getCacheInfo c') = 2 /\
    OrderCrawler.filteredDataCount (OrderCrawler.getCacheInfo c') = 3 /\
    OrderCrawler.rawDataCount (OrderCrawler.getCacheInfo c') = 4 /\
    OrderCrawler.getCachedData c' = filtered.
Proof.
  eexists _, _. split; [vm_compute; reflexivity|].
  repeat (split; [reflexivity|]).
  match goal with
  | |- OrderCrawler.getCachedData ?c = _ =>
      exact (proj1 (crawl_cache_is_consistent
                      nat OrderCrawler.sample_server 5 (Some VNull) (num_of_nat 0) 0
                      OrderCrawler.empty_cache c _ eq_refl))
  end.
Defined.

(** X9.  From the crawler to the matcher: whatever keys are matched
    against the index of a completed crawl, every matched result carries
    an id that is not null, undefined, empty or zero, and the key of a
    filtered record. *)
Theorem matches_against_crawl_have_usable_ids :
  forall (Srv : Type) (respond : Srv -> OrderCrawler.request -> Srv * OrderCrawler.http_result)
         (fuel : nat) (dateRange : option value) (now : number) (sv : Srv)
         (c c' : OrderCrawler.cache) (filtered : list object)
         (userSns : option (list value)) (mc : SNMatcher.cache),
    OrderCrawler.crawlOrders respond fuel dateRange now sv c = Some (inr (filtered, c')) ->
    let r := fst (fst (SNMatcher.matchReturnSns userSns
                         (Some (OrderCrawler.getCachedMap c')) mc)) in
    Forall (fun o => usable (lookup o SNMatcher.RETURN_ID) /\
                     existsb (same_value_zero (lookup o SNMatcher.RETURN_SN))
                       (map (fun item => lookup item OrderCrawler.RETURN_SN) filtered)
                     = true)
           (SNMatcher.matched r).
Proof.
  intros Srv respond fuel dateRange now sv c c' filtered userSns mc H.
  destruct (crawl_cache_is_consistent_aux Srv respond fuel dateRange now sv c c' filtered H)
    as [Hhas Huse].
  cbv zeta. revert Hhas Huse. generalize (OrderCrawler.getCachedMap c').
  intros cm Hhas Huse.
  destruct userSns as [[|sn sns]|]; try constructor.
  assert (forall key, JsMap.has cm key = true ->
                      usable (JsMap.get cm key) /\
                      existsb (same_value_zero key)
                        (map (fun item => lookup item OrderCrawler.RETURN_SN) filtered)
                      = true) as Hgood.
  { intros key Hkey. split; [|now rewrite <- Hhas].
    unfold JsMap.get. rewrite has_find in Hkey.
    destruct (JsMap.find cm key) as [v|] eqn:F; [|discriminate].
    destruct (find_in_entries cm key v F) as [k' Hin].
    rewrite Forall_forall in Huse. exact (proj2 (Huse _ Hin)). }
  clear Hhas Huse.
  destruct cm as [|kv cm']; [constructor|].
  cbn [SNMatcher.matchReturnSns fst SNMatcher.matched].
  rewrite fold_match_hits. cbn [SNMatcher.hits app].
  apply Forall_forall. intros o Ho.
  apply in_map_iff in Ho as [key [<- Hin]].
  apply filter_In in Hin as [_ Hkey].
  exact (Hgood key Hkey).
Qed.

Lemma matches_against_crawl_have_usable_ids_witness :
  exists filtered c',
    OrderCrawler.crawlOrders OrderCrawler.sample_server 5 (Some VNull)
      (num_of_nat 0) 0 OrderCrawler.empty_cache = Some (inr (filtered, c')) /\
    Forall (fun o => usable (lookup o SNMatcher.RETURN_ID) /\
                     existsb (same_value_zero (lookup o SNMatcher.RETURN_SN))
                       (map (fun item => lookup item OrderCrawler.RETURN_SN) filtered)
                     = true)
           (SNMatcher.matched
              (fst (fst (SNMatcher.matchReturnSns
                           (Some [VStr (lit "SN002"); VStr (lit "SN404")])
                           (Some (OrderCrawler.getCachedMap c'))
                           {| SNMatcher.userInput := [];
                              SNMatcher.matchedResults := [];
                              SNMatcher.unmatchedSns := [];
                              SNMatcher.snToIdMap := JsMap.empty value |})))).
Proof.
  eexists _, _. split; [vm_compute; reflexivity|].
  match goal with
  | |- context [OrderCrawler.getCachedMap ?c] =>
      exact (matches_against_crawl_have_usable_ids
               nat OrderCrawler.sample_server 5 (Some VNull) (num_of_nat 0) 0
               OrderCrawler.empty_cache c _
               (Some [VStr (lit "SN002"); VStr (lit "SN404")])
               {| SNMatcher.userInput := [];
                  SNMatcher.matchedResults := [];
                  SNMatcher.unmatchedSns := [];
                  SNMatcher.snToIdMap := JsMap.empty value |}
               eq_refl)
  end.
Defined.

(** ** The matcher: split, summary, repetition *)

Lemma filter_split_permutation (A : Type) (f : A -> bool) (l : list A) :
  Permutation (filter f l ++ filter (fun x => negb (f x)) l) l.
Proof.
  induction l as [|x l IH]; cbn; [constructor|].
  destruct (f x); cbn.
  - now constructor.
  - etransitivity; [symmetry; apply Permutation_middle|]. now constructor.
Qed.

Lemma hit_keys (cm : JsMap.t value) (l : list value) :
  map (fun o => lookup o SNMatcher.RETURN_SN) (map (SNMatcher.hit cm) l) = l.
Proof.
  rewrite map_map. induction l as [|k l IH]; [reflexivity|].
  cbn [map]. f_equal; solve [reflexivity | exact IH].
Qed.

(** X10.  On every input, error paths included, the keys of the matched
    results followed by the unmatched keys are a rearrangement of the keys
    given: no key is dropped, none is invented, a key entered twice is
    reported twice; and every matched result pairs its key with the id
    the crawled map holds for it. *)
Theorem matchReturnSns_splits_the_keys :
  forall (userSns : option (list value)) (crawledMap : option (JsMap.t value))
         (c : SNMatcher.cache),
    let r := fst (fst (SNMatcher.matchReturnSns userSns crawledMap c)) in
    Permutation (map (fun o => lookup o SNMatcher.RETURN_SN) (SNMatcher.matched r) ++
                 SNMatcher.unmatched r)
                (SNMatcher.keys_given userSns) /\
    length (SNMatcher.matched r) + length (SNMatcher.unmatched r) =
      length (SNMatcher.keys_given userSns) /\
    Forall (fun o => lookup o SNMatcher.RETURN_ID =
                     SNMatcher.crawled_id crawledMap (lookup o SNMatcher.RETURN_SN))
           (SNMatcher.matched r).
Proof.
  intros userSns crawledMap c. cbv zeta.
  destruct userSns as [[|sn sns]|];
    try (cbn; repeat split; constructor).
  destruct crawledMap as [[|kv cm]|];
    try (cbn; repeat split; try constructor; apply Permutation_refl).
  cbn [SNMatcher.matchReturnSns fst SNMatcher.matched SNMatcher.unmatched
       SNMatcher.keys_given].
  rewrite fold_match_hits, fold_match_misses. cbn [SNMatcher.hits SNMatcher.misses app].
  set (m := kv :: cm). set (l := sn :: sns).
  assert (Permutation
            (map (fun o => lookup o SNMatcher.RETURN_SN)
                 (map (SNMatcher.hit m) (filter (JsMap.has m) l)) ++
             filter (fun s => negb (JsMap.has m s)) l) l) as HP.
  { rewrite hit_keys. apply filter_split_permutation. }
  split; [exact HP|]. split.
  - apply Permutation_length in HP. rewrite length_app, length_map in HP. exact HP.
  - apply Forall_forall. intros o Ho. apply in_map_iff in Ho as [k [<- _]]. reflexivity.
Qed.

(** X11.  From the parser to the matcher to the summary: when the parsed
    keys are matched against a non-empty index, [getCacheInfo] counts the
    parsed keys as input, its matched and unmatched counts add up to that
    input count, and the rate it shows is the text whose value the match
    returned. *)
Theorem parse_then_match_summary_adds_up :
  forall (input : value) (c : SNMatcher.cache) (cm : JsMap.t value),
    let parsed := SNMatcher.parseUserInput input c in
    let keys := fst (fst parsed) in
    let done := SNMatcher.matchReturnSns (Some (map VStr keys)) (Some cm) (snd parsed) in
    let info := SNMatcher.getCacheInfo (snd done) in
    keys <> [] ->
    cm <> [] ->
    SNMatcher.userInputCount info = length keys /\
    SNMatcher.matchedCount info + SNMatcher.unmatchedCount info =
      SNMatcher.userInputCount info /\
    exists txt, SNMatcher.matchRateShown info = Some txt /\
                SNMatcher.matchRate (fst (fst done)) = parseFloat txt.
Proof.
  intros input c cm. cbv zeta. intros Hkeys Hcm.
  assert (SNMatcher.userInput (snd (SNMatcher.parseUserInput input c)) =
          fst (fst (SNMatcher.parseUserInput input c))) as Hin.
  { revert Hkeys. unfold SNMatcher.parseUserInput.
    destruct input as [| | | |[|ch s]| |]; try (cbn; congruence).
    destruct (fold_left _ _ _) as [valid invalid].
    destruct (Nat.eqb (length valid) 0); cbn; [congruence|reflexivity]. }
  revert Hkeys Hin.
  generalize (fst (fst (SNMatcher.parseUserInput input c))).
  generalize (snd (SNMatcher.parseUserInput input c)).
  intros c1 keys Hkeys Hin.
  destruct keys as [|k keys]; [contradiction|].
  destruct cm as [|kv cm]; [contradiction|].
  cbn [map SNMatcher.matchReturnSns snd fst SNMatcher.getCacheInfo
       SNMatcher.userInputCount SNMatcher.matchedCount SNMatcher.unmatchedCount
       SNMatcher.matchRateShown SNMatcher.userInput SNMatcher.matchedResults
       SNMatcher.unmatchedSns SNMatcher.matchRate].
  rewrite Hin. split; [reflexivity|].
  rewrite fold_match_hits, fold_match_misses. cbn [SNMatcher.hits SNMatcher.misses app].
  rewrite length_map.
  change (VStr k :: map VStr keys) with (map VStr (k :: keys)).
  split.
  - pose proof (filter_length_split _ (JsMap.has (kv :: cm)) (map VStr (k :: keys))) as H.
    rewrite length_map in H. cbn [length] in *. lia.
  - cbn [length Nat.ltb Nat.leb]. eexists. split; [reflexivity|].
    now rewrite !length_map.
Qed.

Lemma parse_then_match_summary_adds_up_witness :
  let c0 := {| SNMatcher.userInput := []; SNMatcher.matchedResults := [];
               SNMatcher.unmatchedSns := [];
               SNMatcher.snToIdMap := JsMap.empty value |} in
  let cm := [(VStr (lit "SN001"), VStr (lit "501"))] in
  let parsed := SNMatcher.parseUserInput (VStr (lit "SN001" ++ [LF] ++ lit " sn-2" ++ [LF] ++ lit "SN404")) c0 in
  let done := SNMatcher.matchReturnSns (Some (map VStr (fst (fst parsed)))) (Some cm)
                (snd parsed) in
  let info := SNMatcher.getCacheInfo (snd done) in
  SNMatcher.userInputCount info = 2 /\
  SNMatcher.matchedCount info + SNMatcher.unmatchedCount info =
    SNMatcher.userInputCount info.
Proof.
  cbv zeta.
  destruct (parse_then_match_summary_adds_up
              (VStr (lit "SN001" ++ [LF] ++ lit " sn-2" ++ [LF] ++ lit "SN404"))
              {| SNMatcher.userInput := []; SNMatcher.matchedResults := [];
                 SNMatcher.unmatchedSns := [];
                 SNMatcher.snToIdMap := JsMap.empty value |}
              [(VStr (lit "SN001"), VStr (lit "501"))])
    as (Hn & Hsum & _); try (vm_compute; discriminate).
  split; [exact Hn | exact Hsum].
Defined.

Lemma set_same_value (m : JsMap.t value) (k v : value) :
  JsMap.find m k = Some v -> JsMap.set m k v = m.
Proof.
  induction m as [|[k0 v0] m IH]; cbn; [discriminate|].
  destruct (same_value_zero k0 k).
  - now intros [= ->].
  - intros H. now rewrite IH.
Qed.

Lemma fold_match_memo_fixed (cm : JsMap.t value) (sns : list value)
      (acc : SNMatcher.scan) :
  (forall sn, In sn sns -> JsMap.has cm sn = true ->
              JsMap.find (SNMatcher.memo acc) sn = Some (JsMap.get cm sn)) ->
  SNMatcher.memo (fold_left (SNMatcher.match_one cm) sns acc) = SNMatcher.memo acc.
Proof.
  revert acc; induction sns as [|sn sns IH]; intros acc H; [reflexivity|].
  cbn [fold_left]. rewrite IH.
  - unfold SNMatcher.match_one. destruct (JsMap.has cm sn) eqn:Hsn; [|reflexivity].
    cbn [SNMatcher.memo]. apply set_same_value. apply H; [now left|exact Hsn].
  - intros sn' Hin Hhas. unfold SNMatcher.match_one.
    destruct (JsMap.has cm sn) eqn:Hsn; cbn [SNMatcher.memo].
    + rewrite set_same_value; [|apply H; [now left|exact Hsn]].
      apply H; [now right|exact Hhas].
    + apply H; [now right|exact Hhas].
Qed.

Lemma existsb_svz_in (k : value) (l : list value) :
  In k l -> existsb (same_value_zero k) l = true.
Proof.
  intros H. apply existsb_exists. exists k. split; [exact H|apply svz_refl].
Qed.

(** X12.  Matching is idempotent: a second call with the same keys and the
    same crawled map returns the same outcome and leaves the whole cache,
    its map included, exactly as the first call left it. *)
Theorem matchReturnSns_twice_is_once :
  forall (userSns : option (list value)) (crawledMap : option (JsMap.t value))
         (c : SNMatcher.cache),
    let first := SNMatcher.matchReturnSns userSns crawledMap c in
    let second := SNMatcher.matchReturnSns userSns crawledMap (snd first) in
    fst (fst second) = fst (fst first) /\ snd second = snd first.
Proof.
  intros userSns crawledMap c. cbv zeta.
  destruct userSns as [[|sn sns]|]; try (split; reflexivity).
  destruct crawledMap as [[|kv cm]|]; try (split; reflexivity).
  cbn [SNMatcher.matchReturnSns fst snd].
  rewrite !fold_match_hits, !fold_match_misses.
  cbn [SNMatcher.hits SNMatcher.misses SNMatcher.memo SNMatcher.userInput app].
  split; [reflexivity|]. f_equal.
  rewrite fold_match_memo_fixed; [reflexivity|].
  cbn [SNMatcher.memo SNMatcher.snToIdMap]. intros k Hin Hhas.
  rewrite fold_match_memo, (existsb_svz_in k (sn :: sns) Hin), Hhas. cbn [andb].
  unfold JsMap.get. rewrite has_find in Hhas.
  now destruct (JsMap.find (kv :: cm) k).
Qed.

(** ** The parser on its own output *)

Lemma upper_alnum_not_space (c : code_unit) :
  ShopeeUtils.upper_alnum c = true -> is_js_space c = false /\ N.eqb c LF = false.
Proof.
  unfold ShopeeUtils.upper_alnum, is_js_space, LF. cbn [existsb].
  rewrite orb_true_iff, !andb_true_iff, !N.leb_le. intros H.
  assert (48 <= c <= 90)%N as Hc by lia.
  repeat match goal with
         | |- context [N.eqb c ?k] =>
             let E := fresh in
             destruct (N.eqb_spec c k) as [E|E]; [exfalso; lia|]
         end.
  split; [|reflexivity]. cbn [orb].
  destruct (N.leb_spec 8192 c); [lia|reflexivity].
Qed.

Lemma well_formed_key_chars (k : jsstring) :
  ShopeeUtils.validateReturnSn k = true ->
  3 <= length k /\ forallb ShopeeUtils.upper_alnum k = true.
Proof.
  rewrite validateReturnSn_spec. unfold ShopeeUtils.well_formed_key.
  rewrite !andb_true_iff, Nat.leb_le. tauto.
Qed.

Lemma trim_start_fixed (s : jsstring) :
  forallb (fun c => negb (is_js_space c)) s = true -> trim_start s = s.
Proof.
  destruct s as [|c s]; [reflexivity|]. cbn.
  rewrite andb_true_iff, negb_true_iff. now intros [-> _].
Qed.

Lemma trim_fixed (s : jsstring) :
  forallb (fun c => negb (is_js_space c)) s = true -> trim s = s.
Proof.
  intros H. unfold trim, trim_end. rewrite (trim_start_fixed s H).
  rewrite trim_start_fixed; [apply rev_involutive|].
  rewrite forallb_forall in *. intros c Hc. apply H. now apply in_rev.
Qed.

Lemma filter_none (A : Type) (f : A -> bool) (l : list A) :
  forallb f l = true -> filter (fun x => negb (f x)) l = [].
Proof.
  induction l as [|x l IH]; [reflexivity|]. cbn.
  rewrite andb_true_iff. intros [-> H]. now rewrite IH.
Qed.

Lemma map_fixed (A : Type) (f : A -> A) (l : list A) :
  Forall (fun x => f x = x) l -> map f l = l.
Proof. induction 1; cbn; congruence. Qed.

(** The parser returns well-formed keys and nothing else. *)
Lemma parseUserInput_keys_valid (input : value) (c : SNMatcher.cache) :
  forallb ShopeeUtils.validateReturnSn
          (fst (fst (SNMatcher.parseUserInput input c))) = true.
Proof.
  unfold SNMatcher.parseUserInput.
  destruct input as [| | | |[|ch s]| |]; try reflexivity.
  rewrite fold_sort_line. cbn [app fst snd].
  destruct (Nat.eqb _ 0); [reflexivity|]. cbn [fst].
  apply forallb_forall. intros k Hk. now apply filter_In in Hk.
Qed.

Lemma parse_of_valid_keys (keys : list jsstring) (c : SNMatcher.cache) :
  keys <> [] ->
  forallb ShopeeUtils.validateReturnSn keys = true ->
  fst (fst (SNMatcher.parseUserInput (VStr (join_with [LF] keys)) c)) = keys.
Proof.
  intros Hne Hvalid.
  assert (Forall (fun k => 3 <= length k /\
                           forallb (fun ch => negb (is_js_space ch)) k = true /\
                           forallb (fun ch => negb (N.eqb ch LF)) k = true) keys) as Hk.
  { apply Forall_forall. intros k Hin.
    rewrite forallb_forall in Hvalid.
    destruct (well_formed_key_chars k (Hvalid k Hin)) as [Hlen Hch].
    rewrite forallb_forall in Hch.
    repeat split; [exact Hlen| |]; apply forallb_forall; intros ch Hc;
      destruct (upper_alnum_not_space ch (Hch ch Hc)) as [H1 H2];
      now rewrite ?H1, ?H2. }
  assert (SNMatcher.input_lines (join_with [LF] keys) = keys) as Hlines.
  { unfold SNMatcher.input_lines.
    rewrite split_on_join; [|exact Hne|].
    2:{ eapply Forall_impl; [|exact Hk]. cbn. tauto. }
    rewrite map_fixed.
    2:{ eapply Forall_impl; [|exact Hk]. cbn. intros k (_ & H & _). now apply trim_fixed. }
    apply filter_all. apply forallb_forall. intros k Hin.
    rewrite Forall_forall in Hk. destruct (Hk k Hin) as [Hlen _].
    destruct k; cbn in *; [lia|reflexivity]. }
  destruct (join_with [LF] keys) as [|ch s] eqn:Hjoin.
  { destruct keys as [|k keys]; [contradiction|].
    inversion Hk as [|? ? [Hlen _] _]; subst.
    cbn [join_with] in Hjoin. destruct keys; destruct k; cbn in *; try lia; discriminate. }
  unfold SNMatcher.parseUserInput. rewrite Hlines, fold_sort_line.
  rewrite (filter_all _ _ keys Hvalid), (filter_none _ _ keys Hvalid). cbn [app].
  destruct keys as [|k keys]; [contradiction|]. reflexivity.
Qed.

(** X13.  The parser accepts its own output: when it returns keys, writing
    them one per line and parsing that text returns the same keys in the
    same order, so nothing it lets through is rejected, changed or split
    on a second pass. *)
Theorem parseUserInput_accepts_its_own_output :
  forall (input : value) (c c' : SNMatcher.cache),
    let keys := fst (fst (SNMatcher.parseUserInput input c)) in
    keys <> [] ->
    fst (fst (SNMatcher.parseUserInput (VStr (join_with [LF] keys)) c')) = keys.
Proof.
  intros input c c'. cbv zeta. intros Hne.
  apply parse_of_valid_keys; [exact Hne|apply parseUserInput_keys_valid].
Qed.

Lemma parseUserInput_accepts_its_own_output_witness :
  fst (fst (SNMatcher.parseUserInput
              (VStr (join_with [LF] [lit "SN001"; lit "ABC123"]))
              {| SNMatcher.userInput := []; SNMatcher.matchedResults := [];
                 SNMatcher.unmatchedSns := [];
                 SNMatcher.snToIdMap := JsMap.empty value |})) =
  [lit "SN001"; lit "ABC123"].
Proof.
  apply (parseUserInput_accepts_its_own_output
           (VStr (lit "  SN001 " ++ [13; 10]%N ++ lit "bad key" ++ [LF] ++ lit "ABC123"))
           {| SNMatcher.userInput := []; SNMatcher.matchedResults := [];
              SNMatcher.unmatchedSns := [];
              SNMatcher.snToIdMap := JsMap.empty value |}).
  vm_compute. discriminate.
Defined.

(** ** The classifier on every value *)

Lemma scan_rules_array (ref : nat) (elems : list value) :
  exists label,
    AddressExtractor.identifyWarehouse (VArr ref elems) = Normal label /\
    In label [lit "BI JKT"; lit "BI SMR"; lit "BI SBY"; AddressExtractor.LABEL_OTHER].
Proof.
  unfold AddressExtractor.identifyWarehouse. rewrite object_entries_warehouseRules.
  cbn [truthy negb AddressExtractor.scan_rules AddressExtractor.includes_call].
  repeat match goal with
         | |- context [if existsb ?f elems then _ else _] =>
             destruct (existsb f elems);
             [eexists; split; [reflexivity|cbn; tauto]|]
         end.
  eexists; split; [reflexivity|cbn; tauto].
Qed.

(** X14.  [identifyWarehouse] throws a TypeError exactly on the truthy
    values that are neither strings nor arrays (true, non-zero numbers,
    objects); on every other value it returns one of its five labels, and
    on every falsy value the label for unknown. *)
Theorem identifyWarehouse_throws_on_other_truthy_values :
  forall v : value,
    throws (AddressExtractor.identifyWarehouse v) =
      truthy v && negb (is_string v) && negb (is_array v) /\
    match AddressExtractor.identifyWarehouse v with
    | Normal label =>
        In label [lit "BI JKT"; lit "BI SMR"; lit "BI SBY";
                  AddressExtractor.LABEL_OTHER; AddressExtractor.LABEL_UNKNOWN] /\
        (if truthy v then True else label = AddressExtractor.LABEL_UNKNOWN)
    | ThrowTypeError => True
    end.
Proof.
  intros [| |b|x|s|ref elems|ref o].
  - split; [reflexivity|]. cbn. tauto.
  - split; [reflexivity|]. cbn. tauto.
  - destruct b; split; try reflexivity; cbn; tauto.
  - unfold AddressExtractor.identifyWarehouse.
    destruct (truthy (VNum x)) eqn:T; cbn [negb].
    + rewrite object_entries_warehouseRules. split; [reflexivity|exact I].
    + split; [reflexivity|]. cbn. tauto.
  - rewrite identifyWarehouse_string.
    split; [cbn [throws is_string negb]; now rewrite andb_false_r|].
    destruct s as [|c s]; [cbn; tauto|]. cbn [truthy]. split; [|exact I].
    destruct (str_includes (lit "14460") (c :: s)); [cbn; tauto|].
    destruct (str_includes (lit "50121") (c :: s)); [cbn; tauto|].
    destruct (str_includes (lit "61254") (c :: s)); cbn; tauto.
  - destruct (scan_rules_array ref elems) as (label & -> & Hin).
    split; [reflexivity|]. split; [|exact I]. cbn in *. tauto.
  - split; [reflexivity|exact I].
Qed.

(** ** The CSRF token *)

Lemma cookie_parts_split (cookie name : jsstring) (fields : list jsstring) :
  ShopeeUtils.cookie_parts cookie name fields ->
  split_on ShopeeUtils.EQUALS (trim cookie) = name :: fields.
Proof.
  intros (core & Htrim & Hcut).
  rewrite <- (trimmed_of_unique cookie core Htrim).
  symmetry. exact (cut_at_unique _ _ _ Hcut).
Qed.

Lemma cookie_parts_exist (cookie : jsstring) :
  exists name fields, ShopeeUtils.cookie_parts cookie name fields.
Proof.
  destruct (split_on_cons ShopeeUtils.EQUALS (trim cookie)) as (n & fs & E).
  exists n, fs, (trim cookie). split; [apply trimmed_of_trim|].
  rewrite <- E. apply cut_at_split_on.
Qed.

Lemma is_token_cookie_named (cookie name : jsstring) (fields : list jsstring) :
  ShopeeUtils.cookie_parts cookie name fields ->
  ShopeeUtils.is_token_cookie cookie = true <-> ShopeeUtils.token_name name.
Proof.
  intros H. unfold ShopeeUtils.is_token_cookie, ShopeeUtils.cookie_name.
  rewrite (cookie_parts_split _ _ _ H). cbn [hd].
  unfold ShopeeUtils.token_name.
  now rewrite orb_true_iff, !jsstring_eqb_eq.
Qed.

Lemma scan_cookies_skips (earlier rest : list jsstring) :
  Forall (fun p => exists n fs, ShopeeUtils.cookie_parts p n fs /\
                                ~ ShopeeUtils.token_name n) earlier ->
  ShopeeUtils.scan_cookies (earlier ++ rest) = ShopeeUtils.scan_cookies rest.
Proof.
  induction 1 as [|p earlier (n & fs & Hp & Hn) _ IH]; [reflexivity|].
  cbn [app ShopeeUtils.scan_cookies].
  destruct (ShopeeUtils.is_token_cookie p) eqn:E; [|exact IH].
  now apply (is_token_cookie_named p n fs Hp) in E.
Qed.

(** X15.  [getCsrfToken] answers with the first cookie of [document.cookie]
    that is named csrftoken or _token.  Cut the cookie string at every
    semicolon; strip each cookie of the white space around it and cut it
    at every equals sign into a name and fields (this can always be done).
    If a cookie has one of the two names and no cookie before it has, the
    answer is its first field, the text between its first and its second
    equals sign, and undefined if it has no equals sign; the meta tag is
    not consulted.  If no cookie has one of the two names, the answer is
    the content of the meta tag, or null. *)
Theorem getCsrfToken_reads_first_named_cookie :
  forall (document_cookie : jsstring) (csrfMeta : option (option jsstring)),
    (exists cookies,
        cut_at ShopeeUtils.SEMICOLON document_cookie cookies /\
        Forall (fun p => exists n fs, ShopeeUtils.cookie_parts p n fs) cookies) /\
    (forall (earlier later : list jsstring) (cookie name : jsstring)
            (fields : list jsstring),
        cut_at ShopeeUtils.SEMICOLON document_cookie (earlier ++ cookie :: later) ->
        Forall (fun p => exists n fs, ShopeeUtils.cookie_parts p n fs /\
                                      ~ ShopeeUtils.token_name n) earlier ->
        ShopeeUtils.cookie_parts cookie name fields ->
        ShopeeUtils.token_name name ->
        ShopeeUtils.getCsrfToken document_cookie csrfMeta =
        match fields with
        | [] => VUndefined
        | v :: _ => VStr v
        end) /\
    (forall cookies : list jsstring,
        cut_at ShopeeUtils.SEMICOLON document_cookie cookies ->
        Forall (fun p => exists n fs, ShopeeUtils.cookie_parts p n fs /\
                                      ~ ShopeeUtils.token_name n) cookies ->
        ShopeeUtils.getCsrfToken document_cookie csrfMeta =
        ShopeeUtils.meta_content csrfMeta).
Proof.
  intros document_cookie csrfMeta. split; [|split].
  - exists (split_on ShopeeUtils.SEMICOLON document_cookie).
    split; [apply cut_at_split_on|].
    apply Forall_forall. intros p _. apply cookie_parts_exist.
  - intros earlier later cookie name fields Hcut Hearlier Hparts Hname.
    unfold ShopeeUtils.getCsrfToken.
    rewrite <- (cut_at_unique _ _ _ Hcut), (scan_cookies_skips _ _ Hearlier).
    cbn [ShopeeUtils.scan_cookies].
    rewrite (proj2 (is_token_cookie_named _ _ _ Hparts) Hname).
    unfold ShopeeUtils.cookie_value. rewrite (cookie_parts_split _ _ _ Hparts).
    now destruct fields.
  - intros cookies Hcut Hnone.
    unfold ShopeeUtils.getCsrfToken.
    rewrite <- (cut_at_unique _ _ _ Hcut).
    rewrite <- (app_nil_r cookies), (scan_cookies_skips _ _ Hnone).
    reflexivity.
Qed.

Lemma getCsrfToken_reads_first_named_cookie_witness :
  ShopeeUtils.getCsrfToken (lit "lang=id; csrftoken=YWJj==; _token=zz")
    (Some (Some (lit "meta-token"))) = VStr (lit "YWJj") /\
  ShopeeUtils.getCsrfToken (lit "lang=id; _token ;csrftoken=x") None
  = VUndefined /\
  ShopeeUtils.getCsrfToken (lit "lang=id; theme") (Some (Some (lit "meta-token")))
  = VStr (lit "meta-token").
Proof.
  assert (Hlang : exists n fs, ShopeeUtils.cookie_parts (lit "lang=id") n fs /\
                               ~ ShopeeUtils.token_name n).
  { exists (lit "lang"), [lit "id"]. split.
    - exists (lit "lang=id"). split.
      + exists [], []. now repeat split.
      + split; [discriminate|]. split; [reflexivity|]. now repeat constructor.
    - intros [H|H]; discriminate H. }
  split; [|split].
  - apply (proj1 (proj2 (getCsrfToken_reads_first_named_cookie
                           (lit "lang=id; csrftoken=YWJj==; _token=zz")
                           (Some (Some (lit "meta-token")))))
             [lit "lang=id"] [lit " _token=zz"] (lit " csrftoken=YWJj==")
             (lit "csrftoken") [lit "YWJj"; []; []]).
    + split; [discriminate|]. split; [reflexivity|]. now repeat constructor.
    + constructor; [exact Hlang|constructor].
    + exists (lit "csrftoken=YWJj=="). split.
      * exists (lit " "), []. now repeat split.
      * split; [discriminate|]. split; [reflexivity|]. now repeat constructor.
    + now left.
  - apply (proj1 (proj2 (getCsrfToken_reads_first_named_cookie
                           (lit "lang=id; _token ;csrftoken=x") None))
             [lit "lang=id"] [lit "csrftoken=x"] (lit " _token ")
             (lit "_token") []).
    + split; [discriminate|]. split; [reflexivity|]. now repeat constructor.
    + constructor; [exact Hlang|constructor].
    + exists (lit "_token"). split.
      * exists (lit " "), (lit " "). now repeat split.
      * split; [discriminate|]. split; [reflexivity|]. now repeat constructor.
    + now right.
  - apply (proj2 (proj2 (getCsrfToken_reads_first_named_cookie
                           (lit "lang=id; theme")
                           (Some (Some (lit "meta-token")))))
             [lit "lang=id"; lit " theme"]).
    + split; [discriminate|]. split; [reflexivity|]. now repeat constructor.
    + constructor; [exact Hlang|]. constructor; [|constructor].
      exists (lit "theme"), []. split.
      * exists (lit "theme"). split.
        -- exists (lit " "), []. now repeat split.
        -- split; [discriminate|]. split; [reflexivity|]. now repeat constructor.
      * intros [H|H]; discriminate H.
Defined.

(** X16.  A token that itself contains an equals sign is cut there: for a
    cookie string that begins with csrftoken=, the answer is the text up
    to the next equals sign, whatever follows it in that cookie and
    whatever the meta tag holds. *)
Theorem getCsrfToken_cuts_at_equals :
  forall (tok more : jsstring) (csrfMeta : option (option jsstring)),
    forallb (fun c => negb (N.eqb c ShopeeUtils.EQUALS) &&
                      negb (N.eqb c ShopeeUtils.SEMICOLON)) tok = true ->
    forallb (fun c => negb (N.eqb c ShopeeUtils.SEMICOLON)) more = true ->
    ShopeeUtils.getCsrfToken
      (lit "csrftoken" ++ [ShopeeUtils.EQUALS] ++ tok ++ [ShopeeUtils.EQUALS] ++ more)
      csrfMeta = VStr tok.
Proof.
  intros tok more csrfMeta Htok Hmore.
  assert (forallb (fun c => negb (N.eqb c ShopeeUtils.EQUALS)) tok = true /\
          forallb (fun c => negb (N.eqb c ShopeeUtils.SEMICOLON)) tok = true)
    as [Heq Hsemi].
  { rewrite !forallb_forall in *. split; intros c Hc;
      specialize (Htok c Hc); apply andb_true_iff in Htok; tauto. }
  set (cookie := lit "csrftoken" ++ [ShopeeUtils.EQUALS] ++ tok ++
                 [ShopeeUtils.EQUALS] ++ more).
  assert (split_on ShopeeUtils.SEMICOLON cookie = [cookie]) as Hsplit.
  { apply split_on_no_separator. unfold cookie.
    rewrite !forallb_app, !andb_true_iff.
    repeat split; solve [assumption | reflexivity]. }
  assert (split_on ShopeeUtils.EQUALS (trim cookie) =
          lit "csrftoken" :: tok :: split_on ShopeeUtils.EQUALS (trim_end more))
    as Hparts.
  { unfold trim. unfold cookie at 1.
    change (trim_start (lit "csrftoken" ++ [ShopeeUtils.EQUALS] ++ tok ++
                        [ShopeeUtils.EQUALS] ++ more))
      with (lit "csrftoken" ++ [ShopeeUtils.EQUALS] ++ tok ++
            [ShopeeUtils.EQUALS] ++ more).
    replace (lit "csrftoken" ++ [ShopeeUtils.EQUALS] ++ tok ++
             [ShopeeUtils.EQUALS] ++ more)
      with ((lit "csrftoken" ++ [ShopeeUtils.EQUALS] ++ tok) ++
            ShopeeUtils.EQUALS :: more)
      by (now rewrite <- !app_assoc).
    rewrite trim_end_after_solid; [|reflexivity].
    rewrite <- app_assoc. cbn [app].
    rewrite (split_on_app ShopeeUtils.EQUALS (lit "csrftoken")); [|reflexivity].
    now rewrite (split_on_app ShopeeUtils.EQUALS tok). }
  unfold ShopeeUtils.getCsrfToken. rewrite Hsplit.
  cbn [ShopeeUtils.scan_cookies].
  unfold ShopeeUtils.is_token_cookie, ShopeeUtils.cookie_name,
    ShopeeUtils.cookie_value.
  rewrite Hparts. reflexivity.
Qed.

Lemma getCsrfToken_cuts_at_equals_witness :
  ShopeeUtils.getCsrfToken
    (lit "csrftoken" ++ [ShopeeUtils.EQUALS] ++ lit "YWJj" ++
     [ShopeeUtils.EQUALS] ++ lit "=") (Some (Some (lit "meta-token"))) =
  VStr (lit "YWJj").
Proof.
  apply (getCsrfToken_cuts_at_equals (lit "YWJj") (lit "=")); reflexivity.
Defined.


(** ** The CSV writer *)

Lemma double_quotes_plain (s : jsstring) :
  ShopeeCsv.quote_free s = true -> ShopeeCsv.double_quotes s = s.
Proof.
  induction s as [|c s IH]; [reflexivity|].
  unfold ShopeeCsv.quote_free. cbn [forallb].
  rewrite andb_true_iff, negb_true_iff. intros [Hc Hs].
  unfold ShopeeCsv.double_quotes. cbn [flat_map]. rewrite Hc. cbn [app].
  f_equal. exact (IH Hs).
Qed.

Lemma read_quoted_field (t rest : jsstring) :
  hd_error rest <> Some ShopeeCsv.QUOTE ->
  ShopeeCsv.read_quoted (ShopeeCsv.double_quotes t ++ ShopeeCsv.QUOTE :: rest)
  = Some (t, rest).
Proof.
  intros Hrest. induction t as [|c t IH].
  - cbn [ShopeeCsv.double_quotes flat_map app ShopeeCsv.read_quoted].
    rewrite N.eqb_refl. destruct rest as [|c' rest']; [reflexivity|].
    destruct (N.eqb_spec c' ShopeeCsv.QUOTE) as [->|_]; [|reflexivity].
    now contradiction Hrest.
  - unfold ShopeeCsv.double_quotes in *. cbn [flat_map].
    destruct (N.eqb_spec c ShopeeCsv.QUOTE) as [->|Hc].
    + cbn [app ShopeeCsv.read_quoted]. rewrite !N.eqb_refl.
      now rewrite IH.
    + cbn [app ShopeeCsv.read_quoted].
      apply N.eqb_neq in Hc. rewrite Hc. now rewrite IH.
Qed.

Lemma quoted_row_cons (t t2 : jsstring) (texts : list jsstring) :
  ShopeeCsv.quoted_row (t :: t2 :: texts)
  = ShopeeCsv.QUOTE :: ShopeeCsv.double_quotes t ++
    ShopeeCsv.QUOTE :: ShopeeCsv.COMMA :: ShopeeCsv.quoted_row (t2 :: texts).
Proof.
  unfold ShopeeCsv.quoted_row. cbn [map join_with].
  unfold ShopeeCsv.quoted at 1. cbn [app]. now rewrite <- app_assoc.
Qed.

Lemma read_row_quoted (fuel : nat) (t rest : jsstring) :
  hd_error rest <> Some ShopeeCsv.QUOTE ->
  ShopeeCsv.read_row (S fuel)
    (ShopeeCsv.QUOTE :: ShopeeCsv.double_quotes t ++ ShopeeCsv.QUOTE :: rest)
  = match rest with
    | [] => Some ([t], None)
    | c :: rest' =>
        if N.eqb c ShopeeCsv.COMMA then
          match ShopeeCsv.read_row fuel rest' with
          | Some (fields, after) => Some (t :: fields, after)
          | None => None
          end
        else if N.eqb c LF then Some ([t], Some rest')
        else None
    end.
Proof.
  intros Hrest. cbn [ShopeeCsv.read_row]. rewrite N.eqb_refl.
  now rewrite (read_quoted_field t rest Hrest).
Qed.

Lemma read_row_fields (texts : list jsstring) :
  texts <> [] ->
  forall fuel, length texts <= fuel ->
  ShopeeCsv.read_row fuel (ShopeeCsv.quoted_row texts) = Some (texts, None) /\
  forall more,
    ShopeeCsv.read_row fuel (ShopeeCsv.quoted_row texts ++ LF :: more)
    = Some (texts, Some more).
Proof.
  induction texts as [|t texts IH]; [contradiction|]. intros _ fuel Hfuel.
  destruct fuel as [|fuel]; [cbn in Hfuel; lia|].
  destruct texts as [|t2 texts].
  - unfold ShopeeCsv.quoted_row, ShopeeCsv.quoted. cbn [map join_with app].
    split.
    + now rewrite read_row_quoted.
    + intros more. rewrite <- app_assoc. cbn [app].
      now rewrite read_row_quoted.
  - destruct (IH ltac:(discriminate) fuel ltac:(cbn in *; lia)) as [IH1 IH2].
    rewrite quoted_row_cons. split.
    + rewrite read_row_quoted by discriminate.
      rewrite N.eqb_refl. now rewrite IH1.
    + intros more. cbn [app]. rewrite <- app_assoc. cbn [app].
      rewrite read_row_quoted by discriminate.
      rewrite N.eqb_refl. now rewrite IH2.
Qed.

Lemma quoted_row_length (texts : list jsstring) :
  length texts <= length (ShopeeCsv.quoted_row texts).
Proof.
  induction texts as [|t texts IH]; [cbn; lia|].
  destruct texts as [|t2 texts].
  - unfold ShopeeCsv.quoted_row, ShopeeCsv.quoted. cbn [map join_with app length].
    lia.
  - rewrite quoted_row_cons. cbn [length] in *. rewrite length_app.
    cbn [length]. lia.
Qed.

Lemma read_rows_lines (rows : list (list jsstring)) :
  rows <> [] ->
  Forall (fun r => r <> []) rows ->
  forall fuel, length rows <= fuel ->
  ShopeeCsv.read_rows fuel (join_with [LF] (map ShopeeCsv.quoted_row rows))
  = Some rows.
Proof.
  induction rows as [|r rows IH]; [contradiction|]. intros _ Hrows fuel Hfuel.
  inversion Hrows as [|? ? Hr Hrest]; subst.
  destruct fuel as [|fuel]; [cbn in Hfuel; lia|].
  destruct rows as [|r2 rows].
  - cbn [map join_with ShopeeCsv.read_rows].
    destruct (read_row_fields r Hr (length (ShopeeCsv.quoted_row r))
                (quoted_row_length r)) as [H _].
    now rewrite H.
  - change (join_with [LF] (map ShopeeCsv.quoted_row (r :: r2 :: rows)))
      with (ShopeeCsv.quoted_row r ++
            LF :: join_with [LF] (map ShopeeCsv.quoted_row (r2 :: rows))).
    set (more := join_with [LF] (map ShopeeCsv.quoted_row (r2 :: rows))) in *.
    cbn [ShopeeCsv.read_rows].
    assert (Hlen : length r <=
                   length (ShopeeCsv.quoted_row r ++ LF :: more)).
    { rewrite length_app. pose proof (quoted_row_length r). lia. }
    destruct (read_row_fields r Hr _ Hlen) as [_ H].
    rewrite (H more).
    rewrite IH; [reflexivity|discriminate|exact Hrest|cbn in *; lia].
Qed.

Lemma lines_length (rows : list (list jsstring)) :
  Forall (fun r => r <> []) rows ->
  length rows <= length (join_with [LF] (map ShopeeCsv.quoted_row rows)).
Proof.
  induction 1 as [|r rows Hr _ IH]; [cbn; lia|].
  pose proof (quoted_row_length r) as Hlen.
  assert (1 <= length r) by (destruct r; [contradiction|cbn; lia]).
  destruct rows as [|r2 rows].
  - cbn [map join_with length]. lia.
  - change (join_with [LF] (map ShopeeCsv.quoted_row (r :: r2 :: rows)))
      with (ShopeeCsv.quoted_row r ++
            LF :: join_with [LF] (map ShopeeCsv.quoted_row (r2 :: rows))).
    rewrite length_app. cbn [length] in *. lia.
Qed.

Lemma index_entries_grow (A : Type) (o : list (jsstring * A))
      (acc : list (N * (jsstring * A))) :
  acc <> [] ->
  fold_left (fun acc kv =>
               match array_index (fst kv) with
               | Some n => insert_by_index n kv acc
               | None => acc
               end) o acc <> [].
Proof.
  revert acc. induction o as [|kv o IH]; intros acc Hacc; [exact Hacc|].
  cbn [fold_left]. apply IH.
  destruct (array_index (fst kv)); [|exact Hacc].
  destruct acc as [|[n' kv'] acc]; [discriminate|].
  cbn [insert_by_index]. destruct (_ <? _)%N; discriminate.
Qed.

Lemma object_entries_nonempty (A : Type) (o : list (jsstring * A)) :
  o <> [] -> object_entries o <> [].
Proof.
  destruct o as [|kv o]; [contradiction|]. intros _.
  unfold object_entries, index_entries. cbn [fold_left filter].
  destruct (array_index (fst kv)) as [n|].
  - intros H. apply app_eq_nil in H. destruct H as [H _].
    apply map_eq_nil in H. revert H. apply index_entries_grow.
    discriminate.
  - intros H. apply app_eq_nil in H. destruct H as [_ H]. discriminate.
Qed.

Section CsvFacts.

Variable number_text : number -> jsstring.
Variable json_text : value -> jsstring.
Variable inherited_text : jsstring -> option jsstring.

Lemma value_cell_quoted (v : value) :
  ShopeeCsv.value_cell number_text json_text v
  = ShopeeCsv.quoted (ShopeeCsv.value_text number_text json_text v).
Proof. destruct v as [| |[|]| | | |]; reflexivity. Qed.

Lemma row_cell_quoted (row : object) (h : jsstring) :
  ShopeeCsv.row_cell number_text json_text inherited_text row h
  = ShopeeCsv.quoted
      (ShopeeCsv.row_text number_text json_text inherited_text row h).
Proof.
  unfold ShopeeCsv.row_cell, ShopeeCsv.row_text.
  destruct (ShopeeCsv.own_prop row h) as [v|]; [apply value_cell_quoted|].
  destruct (inherited_text h); reflexivity.
Qed.

Lemma header_cells_quoted (headers : list jsstring) :
  Forall (fun h => ShopeeCsv.quote_free h = true) headers ->
  map ShopeeCsv.header_cell headers = map ShopeeCsv.quoted headers.
Proof.
  induction 1 as [|h headers Hh _ IH]; [reflexivity|].
  cbn [map]. rewrite IH. f_equal.
  unfold ShopeeCsv.header_cell, ShopeeCsv.quoted.
  now rewrite double_quotes_plain.
Qed.

(** X17.  When the first record given to [generateCSV] has at least one
    property and none of its property names contains a quote, the text
    written reads back, field by field, as the header row
    of those names in the order of Object.keys, followed by one row for
    every record in the order given, each holding under every header the
    text of that record's value: commas, line feeds and quotes inside a
    value do not break the rows. *)
Theorem generateCSV_reads_back (first : object) (rest : list object) :
  first <> [] ->
  Forall (fun h => ShopeeCsv.quote_free h = true)
         (map fst (object_entries first)) ->
  ShopeeCsv.read_csv
    (ShopeeCsv.generateCSV number_text json_text inherited_text
       (Some (first :: rest)))
  = Some (map fst (object_entries first) ::
          map (fun row =>
                 map (ShopeeCsv.row_text number_text json_text
                        inherited_text row)
                     (map fst (object_entries first)))
              (first :: rest)).
Proof.
  intros Hfirst Hplain.
  assert (Hheaders : map fst (object_entries first) <> []).
  { intros H. apply map_eq_nil in H.
    exact (object_entries_nonempty _ first Hfirst H). }
  set (headers := map fst (object_entries first)) in *.
  set (rows := headers ::
               map (fun row =>
                      map (ShopeeCsv.row_text number_text json_text
                             inherited_text row) headers)
                   (first :: rest)).
  assert (Hgen : ShopeeCsv.generateCSV number_text json_text inherited_text
                   (Some (first :: rest))
                 = ShopeeCsv.BOM ::
                   join_with [LF] (map ShopeeCsv.quoted_row rows)).
  { unfold ShopeeCsv.generateCSV. fold headers. f_equal. f_equal.
    unfold rows. cbn [map]. unfold ShopeeCsv.quoted_row at 1.
    rewrite (header_cells_quoted headers Hplain). f_equal.
    assert (Hrow : forall row,
               join_with [ShopeeCsv.COMMA]
                 (map (ShopeeCsv.row_cell number_text json_text
                         inherited_text row) headers)
               = ShopeeCsv.quoted_row
                   (map (ShopeeCsv.row_text number_text json_text
                           inherited_text row) headers)).
    { intros row. unfold ShopeeCsv.quoted_row. rewrite map_map. f_equal.
      apply map_ext. intros h. apply row_cell_quoted. }
    rewrite Hrow. f_equal. rewrite map_map. apply map_ext. exact Hrow. }
  rewrite Hgen.
  assert (Hrows : Forall (fun r => r <> []) rows).
  { unfold rows. constructor; [exact Hheaders|].
    apply Forall_forall. intros r Hr. apply in_map_iff in Hr.
    destruct Hr as [row [<- _]]. intros H. apply map_eq_nil in H.
    exact (Hheaders H). }
  unfold ShopeeCsv.read_csv. rewrite N.eqb_refl.
  apply read_rows_lines; [discriminate|exact Hrows|].
  apply lines_length. exact Hrows.
Qed.

End CsvFacts.

Lemma generateCSV_reads_back_witness :
  let first := [(lit "sn", VStr [65; 34; 44; 66]%N); (lit "7", VNull)] in
  let rest := [[(lit "sn", VBool true)]] in
  first <> [] /\
  Forall (fun h => ShopeeCsv.quote_free h = true)
         (map fst (object_entries first)) /\
  ShopeeCsv.read_csv
    (ShopeeCsv.generateCSV (fun _ => lit "0") (fun _ => lit "{}")
       (fun _ => None) (Some (first :: rest)))
  = Some [[lit "7"; lit "sn"];
          [[]; [65; 34; 44; 66]%N];
          [[]; lit "true"]].
Proof.
  cbv zeta. split; [discriminate|].
  split; [repeat constructor|].
  apply (generateCSV_reads_back (fun _ => lit "0") (fun _ => lit "{}")
           (fun _ => None)
           [(lit "sn", VStr [65; 34; 44; 66]%N); (lit "7", VNull)]
           [[(lit "sn", VBool true)]]);
    [discriminate | repeat constructor].
Defined.
